(** * Cartographer: the schema inference engine (src/inference.py) and the
      relationship merge of the application (src/app.py)

    A shallow embedding of the name helpers, the Jaro-Winkler similarity,
    the primary-key detector, the candidate scorer, the pairwise search
    and the merge of declared, inferred and manual relationships.

    Conventions of the embedding.
    - Python [float] is IEEE binary64; it is modelled by [spec_float] with
      precision 53 and maximal exponent 1024, the operations being
      the correctly rounded ones of [SpecFloat].  A decimal literal such as
      [0.85] is the correctly rounded quotient 85/100.
    - Python [str] is modelled by [string]; table and column names are taken
      to be ASCII, so that [str.lower] is the ASCII lower-casing.
    - A [dict] is a [gmap] where only lookups matter and an association list,
      in insertion order, where the order of the keys is observable.
    - What pandas, numpy, scipy and the regular-expression engine compute is
      taken from a [Runtime] instance; the control flow around those calls is
      the one of the source. *)

From Stdlib Require Import ZArith Ascii String.
From Stdlib Require Import Floats.SpecFloat.
From stdpp Require Import base option list strings gmap.

Local Open Scope Z_scope.

(** ** Binary64 arithmetic *)

Module F64.

Definition prec : Z := 53.
Definition emax : Z := 1024.

Definition of_Z (z : Z) : spec_float := binary_normalize prec emax z 0 false.

Definition add : spec_float → spec_float → spec_float := SFadd prec emax.
Definition sub : spec_float → spec_float → spec_float := SFsub prec emax.
Definition mul : spec_float → spec_float → spec_float := SFmul prec emax.
Definition div : spec_float → spec_float → spec_float := SFdiv prec emax.
Definition neg : spec_float → spec_float := SFopp.

(** [x < y], [x <= y], [x > y], [x >= y]; all false on a NaN. *)
Definition ltb : spec_float → spec_float → bool := SFltb.
Definition leb : spec_float → spec_float → bool := SFleb.
Definition gtb (x y : spec_float) : bool := SFltb y x.
Definition geb (x y : spec_float) : bool := SFleb y x.

(** The literal [n/d] for a decimal literal with numerator [n] and a power
    of ten [d]: both are exact in binary64 and the quotient is correctly
    rounded, as the parse of the literal is. *)
Definition lit (n d : Z) : spec_float := div (of_Z n) (of_Z d).

Definition zero : spec_float := of_Z 0.
Definition one : spec_float := of_Z 1.

(** [min(a, b)] of Python: [b] replaces [a] only when [b < a]. *)
Definition min2 (a b : spec_float) : spec_float := if ltb b a then b else a.

(** Nearest integer to [num/den], ties to even ([den > 0]). *)
Definition half_even (num den : Z) : Z :=
  let q := num / den in
  let r := num mod den in
  match (2 * r ?= den) with
  | Lt => q
  | Gt => q + 1
  | Eq => if Z.even q then q else q + 1
  end.

(** The nearest integer to [m * 2^e * scale], ties to even. *)
Definition scale_mantissa (m : positive) (e : Z) (scale : Z) : Z :=
  if 0 <=? e then Zpos m * 2 ^ e * scale
  else half_even (Zpos m * scale) (2 ^ (- e)).

(** [round(x, ndigits)] of Python for [ndigits >= 0]: the exact value of
    [x] is rounded to [ndigits] decimals, ties to even, and the decimal
    obtained is converted back to the nearest binary64. *)
Definition round (x : spec_float) (ndigits : Z) : spec_float :=
  match x with
  | S754_finite s m e =>
      let scale := 10 ^ ndigits in
      let r := div (of_Z (scale_mantissa m e scale)) (of_Z scale) in
      if s then neg r else r
  | _ => x
  end.

(** The value of [x] in thousandths, to the nearest. *)
Definition thousandths (x : spec_float) : Z :=
  match x with
  | S754_finite s m e => if s then - scale_mantissa m e 1000 else scale_mantissa m e 1000
  | _ => 0
  end.

(** The same float, bit for bit (a NaN has one representation here). *)
Definition identical (x y : spec_float) : bool :=
  match x, y with
  | S754_zero s, S754_zero s' => Bool.eqb s s'
  | S754_infinity s, S754_infinity s' => Bool.eqb s s'
  | S754_nan, S754_nan => true
  | S754_finite s m e, S754_finite s' m' e' => Bool.eqb s s' && Pos.eqb m m' && Z.eqb e e'
  | _, _ => false
  end.

(** [math.prod] over floats: a left fold that starts from 1. *)
Definition prod (xs : list spec_float) : spec_float := foldl mul one xs.

End F64.

(** ** Name helpers *)

Definition newline : ascii := "010"%char.
Definition underscore : ascii := "_"%char.

Fixpoint str_map (f : ascii → ascii) (s : string) : string :=
  match s with
  | EmptyString => EmptyString
  | String c s' => String (f c) (str_map f s')
  end.

(** [str.lower] on ASCII. *)
Definition lower_char (c : ascii) : ascii :=
  let n := N_of_ascii c in
  if ((65 <=? n) && (n <=? 90))%N then ascii_of_N (n + 32) else c.

(** The class [[a-z0-9]]. *)
Definition is_lower_alnum (c : ascii) : bool :=
  let n := N_of_ascii c in
  (((97 <=? n) && (n <=? 122)) || ((48 <=? n) && (n <=? 57)))%N.

(** [re.sub(r"_+", "_", s)]: every run of underscores becomes one. *)
Fixpoint squeeze_underscores (s : string) : string :=
  match s with
  | EmptyString => EmptyString
  | String c s' =>
      if Ascii.eqb c underscore then
        match s' with
        | String c' _ =>
            if Ascii.eqb c' underscore then squeeze_underscores s'
            else String c (squeeze_underscores s')
        | EmptyString => String c EmptyString
        end
      else String c (squeeze_underscores s')
  end.

Fixpoint lstrip_underscores (s : string) : string :=
  match s with
  | String c s' => if Ascii.eqb c underscore then lstrip_underscores s' else s
  | EmptyString => EmptyString
  end.

Fixpoint rstrip_underscores (s : string) : string :=
  match s with
  | EmptyString => EmptyString
  | String c s' =>
      match rstrip_underscores s' with
      | EmptyString => if Ascii.eqb c underscore then EmptyString else String c EmptyString
      | r => String c r
      end
  end.

(** [clean_name]: lowercase, non-alphanumeric to underscore, collapse,
    strip. *)
Definition clean_name (name : string) : string :=
  let n := str_map (λ c, if is_lower_alnum c then c else underscore)
                   (str_map lower_char name) in
  rstrip_underscores (lstrip_underscores (squeeze_underscores n)).

(** The characters of a string. *)
Definition chars (s : string) : list ascii := String.list_ascii_of_string s.

(** [s.startswith(p)] and [s.endswith(suf)]. *)
Definition startswith (s p : string) : bool :=
  bool_decide (chars p `prefix_of` chars s).

Definition endswith (s suf : string) : bool :=
  bool_decide (chars suf `suffix_of` chars s).

(** [s] without its last [k] characters. *)
Definition drop_end (k : nat) (s : string) : string :=
  String.string_of_list_ascii (take (length (chars s) - k) (chars s)).

(** The first suffix of [sufs] that ends [s] is removed. *)
Fixpoint strip_first (sufs : list string) (s : string) : string :=
  match sufs with
  | [] => s
  | suf :: rest =>
      if endswith s suf then drop_end (length (chars suf)) s
      else strip_first rest s
  end.

(** [re.sub(r"(a|b|...)$", "", s)] for alternatives without a newline, no
    one of which ends another: [$] matches at the end of the string and
    before a newline that ends the string, so the match, if any, is the one
    alternative that ends the string (or ends it before its final newline). *)
Definition re_sub_at_end (alts : list string) (s : string) : string :=
  if endswith s (String newline EmptyString)
  then strip_first alts (drop_end 1 s) +:+ String newline EmptyString
  else strip_first alts s.

(** [re.search(r"(a|b|...)$", s)] as a truth value, same alternatives. *)
Definition re_search_at_end (alts : list string) (s : string) : bool :=
  let body := if endswith s (String newline EmptyString) then drop_end 1 s else s in
  existsb (endswith body) alts.

(** ['document_id' → 'document']: [re.sub(r"_id$", "", col_clean)]. *)
Definition id_stem (col_clean : string) : string :=
  re_sub_at_end ["_id"] col_clean.

Definition is_pk_name (col_clean tname_clean : string) : bool :=
  if String.eqb col_clean "id" then true
  else if String.eqb col_clean (tname_clean +:+ "_id") then true
  else if endswith col_clean "_id" && startswith tname_clean (id_stem col_clean) then true
  else false.

Definition is_fk_for (col_clean t2_clean : string) : bool :=
  if String.eqb col_clean (t2_clean +:+ "_id") then true
  else if endswith col_clean "_id" && startswith t2_clean (id_stem col_clean) then true
  else false.

(** The stem of the name-similarity signal, written inline in
    [_score_candidate]: [re.sub(r"_(id|key|code|num|no)$", "", c)]. *)
Definition STEM_SUFFIXES : list string := ["_id"; "_key"; "_code"; "_num"; "_no"].

Definition sim_stem (c : string) : string := re_sub_at_end STEM_SUFFIXES c.

(** ** Jaro-Winkler similarity ([_jaro_winkler]) *)

Definition of_nat (n : nat) : spec_float := F64.of_Z (Z.of_nat n).

(** The inner loop [for j in range(lo, hi)]: the first [j] with
    [s2_matches[j]] unset and [s1[i] == s2[j]]. *)
Definition find_match (c : ascii) (s2 : list ascii) (s2_matches : list bool)
    (lo hi : nat) : option nat :=
  List.find
    (λ j, match s2_matches !! j, s2 !! j with
          | Some false, Some c' => Ascii.eqb c c'
          | _, _ => false
          end)
    (seq lo (hi - lo)).

(** One turn of the first [for i in range(l1)] loop; the state is
    [(s1_matches, s2_matches, matches)].  [i - match_dist] is a truncated
    subtraction, which is [max(0, i - match_dist)]. *)
Definition match_step (s1 s2 : list ascii) (match_dist : nat)
    (st : list bool * list bool * nat) (i : nat) : list bool * list bool * nat :=
  let '(s1_matches, s2_matches, matches) := st in
  let lo := Nat.max 0 (i - match_dist) in
  let hi := Nat.min (i + match_dist + 1) (length s2) in
  match s1 !! i with
  | Some c =>
      match find_match c s2 s2_matches lo hi with
      | Some j => (<[i:=true]> s1_matches, <[j:=true]> s2_matches, S matches)
      | None => st
      end
  | None => st
  end.

Definition jaro_matching (s1 s2 : list ascii) : list bool * list bool * nat :=
  let l1 := length s1 in
  let l2 := length s2 in
  let match_dist := Nat.max (Nat.max l1 l2 / 2 - 1) 0 in
  foldl (match_step s1 s2 match_dist)
        (replicate l1 false, replicate l2 false, 0%nat) (seq 0 l1).

(** [while not s2_matches[k]: k += 1].  Every matched position of [s1] has
    its own matched position in [s2], so the scan stops inside the list
    ([jaro_scan_in_range] below). *)
Fixpoint skip_unset (flags : list bool) : nat :=
  match flags with
  | false :: rest => S (skip_unset rest)
  | _ => 0%nat
  end.

Definition next_set (flags : list bool) (k : nat) : nat :=
  (k + skip_unset (drop k flags))%nat.

(** The number of flags that are set. *)
Fixpoint count_set (flags : list bool) : nat :=
  match flags with
  | [] => 0%nat
  | true :: rest => S (count_set rest)
  | false :: rest => count_set rest
  end.

(** One turn of the second [for i in range(l1)] loop; the state is
    [(k, transpositions)]. *)
Definition transposition_step (s1 s2 : list ascii) (s1_matches s2_matches : list bool)
    (st : nat * nat) (i : nat) : nat * nat :=
  let '(k, transpositions) := st in
  match s1_matches !! i with
  | Some true =>
      let k' := next_set s2_matches k in
      (S k', if bool_decide (s1 !! i = s2 !! k') then transpositions
             else S transpositions)
  | _ => st
  end.

Definition jaro_transpositions (s1 s2 : list ascii) (s1_matches s2_matches : list bool) : nat :=
  snd (foldl (transposition_step s1 s2 s1_matches s2_matches)
             (0%nat, 0%nat) (seq 0 (length s1))).

(** [(matches/l1 + matches/l2 + (matches - transpositions/2)/matches) / 3] *)
Definition jaro_formula (l1 l2 matches transpositions : nat) : spec_float :=
  F64.div
    (F64.add
       (F64.add (F64.div (of_nat matches) (of_nat l1))
                (F64.div (of_nat matches) (of_nat l2)))
       (F64.div (F64.sub (of_nat matches)
                         (F64.div (of_nat transpositions) (F64.of_Z 2)))
                (of_nat matches)))
    (F64.of_Z 3).

(** [sum(1 for i in range(min(4, l1, l2)) if s1[i] == s2[i])] *)
Definition winkler_prefix (s1 s2 : list ascii) : nat :=
  length (filter (λ i, s1 !! i = s2 !! i)
                 (seq 0 (Nat.min 4 (Nat.min (length s1) (length s2))))).

(** [jaro + prefix * 0.1 * (1 - jaro)] *)
Definition winkler_boost (jaro : spec_float) (prefix : nat) : spec_float :=
  F64.add jaro
    (F64.mul (F64.mul (of_nat prefix) (F64.lit 1 10)) (F64.sub F64.one jaro)).

(** The Jaro similarity the function computes on the way, for strings that
    differ, are not empty and have a match. *)
Definition jaro_of (s1 s2 : list ascii) : spec_float :=
  let '(s1_matches, s2_matches, matches) := jaro_matching s1 s2 in
  jaro_formula (length s1) (length s2) matches
               (jaro_transpositions s1 s2 s1_matches s2_matches).

Definition _jaro_winkler (s1 s2 : string) : spec_float :=
  if String.eqb s1 s2 then F64.one
  else
    let a1 := chars s1 in
    let a2 := chars s2 in
    if bool_decide (length a1 = 0%nat ∨ length a2 = 0%nat) then F64.zero
    else
      let '(s1_matches, s2_matches, matches) := jaro_matching a1 a2 in
      if bool_decide (matches = 0%nat) then F64.zero
      else
        let transpositions := jaro_transpositions a1 a2 s1_matches s2_matches in
        let jaro := jaro_formula (length a1) (length a2) matches transpositions in
        winkler_boost jaro (winkler_prefix a1 a2).

(** The length of the common prefix of the standard definition: the number
    of leading positions at which the two strings agree, which stops at the
    first disagreement, capped at 4. *)
Fixpoint common_prefix_length (s1 s2 : list ascii) : nat :=
  match s1, s2 with
  | c1 :: r1, c2 :: r2 =>
      if Ascii.eqb c1 c2 then S (common_prefix_length r1 r2) else 0%nat
  | _, _ => 0%nat
  end.

Definition standard_prefix (s1 s2 : list ascii) : nat :=
  Nat.min 4 (common_prefix_length s1 s2).

(** ** Constants of the engine *)

Definition OVERLAP_HIGH : spec_float := F64.lit 98 100.
Definition OVERLAP_MEDIUM : spec_float := F64.lit 80 100.
Definition NAME_SIM_HIGH : spec_float := F64.lit 85 100.
Definition NAME_SIM_MED : spec_float := F64.lit 72 100.
Definition DIST_SIM_HIGH : spec_float := F64.lit 90 100.
Definition DIST_SIM_MED : spec_float := F64.lit 75 100.

(** A compiled pattern: its source and whether [re.I] is set. *)
Definition FORMAT_PATTERNS : list (string * (string * bool)) :=
  [ ("uuid", ("^[0-9a-f]{8}-[0-9a-f]{4}-[0-9a-f]{4}-[0-9a-f]{4}-[0-9a-f]{12}$", true));
    ("email", ("^[^@\s]+@[^@\s]+\.[^@\s]+$", false));
    ("zip_us", ("^\d{5}(-\d{4})?$", false));
    ("phone", ("^\+?[\d\s\-().]{7,15}$", false));
    ("iso_date", ("^\d{4}-\d{2}-\d{2}$", false));
    ("iso_ts", ("^\d{4}-\d{2}-\d{2}[ T]\d{2}:\d{2}", false));
    ("hex_color", ("^#[0-9a-f]{3,6}$", true));
    ("int_code", ("^\d{1,6}$", false));
    ("alpha_code", ("^[A-Z]{2,4}$", false)) ].

Definition WEIGHT_MAP : list (string * spec_float) :=
  [ ("naming_exact", F64.lit 100 100);
    ("cardinality_match", F64.lit 95 100);
    ("overlap_high", F64.lit 90 100);
    ("name_sim", F64.lit 60 100);
    ("overlap_medium", F64.lit 55 100);
    ("dist_high", F64.lit 50 100);
    ("format_match", F64.lit 40 100);
    ("dist_med", F64.lit 30 100);
    ("name_sim_weak", F64.lit 25 100);
    ("null_corr", F64.lit 20 100) ].

Definition LABEL_MAP : list (string * string) :=
  [ ("naming_exact", "naming");
    ("name_sim", "name_similarity");
    ("name_sim_weak", "name_similarity");
    ("overlap_high", "value_overlap");
    ("overlap_medium", "value_overlap");
    ("cardinality_match", "cardinality");
    ("format_match", "format");
    ("dist_high", "distribution");
    ("dist_med", "distribution");
    ("null_corr", "null_pattern") ].

Definition CONF_RANK : list (string * Z) := [("low", 0); ("medium", 1); ("high", 2)].

(** [d.get(k, dflt)] on a dict written as its list of items. *)
Fixpoint dict_get {V} (d : list (string * V)) (k : string) (dflt : V) : V :=
  match d with
  | [] => dflt
  | (k', v) :: rest => if String.eqb k k' then v else dict_get rest k dflt
  end.

(** ** Tables *)

Inductive dtype :=
  | int64 | uint64 | float64 | complex128 | bool_
  | datetime64 | datetime64tz | timedelta64
  | category | string_ | object_.

Definition is_numeric_dtype (d : dtype) : bool :=
  match d with
  | int64 | uint64 | float64 | complex128 | bool_ => true
  | _ => false
  end.

Definition is_datetime64_any_dtype (d : dtype) : bool :=
  match d with
  | datetime64 | datetime64tz => true
  | _ => false
  end.

(** A value of a cell that is not null. *)
Inductive scalar :=
  | VInt (z : Z)
  | VFloat (x : spec_float)
  | VBool (b : bool)
  | VStamp (ns : Z)
  | VStr (s : string).

Definition scalar_eqb (a b : scalar) : bool :=
  match a, b with
  | VInt x, VInt y => Z.eqb x y
  | VFloat x, VFloat y => SFeqb x y
  | VBool x, VBool y => Bool.eqb x y
  | VStamp x, VStamp y => Z.eqb x y
  | VStr x, VStr y => String.eqb x y
  | _, _ => false
  end.

(** A column: [None] is a null cell (NaN, None, NaT). *)
Record Series := {
  s_name : string;
  s_dtype : dtype;
  s_values : list (option scalar)
}.

(** A table: [len(df)] and the columns in order.  Column names are unique in
    a table, so [df[c]] for [c] in [df.columns] is the column itself; the
    loops over [df.columns] run over the columns. *)
Record DataFrame := {
  df_len : nat;
  df_columns : list Series
}.

Definition _col_dtype_class (series : Series) : string :=
  if is_numeric_dtype (s_dtype series) then "numeric"
  else if is_datetime64_any_dtype (s_dtype series) then "datetime"
  else "string".

(** [series.notna().all()] *)
Definition notna_all (series : Series) : bool :=
  forallb (λ v, match v with Some _ => true | None => false end) (s_values series).

(** [series.nunique()]: the number of distinct values that are not null. *)
Fixpoint distinct (l : list scalar) : list scalar :=
  match l with
  | [] => []
  | x :: rest => if existsb (scalar_eqb x) rest then distinct rest else x :: distinct rest
  end.

Definition nunique (series : Series) : nat :=
  length (distinct (omap id (s_values series))).

(** [df[c].notna().all() and df[c].nunique() == n] *)
Definition unique_not_null (n : nat) (c : Series) : bool :=
  notna_all c && (nunique c =? n)%nat.

Fixpoint contains (sub s : string) : bool :=
  startswith s sub ||
  match s with
  | EmptyString => false
  | String _ s' => contains sub s'
  end.

(** [method in (...)] *)
Definition str_in (s : string) (l : list string) : bool := existsb (String.eqb s) l.

(** ** The primary-key detector ([detect_pks]) *)

Definition detect_pks (df : DataFrame) (table_name : string) (method : string) : list string :=
  let cols := df_columns df in
  let n := df_len df in
  let by_name :=
    if str_in method ["naming"; "both"] then
      let tname := clean_name table_name in
      List.find (λ col, is_pk_name (clean_name (s_name col)) tname) cols
    else None in
  match by_name with
  | Some col => [s_name col]
  | None =>
      if str_in method ["uniqueness"; "both"; "content"; "all"] && (0 <? n)%nat then
        let unique_cols := List.filter (unique_not_null n) cols in
        let id_like :=
          List.filter
            (λ c, re_search_at_end ["_id"; "_key"; "_no"; "_num"; "_code"]
                                   (clean_name (s_name c)))
            unique_cols in
        match id_like, unique_cols with
        | c :: _, _ => [s_name c]
        | [], c :: _ => [s_name c]
        | [], [] => []
        end
      else []
  end.

(** The naming rule of the detector as a proposition: the canonical name is
    [id], or the table's canonical name followed by [_id], or a stem
    followed by [_id] where the table's canonical name starts with the
    stem. *)
Definition pk_naming_rule (col table_name : string) : Prop :=
  clean_name col = "id" ∨
  clean_name col = clean_name table_name +:+ "_id" ∨
  ∃ stem rest, clean_name col = stem +:+ "_id" ∧ clean_name table_name = stem +:+ rest.

(** ** What the libraries compute *)

Class Runtime := {
  (** [str(v)] of a cell value, as [Series.astype(str)] renders it. *)
  astype_str : scalar → string;
  (** [pattern.match(s)] is not [None], for a pattern given by its source
      and its [re.I] flag. *)
  re_match : string * bool → string → bool;
  (** [format(x, spec)] of a float, as an f-string renders it. *)
  format_float : string → spec_float → string;
  (** The state of a numpy random generator; the generator that
      [RandomState(seed)] builds; [choice(population, size, replace=False)],
      which returns the positions drawn and the state it leaves. *)
  rng_state : Type;
  rng_seed : Z → rng_state;
  rng_choice : rng_state → nat → nat → list nat * rng_state;
  (** The cosine similarity of the value-count vectors of the two columns
      ([_distribution_similarity], a numpy computation). *)
  _distribution_similarity : Series → Series → spec_float;
  (** The block under [try] in [_null_pattern_correlation]: the Pearson
      correlation of the two null masks computed by scipy, and [0.0] when one
      of the masks has no variance or when scipy raises. *)
  null_mask_correlation : list bool → list bool → spec_float
}.

(** ** The result of the scorer and of the search *)

Module Candidate.
(** The dict that [_score_candidate] returns; [signals] keeps the keys in
    insertion order. *)
Record t := {
  signals : list (string * spec_float);
  reasons : list string;
  score : spec_float;
  confidence : string;
  detected_by : string
}.
End Candidate.

(** A dict of the list that [detect_fks] returns. *)
Record relationship := {
  from_table : string;
  from_col : string;
  to_table : string;
  to_col : string;
  detected_by : string;
  confidence : string;
  score : spec_float;
  reasons : list string;
  signals : list (string * spec_float)
}.

(** The locals [results], [seen] and [best] of [detect_fks]. *)
Record search_state := {
  results : list relationship;
  seen : gset string;
  best : gmap string spec_float
}.

Section Engine.
Context `{Runtime}.

(** *** Computations that may draw from the ambient random generator

    A computation takes the state of numpy's global generator and returns
    its value with the state it leaves. *)
Definition M (A : Type) : Type := rng_state → A * rng_state.

Definition ret {A} (a : A) : M A := λ g, (a, g).

Definition bind {A B} (m : M A) (k : A → M B) : M B :=
  λ g, let '(a, g') := m g in k a g'.

(** A computation that neither reads nor moves the global generator. *)
Definition stateless {A} (m : M A) : Prop := ∃ a, ∀ g, m g = (a, g).

(** [for x in xs: st = body(st, x)] *)
Fixpoint for_each {A S} (xs : list A) (body : S → A → M S) (st : S) : M S :=
  match xs with
  | [] => ret st
  | x :: rest => bind (body st x) (for_each rest body)
  end.

(** [vals.sample(n, random_state=random_state)]: with a seed the draw
    comes from a generator built for the call, without one it comes from
    the global generator, which moves on. *)
Definition sample (vals : list string) (n : nat) (random_state : option Z)
    : M (list string) :=
  λ g, match random_state with
       | Some seed =>
           let '(positions, _) := rng_choice (rng_seed seed) (length vals) n in
           (omap (λ i, vals !! i) positions, g)
       | None =>
           let '(positions, g') := rng_choice g (length vals) n in
           (omap (λ i, vals !! i) positions, g')
       end.

(** *** Low-level signal functions *)

(** [series.dropna().astype(str)] *)
Definition dropna_str (series : Series) : list string :=
  astype_str <$> omap id (s_values series).

(** [.unique()]: the distinct values in order of first appearance. *)
Fixpoint unique_from (seen_so_far : gset string) (l : list string) : list string :=
  match l with
  | [] => []
  | x :: rest =>
      if decide (x ∈ seen_so_far) then unique_from seen_so_far rest
      else x :: unique_from ({[x]} ∪ seen_so_far) rest
  end.

Definition unique (l : list string) : list string := unique_from ∅ l.

(** The first format of [FORMAT_PATTERNS] that at least 80% of the probe
    matches. *)
Definition probe_format (probe : list string) : option string :=
  fst <$> List.find
    (λ '(_, pat),
       F64.geb (F64.div (of_nat (length (List.filter (re_match pat) probe)))
                        (of_nat (length probe)))
               (F64.lit 80 100))
    FORMAT_PATTERNS.

Definition _format_fingerprint (series : Series) (sample_size : nat) : M (option string) :=
  let vals := dropna_str series in
  if bool_decide (length vals = 0%nat) then ret None
  else
    bind (sample vals (Nat.min sample_size (length vals)) (Some 42))
         (λ probe, ret (probe_format probe)).

Definition _value_overlap (vals1 vals2 : Series) : spec_float :=
  let s1 : gset string := list_to_set (take (Z.to_nat 50000) (unique (dropna_str vals1))) in
  let s2 : gset string := list_to_set (take (Z.to_nat 50000) (unique (dropna_str vals2))) in
  if bool_decide (s1 = ∅) then F64.zero
  else F64.div (of_nat (size (s1 ∩ s2))) (of_nat (size s1)).

Definition isna (series : Series) : list bool :=
  (λ v, match v with Some _ => false | None => true end) <$> s_values series.

Definition _null_pattern_correlation (df1 : DataFrame) (col1 : Series)
    (df2 : DataFrame) (col2 : Series) : spec_float :=
  if bool_decide (df_len df1 ≠ df_len df2) then F64.zero
  else null_mask_correlation (isna col1) (isna col2).

(** *** Flags *)

(** The truth value of [flags.get(k)]. *)
Definition flag (flags : gmap string bool) (k : string) : bool :=
  default false (flags !! k).

Definition _build_flags (method : string) (overrides : option (gmap string bool))
    : gmap string bool :=
  match overrides with
  | Some flags => flags
  | None =>
      let use_naming := str_in method ["naming"; "both"; "all"] in
      let use_content := str_in method ["content"; "both"; "all"; "uniqueness"] in
      list_to_map
        [ ("naming", use_naming);
          ("value_overlap", use_content);
          ("cardinality", use_content);
          ("format", use_content);
          ("distribution", use_content);
          ("null_pattern", use_content) ]
  end.

(** *** The candidate scorer ([_score_candidate]) *)

(** The locals [signals] and [reasons]. *)
Definition evidence : Type := list (string * spec_float) * list string.

(** [signals[k] = v] for a key that is not yet in [signals], followed by
    [reasons.append(reason)]. *)
Definition fire (k : string) (v : spec_float) (reason : string) (ev : evidence)
    : evidence :=
  (ev.1 ++ [(k, v)], ev.2 ++ [reason]).

(** 1. Naming *)
Definition naming_signal (flags : gmap string bool) (col1 t2 col2 : string)
    (ev : evidence) : evidence :=
  if flag flags "naming" then
    let c1 := clean_name col1 in
    let t2c := clean_name t2 in
    if is_fk_for c1 t2c then fire "naming_exact" F64.one "exact FK naming" ev
    else
      let stem1 := sim_stem c1 in
      let stem2 := sim_stem (clean_name col2) in
      let sim := _jaro_winkler stem1 stem2 in
      if F64.geb sim NAME_SIM_HIGH then
        fire "name_sim" sim ("name similarity " +:+ format_float ".2f" sim) ev
      else if F64.geb sim NAME_SIM_MED then
        fire "name_sim_weak" sim ("weak name similarity " +:+ format_float ".2f" sim) ev
      else ev
  else ev.

(** [len(df1) > 0 and len(df2) > 0] *)
Definition both_have_rows (df1 df2 : DataFrame) : bool :=
  (0 <? df_len df1)%nat && (0 <? df_len df2)%nat.

(** 3. Value overlap *)
Definition overlap_signal (flags : gmap string bool) (df1 : DataFrame) (col1 : Series)
    (df2 : DataFrame) (col2 : Series) (ev : evidence) : evidence :=
  if flag flags "value_overlap" && both_have_rows df1 df2 then
    let ov := _value_overlap col1 col2 in
    if F64.geb ov OVERLAP_HIGH then
      fire "overlap_high" ov ("value overlap " +:+ format_float ".0%" ov) ev
    else if F64.geb ov OVERLAP_MEDIUM then
      fire "overlap_medium" ov ("partial overlap " +:+ format_float ".0%" ov) ev
    else ev
  else ev.

(** 4. Cardinality *)
Definition cardinality_signal (flags : gmap string bool) (df1 : DataFrame) (col1 : Series)
    (df2 : DataFrame) (col2 : Series) (ev : evidence) : evidence :=
  if flag flags "cardinality" && both_have_rows df1 df2 then
    let u1 : gset string := list_to_set (dropna_str col1) in
    let u2 : gset string := list_to_set (dropna_str col2) in
    if bool_decide (u1 ≠ ∅ ∧ u2 ≠ ∅ ∧ u1 = u2) then
      fire "cardinality_match" F64.one "identical value sets" ev
    else ev
  else ev.

(** The truth value of an optional string. *)
Definition truthy (o : option string) : bool :=
  match o with
  | Some s => negb (String.eqb s "")
  | None => false
  end.

(** 5. Format fingerprint *)
Definition format_signal (flags : gmap string bool) (df1 : DataFrame) (col1 : Series)
    (df2 : DataFrame) (col2 : Series) (ev : evidence) : M evidence :=
  if flag flags "format" && both_have_rows df1 df2 then
    bind (_format_fingerprint col1 200) (λ fmt1,
    bind (_format_fingerprint col2 200) (λ fmt2,
    ret (if truthy fmt1 && truthy fmt2 && bool_decide (fmt1 = fmt2) then
           fire "format_match" (F64.lit 6 10)
                ("shared format [" +:+ default "" fmt1 +:+ "]") ev
         else ev)))
  else ret ev.

(** 6. Distribution similarity *)
Definition distribution_signal (flags : gmap string bool) (df1 : DataFrame) (col1 : Series)
    (df2 : DataFrame) (col2 : Series) (ev : evidence) : evidence :=
  if flag flags "distribution" && both_have_rows df1 df2 then
    let ds := _distribution_similarity col1 col2 in
    if F64.geb ds DIST_SIM_HIGH then
      fire "dist_high" ds ("distribution similarity " +:+ format_float ".2f" ds) ev
    else if F64.geb ds DIST_SIM_MED then
      fire "dist_med" ds ("weak distribution similarity " +:+ format_float ".2f" ds) ev
    else ev
  else ev.

(** 7. Null pattern correlation *)
Definition null_signal (flags : gmap string bool) (df1 : DataFrame) (col1 : Series)
    (df2 : DataFrame) (col2 : Series) (ev : evidence) : evidence :=
  if flag flags "null_pattern" && bool_decide (df_len df1 = df_len df2) then
    let nr := _null_pattern_correlation df1 col1 df2 col2 in
    if F64.geb nr (F64.lit 80 100) then
      fire "null_corr" nr ("null pattern corr " +:+ format_float ".2f" nr) ev
    else ev
  else ev.

(** [WEIGHT_MAP.get(k, 0.1)] *)
Definition weight (k : string) : spec_float := dict_get WEIGHT_MAP k (F64.lit 1 10).

(** The composite score of the fired keys, in the order of the dict:
    [round(min(1.0, 1.0 - math.prod(1.0 - w for each key)), 3)]. *)
Definition noisy_or (keys : list string) : spec_float :=
  F64.round
    (F64.min2 F64.one
       (F64.sub F64.one (F64.prod ((λ k, F64.sub F64.one (weight k)) <$> keys))))
    3.

(** The keys of [signals] in the order in which [_score_candidate] can
    insert them: naming, overlap, cardinality, format, distribution, null
    pattern. *)
Definition SIGNAL_ORDER : list string :=
  [ "naming_exact"; "name_sim"; "name_sim_weak"; "overlap_high"; "overlap_medium";
    "cardinality_match"; "format_match"; "dist_high"; "dist_med"; "null_corr" ].

(** All the lists obtained from a list by leaving elements out. *)
Fixpoint sublists {A} (l : list A) : list (list A) :=
  match l with
  | [] => [[]]
  | x :: rest => (cons x <$> sublists rest) ++ sublists rest
  end.

(** The composite score does not decrease from any of the given lists of
    keys with one key left out to the list itself. *)
Definition monotone_on (fired : list (list string)) : bool :=
  forallb (λ keys, forallb (λ i, F64.leb (noisy_or (delete i keys)) (noisy_or keys))
                           (seq 0 (length keys)))
          fired.

(** The list without the floats that repeat an earlier one. *)
Fixpoint dedupe (l : list spec_float) : list spec_float :=
  match l with
  | [] => []
  | x :: rest => x :: List.filter (λ y, negb (F64.identical x y)) (dedupe rest)
  end.

(** The scores that the scorer can give. *)
Definition ALL_SCORES : list spec_float := dedupe (noisy_or <$> sublists SIGNAL_ORDER).

(** On the given scores, [running > score + 0.05] holds exactly when the
    running value exceeds the score by more than 50 thousandths, and each
    score is the float of its value in thousandths. *)
Definition threshold_exact_on (scores : list spec_float) : bool :=
  forallb
    (λ score,
       F64.identical score (F64.lit (F64.thousandths score) 1000) &&
       forallb
         (λ running,
            Bool.eqb (F64.gtb running (F64.add score (F64.lit 5 100)))
                     (50 <? F64.thousandths running - F64.thousandths score))
         scores)
    scores.

(** [max(signals, key=weight)] from a first key on: a later key wins only
    with a greater weight. *)
Definition top_signal (first : string) (others : list string) : string :=
  foldl (λ top k, if F64.gtb (weight k) (weight top) then k else top) first others.

(** ["high" if score >= 0.85 else "medium" if score >= 0.55 else "low"] *)
Definition confidence_of (score : spec_float) : string :=
  if F64.geb score (F64.lit 85 100) then "high"
  else if F64.geb score (F64.lit 55 100) then "medium"
  else "low".

(** From [if not signals] to the returned dict. *)
Definition summarize (ev : evidence) : option Candidate.t :=
  match ev.1.*1 with
  | [] => None
  | first :: others =>
      let score := noisy_or (first :: others) in
      Some {| Candidate.signals := ev.1;
              Candidate.reasons := ev.2;
              Candidate.score := score;
              Candidate.confidence := confidence_of score;
              Candidate.detected_by :=
                dict_get LABEL_MAP (top_signal first others) "content" |}
  end.

Definition _score_candidate (t1 : string) (col1 : Series) (df1 : DataFrame)
    (t2 : string) (col2 : Series) (df2 : DataFrame) (flags : gmap string bool)
    : M (option Candidate.t) :=
  let ev := naming_signal flags (s_name col1) t2 (s_name col2) ([], []) in
  (* 2. Type compatibility guard *)
  if negb (String.eqb (_col_dtype_class col1) (_col_dtype_class col2)) then ret None
  else
    let ev := overlap_signal flags df1 col1 df2 col2 ev in
    let ev := cardinality_signal flags df1 col1 df2 col2 ev in
    bind (format_signal flags df1 col1 df2 col2 ev) (λ ev,
    let ev := distribution_signal flags df1 col1 df2 col2 ev in
    let ev := null_signal flags df1 col1 df2 col2 ev in
    ret (summarize ev)).

(** *** The pairwise search ([detect_fks]) *)

(** [CONF_RANK.get(c, dflt)] *)
Definition conf_rank (c : string) (dflt : Z) : Z := dict_get CONF_RANK c dflt.

(** [pk_map[t]] for the table [df]: the columns without null that are all
    unique, when the table has a row. *)
Definition pk_columns (df : DataFrame) : list Series :=
  List.filter (λ c, (0 <? df_len df)%nat && unique_not_null (df_len df) c)
              (df_columns df).

(** [re.search(r"(_id|_key|id$|key$)", s)] *)
Definition key_like_name (s : string) : bool :=
  contains "_id" s || contains "_key" s || re_search_at_end ["id"; "key"] s.

(** The loop [for col2 in target_cols]: the first candidate of the greatest
    score, with the name of its column. *)
Definition best_target (t1 : string) (col1 : Series) (df1 : DataFrame)
    (t2 : string) (df2 : DataFrame) (flags : gmap string bool)
    (target_cols : list Series) : M (option (Candidate.t * string)) :=
  for_each target_cols
    (λ best_so_far col2,
       bind (_score_candidate t1 col1 df1 t2 col2 df2 flags) (λ result,
       ret match result, best_so_far with
           | None, _ => best_so_far
           | Some r, None => Some (r, s_name col2)
           | Some r, Some (best_result, _) =>
               if F64.gtb (Candidate.score r) (Candidate.score best_result)
               then Some (r, s_name col2)
               else best_so_far
           end))
    None.

(** [target_cols] for the target table [df2]. *)
Definition target_columns (too_large : bool) (df2 : DataFrame) : list Series :=
  let target_cols :=
    match pk_columns df2 with
    | [] => df_columns df2
    | pks => pks
    end in
  if too_large then List.filter (λ c, key_like_name (clean_name (s_name c))) target_cols
  else target_cols.

Definition rel_key_of (t1 col1 t2 : string) : string :=
  t1 +:+ "|" +:+ col1 +:+ "|" +:+ t2.

Definition col_key_of (t1 col1 : string) : string := t1 +:+ "|" +:+ col1.

(** The dict appended to [results]. *)
Definition relationship_of (t1 col1 t2 best_to_col : string) (best_result : Candidate.t)
    : relationship :=
  {| from_table := t1;
     from_col := col1;
     to_table := t2;
     to_col := best_to_col;
     detected_by := Candidate.detected_by best_result;
     confidence := Candidate.confidence best_result;
     score := Candidate.score best_result;
     reasons := Candidate.reasons best_result;
     signals := Candidate.signals best_result |}.

(** From [if best_result is None] to [results.append]: the confidence
    filter, the near-best filter and the update of the three locals. *)
Definition consider (min_rank : Z) (t1 col1 t2 : string)
    (found : option (Candidate.t * string)) (st : search_state) : search_state :=
  match found with
  | None => st
  | Some (best_result, best_to_col) =>
      if conf_rank (Candidate.confidence best_result) 0 <? min_rank then st
      else
        let col_key := col_key_of t1 col1 in
        let skip :=
          match best st !! col_key with
          | Some running =>
              F64.gtb running (F64.add (Candidate.score best_result) (F64.lit 5 100))
          | None => false
          end in
        if skip then st
        else {| results := results st ++ [relationship_of t1 col1 t2 best_to_col best_result];
                seen := {[rel_key_of t1 col1 t2]} ∪ seen st;
                best := <[col_key := Candidate.score best_result]> (best st) |}
  end.

(** One turn of [for t2 in tnames]. *)
Definition scan_target (min_rank : Z) (flags : gmap string bool)
    (t1 : string) (df1 : DataFrame) (col1 : Series) (too_large : bool)
    (st : search_state) (entry2 : string * DataFrame) : M search_state :=
  let '(t2, df2) := entry2 in
  if String.eqb t2 t1 then ret st
  else if decide (rel_key_of t1 (s_name col1) t2 ∈ seen st) then ret st
  else
    bind (best_target t1 col1 df1 t2 df2 flags (target_columns too_large df2))
         (λ found, ret (consider min_rank t1 (s_name col1) t2 found st)).

(** One turn of [for col1 in df1.columns]. *)
Definition scan_column (tables : list (string * DataFrame)) (min_rank : Z)
    (flags : gmap string bool) (t1 : string) (df1 : DataFrame)
    (st : search_state) (col1 : Series) : M search_state :=
  if str_in (s_name col1) (s_name <$> pk_columns df1) then ret st
  else
    let too_large :=
      (150000 <? Z.of_nat (df_len df1)) || (300 <? Z.of_nat (length (df_columns df1))) in
    for_each tables (scan_target min_rank flags t1 df1 col1 too_large) st.

(** One turn of [for t1 in tnames]. *)
Definition scan_table (tables : list (string * DataFrame)) (min_rank : Z)
    (flags : gmap string bool) (st : search_state) (entry1 : string * DataFrame)
    : M search_state :=
  let '(t1, df1) := entry1 in
  if bool_decide (df_len df1 = 0%nat) && negb (flag flags "naming") then ret st
  else for_each (df_columns df1) (scan_column tables min_rank flags t1 df1) st.

(** The key [(-CONF_RANK.get(r["confidence"], 0), -r["score"])] of one
    dict is less than the key of another. *)
Definition sort_key_lt (a b : relationship) : bool :=
  let ra := - conf_rank (confidence a) 0 in
  let rb := - conf_rank (confidence b) 0 in
  if ra =? rb then F64.ltb (F64.neg (score a)) (F64.neg (score b))
  else ra <? rb.

(** [list.sort(key=...)] is stable: an element stays behind the elements
    before it whose key is not greater. *)
Fixpoint insert_sorted (x : relationship) (sorted : list relationship) : list relationship :=
  match sorted with
  | [] => [x]
  | y :: rest => if sort_key_lt y x then y :: insert_sorted x rest else x :: y :: rest
  end.

Definition sort_results (l : list relationship) : list relationship :=
  foldr insert_sorted [] l.

(** [tables] is the dict in insertion order; [tables[t]] for [t] in
    [tables.keys()] is the table paired with [t]. *)
Definition detect_fks (tables : list (string * DataFrame)) (method : string)
    (min_confidence : string) (enable_flags : option (gmap string bool))
    : M (list relationship) :=
  if String.eqb method "manual" || (length tables <? 2)%nat then ret []
  else
    let min_rank := conf_rank min_confidence 1 in
    let flags := _build_flags method enable_flags in
    bind (for_each tables (scan_table tables min_rank flags)
                   {| results := []; seen := ∅; best := ∅ |})
         (λ st, ret (sort_results (results st))).
End Engine.

(** ** The merge of the application (src/app.py) *)

Module App.

(** A relationship dict of the session: the four keys that every source
    sets, [to_col] being [None] for a schema that names no column, and the
    keys that only some sources set. *)
Record rel := {
  from_table : string;
  from_col : string;
  to_table : string;
  to_col : option string;
  detected_by : string;
  confidence : option string;
  score : option spec_float;
  reasons : option (list string);
  signals : option (list (string * spec_float))
}.

(** [(r["from_table"], r["from_col"], r["to_table"], r["to_col"])] *)
Definition key4 (r : rel) : string * string * string * option string :=
  (from_table r, from_col r, to_table r, to_col r).

(** [(r["from_table"], r["to_table"])] *)
Definition table_pair (r : rel) : string * string := (from_table r, to_table r).

Definition _schema_plus_db (schema_rels _db_rels : list rel) : list rel :=
  let _schema_keys : gset (string * string * string * option string) :=
    list_to_set (key4 <$> schema_rels) in
  schema_rels ++ List.filter (λ r, bool_decide (key4 r ∉ _schema_keys)) _db_rels.

Definition schema_pairs (declared : list rel) : gset (string * string) :=
  list_to_set (table_pair <$> declared).

Definition filtered_auto (auto_rels declared : list rel) : list rel :=
  List.filter (λ r, bool_decide (table_pair r ∉ schema_pairs declared)) auto_rels.

Definition all_rels (schema_rels _db_rels auto_rels manual_rels : list rel) : list rel :=
  let declared := _schema_plus_db schema_rels _db_rels in
  declared ++ filtered_auto auto_rels declared ++ manual_rels.

End App.

(** A dict of [detect_fks] as the session holds it. *)
Definition as_session_rel (r : relationship) : App.rel :=
  {| App.from_table := from_table r;
     App.from_col := from_col r;
     App.to_table := to_table r;
     App.to_col := Some (to_col r);
     App.detected_by := detected_by r;
     App.confidence := Some (confidence r);
     App.score := Some (score r);
     App.reasons := Some (reasons r);
     App.signals := Some (signals r) |}.

(** ** A runtime and tables for the examples *)

(** Strings render as themselves; no value matches a format pattern; the
    draw of [n] positions is the first [n] positions; the numpy and scipy
    measures are [0.0]. *)
Definition example_runtime : Runtime :=
  {| astype_str := λ v, match v with VStr s => s | _ => "" end;
     re_match := λ _ _, false;
     format_float := λ _ _, "";
     rng_state := nat;
     rng_seed := Z.to_nat;
     rng_choice := λ g _ n, (seq 0 n, S g);
     _distribution_similarity := λ _ _, F64.zero;
     null_mask_correlation := λ _ _, F64.zero |}.

Definition text_column (name : string) (values : list string) : Series :=
  {| s_name := name; s_dtype := object_; s_values := (λ s, Some (VStr s)) <$> values |}.

(** [orders(customer_id, amount)], where [customer_id] repeats a value. *)
Definition orders : DataFrame :=
  {| df_len := 3;
     df_columns :=
       [ text_column "customer_id" ["c1"; "c2"; "c1"];
         {| s_name := "amount"; s_dtype := int64;
            s_values := [Some (VInt 10); Some (VInt 20); Some (VInt 30)] |} ] |}.

(** [customers(name, customer_id, id)], where [customer_id] has a null. *)
Definition customers : DataFrame :=
  {| df_len := 3;
     df_columns :=
       [ text_column "name" ["ann"; "bob"; "cy"];
         {| s_name := "customer_id"; s_dtype := object_;
            s_values := [Some (VStr "c1"); None; Some (VStr "c1")] |};
         text_column "id" ["1"; "2"; "3"] ] |}.

(** A [customer_id] column of timestamps. *)
Definition stamped_customer_id : Series :=
  {| s_name := "customer_id"; s_dtype := datetime64;
     s_values := [Some (VStamp 1); Some (VStamp 2); Some (VStamp 3)] |}.

Definition customers_by_time : DataFrame :=
  {| df_len := 3; df_columns := [stamped_customer_id; text_column "name" ["ann"; "bob"; "cy"]] |}.

(** [customer(customer_id)], whose column is a key. *)
Definition customer : DataFrame :=
  {| df_len := 2; df_columns := [text_column "customer_id" ["c1"; "c2"]] |}.

(** Target tables for [orders.customer_id]: [clients.customer_no] has the
    stem of the source column, [buyers.custodian_id] a stem that is weakly
    similar to it; both hold the values of the source column. *)
Definition clients : DataFrame :=
  {| df_len := 3; df_columns := [text_column "customer_no" ["c1"; "c2"; "c3"]] |}.

Definition buyers : DataFrame :=
  {| df_len := 3; df_columns := [text_column "custodian_id" ["c1"; "c2"; "c4"]] |}.

Definition naming_and_overlap : gmap string bool :=
  {[ "naming" := true; "value_overlap" := true ]}.

Definition naming_only : gmap string bool := {[ "naming" := true ]}.

(** Relationships of a session: one declared in a schema file, one read
    from a database constraint, three inferred, one added by hand. *)
Definition session_rel (ft fc tt tc by_ : string) : App.rel :=
  {| App.from_table := ft; App.from_col := fc; App.to_table := tt;
     App.to_col := Some tc; App.detected_by := by_;
     App.confidence := None; App.score := None;
     App.reasons := None; App.signals := None |}.

Definition schema_orders_customers : App.rel :=
  session_rel "orders" "customer_id" "customers" "id" "schema".
Definition db_items_orders : App.rel :=
  session_rel "items" "order_id" "orders" "id" "schema".
Definition auto_orders_customers : App.rel :=
  session_rel "orders" "cust_ref" "customers" "ref" "value_overlap".
Definition auto_items_orders : App.rel :=
  session_rel "items" "order_no" "orders" "number" "name_similarity".
Definition auto_items_products : App.rel :=
  session_rel "items" "product_id" "products" "id" "naming".
Definition manual_orders_customers : App.rel :=
  session_rel "orders" "cust_ref" "customers" "ref" "manual".

(* ================================================================== *)
(** * Further definitions *)

(** ** The canonical form of a name *)

(** No underscore is next to an underscore. *)
Fixpoint no_adjacent_underscores (l : list ascii) : bool :=
  match l with
  | c :: rest =>
      match rest with
      | c' :: _ =>
          negb (Ascii.eqb c underscore && Ascii.eqb c' underscore) &&
          no_adjacent_underscores rest
      | [] => true
      end
  | [] => true
  end.

(** A name in canonical form: lower-case letters, digits and underscores
    only, no underscore next to another, none at either end. *)
Definition is_canonical (s : string) : bool :=
  forallb (λ c, is_lower_alnum c || Ascii.eqb c underscore) (chars s) &&
  no_adjacent_underscores (chars s) &&
  negb (bool_decide (head (chars s) = Some underscore)) &&
  negb (bool_decide (last (chars s) = Some underscore)).

(** ** Column names of a database table (src/db_connectors.py) *)

(** The class [[a-zA-Z0-9_]]. *)
Definition is_identifier_char (c : ascii) : bool :=
  let n := N_of_ascii c in
  (((97 <=? n) && (n <=? 122)) || ((65 <=? n) && (n <=? 90)) ||
   ((48 <=? n) && (n <=? 57)) || (n =? 95))%N.

(** [re.sub(r"[^a-zA-Z0-9_]", "_", str(c))] for a column name that is a
    string. *)
Definition sanitize_name (c : string) : string :=
  str_map (λ ch, if is_identifier_char ch then ch else underscore) c.

(** A name of ASCII characters.  On such a name [str.lower()] changes the
    letters [A] to [Z] and nothing else, as [lower_char] does; outside
    ASCII it also turns the Kelvin sign into [k] and the dotted capital I
    into [i] followed by a combining dot, which [lower_char] does not. *)
Definition is_ascii_name (s : string) : bool :=
  forallb (λ c, (N_of_ascii c <? 128)%N) (chars s).

(** [sanitize_columns]: the columns are renamed in place, nothing else
    changes.  Two names can become one name ([a b] and [a_b]); on a table
    where a name repeats, [df[c]] is no column and [detect_pks] raises when
    it reads values. *)
Definition sanitize_columns (df : DataFrame) : DataFrame :=
  {| df_len := df_len df;
     df_columns :=
       (λ col, {| s_name := sanitize_name (s_name col);
                  s_dtype := s_dtype col;
                  s_values := s_values col |}) <$> df_columns df |}.

(** The rule of [is_fk_for] as a proposition: the column is the table's
    canonical name followed by [_id], or a stem followed by [_id] where the
    table's canonical name starts with the stem. *)
Definition fk_naming_rule (col_clean t2_clean : string) : Prop :=
  col_clean = t2_clean +:+ "_id" ∨
  ∃ stem rest, col_clean = stem +:+ "_id" ∧ t2_clean = stem +:+ rest.

(** ** Checks over the lists of keys that the scorer can build *)

(** The keys after the naming keys, in the order of the scorer. *)
Definition CONTENT_ORDER : list string :=
  [ "overlap_high"; "overlap_medium"; "cardinality_match"; "format_match";
    "dist_high"; "dist_med"; "null_corr" ].

(** On the given lists of keys that are not empty, the composite score is
    at least 0.2 and at most 1.0. *)
Definition score_range_on (fired : list (list string)) : bool :=
  forallb
    (λ keys,
       match keys with
       | [] => true
       | _ => F64.leb (F64.lit 2 10) (noisy_or keys) && F64.leb (noisy_or keys) F64.one
       end)
    fired.

(** On the given lists of keys, the key that [top_signal] picks is a key of
    the list whose weight is greater than the weight of every other key of
    the list, and [LABEL_MAP] has a label for it that is not the default. *)
Definition top_signal_on (fired : list (list string)) : bool :=
  forallb
    (λ keys,
       match keys with
       | [] => true
       | first :: others =>
           let top := top_signal first others in
           str_in top keys &&
           forallb (λ k, String.eqb k top || F64.ltb (weight k) (weight top)) keys &&
           negb (String.eqb (dict_get LABEL_MAP top "content") "content") &&
           str_in (dict_get LABEL_MAP top "content") (LABEL_MAP.*2)
       end)
    fired.

(** On the given lists of keys put behind [naming_exact], the composite
    score is 1.0 and the key picked is [naming_exact]. *)
Definition exact_naming_decides_on (fired : list (list string)) : bool :=
  forallb
    (λ keys,
       F64.identical (noisy_or ("naming_exact" :: keys)) F64.one &&
       String.eqb (top_signal "naming_exact" keys) "naming_exact")
    fired.

(** The keys of the flags that [_score_candidate] reads. *)
Definition SIGNAL_FLAGS : list string :=
  [ "naming"; "value_overlap"; "cardinality"; "format"; "distribution"; "null_pattern" ].

Section MoreSearch.
Context `{Runtime}.

(** [too_large] for the source table [df1]. *)
Definition too_large_table (df1 : DataFrame) : bool :=
  (150000 <? Z.of_nat (df_len df1)) || (300 <? Z.of_nat (length (df_columns df1))).

(** A relationship comes from the tables: its source is a column of a table
    that is not among the key-like columns of the table, its target is one
    of the target columns of another table, and its evidence is a candidate
    that the scorer returns for the two columns, of a tier that passes the
    minimal rank. *)
Definition reported_from (tables : list (string * DataFrame)) (flags : gmap string bool)
    (min_rank : Z) (r : relationship) : Prop :=
  ∃ t1 df1 col1 t2 df2 col2 cand g,
    (t1, df1) ∈ tables ∧ col1 ∈ df_columns df1 ∧
    str_in (s_name col1) (s_name <$> pk_columns df1) = false ∧
    (t2, df2) ∈ tables ∧ t2 ≠ t1 ∧
    col2 ∈ target_columns (too_large_table df1) df2 ∧
    (_score_candidate t1 col1 df1 t2 col2 df2 flags g).1 = Some cand ∧
    min_rank ≤ conf_rank (Candidate.confidence cand) 0 ∧
    r = relationship_of t1 (s_name col1) t2 (s_name col2) cand.

End MoreSearch.

(** [f"{t1}|{col1}|{t2}"] of a relationship. *)
Definition rel_key (r : relationship) : string :=
  rel_key_of (from_table r) (from_col r) (to_table r).

(** The sort key of no element is less than the key of the element before
    it. *)
Fixpoint in_key_order (l : list relationship) : bool :=
  match l with
  | [] => true
  | a :: rest =>
      match rest with
      | [] => true
      | b :: _ => negb (sort_key_lt b a) && in_key_order rest
      end
  end.

(** [(r["from_table"], r["from_col"], r["to_table"])] *)
Definition endpoints3 (r : relationship) : string * string * string :=
  (from_table r, from_col r, to_table r).

(** The keys of the flags of the content signals. *)
Definition CONTENT_FLAGS : list string :=
  [ "value_overlap"; "cardinality"; "format"; "distribution"; "null_pattern" ].

(** The relationship from [orders.customer_id] to [customer.customer_id]
    that exact naming gives. *)
Definition orders_customer_rel : relationship :=
  {| from_table := "orders"; from_col := "customer_id";
     to_table := "customer"; to_col := "customer_id";
     detected_by := "naming"; confidence := "high"; score := F64.one;
     reasons := ["exact FK naming"];
     signals := [("naming_exact", F64.one)] |}.

(** [re.search(r"(_id|_key|_no|_num|_code)$", clean_name(c))] *)
Definition id_like_name (c : string) : bool :=
  re_search_at_end ["_id"; "_key"; "_no"; "_num"; "_code"] (clean_name c).

(** The keys that one step of the scorer can insert, step by step. *)
Definition SIGNAL_FAMILIES : list (list string) :=
  [ ["naming_exact"; "name_sim"; "name_sim_weak"];
    ["overlap_high"; "overlap_medium"];
    ["cardinality_match"];
    ["format_match"];
    ["dist_high"; "dist_med"];
    ["null_corr"] ].

(** No key, or one key of the family. *)
Definition at_most_one_of (family keys : list string) : Prop :=
  keys = [] ∨ ∃ k, k ∈ family ∧ keys = [k].

(** ** The turns of the search *)

(** The turns of [for t2 in tnames] that get past [if t2 == t1], in the
    order of the three loops: the source table, the source column and the
    target table of each. *)
Definition visits (tables : list (string * DataFrame)) (flags : gmap string bool)
    : list (string * DataFrame * Series * (string * DataFrame)) :=
  tables ≫= λ '(t1, df1),
    if bool_decide (df_len df1 = 0%nat) && negb (flag flags "naming") then []
    else
      df_columns df1 ≫= λ col1,
        if str_in (s_name col1) (s_name <$> pk_columns df1) then []
        else
          (λ entry2, (t1, df1, col1, entry2)) <$>
            List.filter (λ entry2 : string * DataFrame, negb (String.eqb entry2.1 t1)) tables.

(** [rel_key] of a turn. *)
Definition visit_key (v : string * DataFrame * Series * (string * DataFrame)) : string :=
  let '(t1, _, col1, (t2, _)) := v in rel_key_of t1 (s_name col1) t2.

Definition visited_keys (tables : list (string * DataFrame)) (flags : gmap string bool)
    : list string :=
  visit_key <$> visits tables flags.

(** The least score in thousandths of the tier of a rank. *)
Definition tier_floor (rank : Z) : Z :=
  if rank =? 2 then 850 else if rank =? 1 then 550 else 0.

(** On the given scores, the tier of a score has at least a rank exactly
    when the score in thousandths is at least the floor of the rank. *)
Definition tiers_exact_on (scores : list spec_float) : bool :=
  forallb
    (λ s, forallb
            (λ rank, Bool.eqb (rank <=? conf_rank (confidence_of s) 0)
                              (tier_floor rank <=? F64.thousandths s))
            [0; 1; 2])
    scores.

(** The running values of one source column in a search with a lower and
    in a search with a higher minimal rank: they are the same, or the
    lower search has accepted a candidate below the tier of the higher
    rank since, and then the running value of the higher search is less
    than 50 thousandths above the floor of that tier. *)
Definition best_rel (floor : Z) (running_lo running_hi : option spec_float) : Prop :=
  running_lo = running_hi ∨
  ∃ l, running_lo = Some l ∧ F64.thousandths l < floor ∧
       match running_hi with
       | Some h => F64.thousandths h < floor + 50
       | None => True
       end.

(** The states of the two searches after the same turns, whose keys are
    [keys]. *)
Definition sim_inv (rank_hi : Z) (keys : list string) (lo hi : search_state) : Prop :=
  results hi = filter (λ r, rank_hi ≤ conf_rank (confidence r) 0) (results lo) ∧
  (∀ k, k ∈ seen lo → k ∈ keys) ∧ (∀ k, k ∈ seen hi → k ∈ keys) ∧
  (∀ ck, best_rel (tier_floor rank_hi) (best lo !! ck) (best hi !! ck)) ∧
  (∀ ck s, best lo !! ck = Some s → s ∈ ALL_SCORES) ∧
  (∀ ck s, best hi !! ck = Some s → s ∈ ALL_SCORES).

(** ** Tables whose names hold the separator of the keys *)





(** A table as a database hands it over, with names that are no
    identifiers. *)
Definition exported_customers : DataFrame :=
  {| df_len := 2;
     df_columns := [ text_column "full name" ["ann"; "bob"];
                     text_column "customer-id" ["c1"; "c2"] ] |}.

(* ================================================================== *)
(** * Properties *)

(** ** Strings *)

Lemma chars_app (a b : string) : chars (a +:+ b) = chars a ++ chars b.
Proof. induction a as [|c a IH]; simpl; [done|]. unfold chars in *. simpl. by rewrite IH. Qed.

Lemma chars_inj (a b : string) : chars a = chars b → a = b.
Proof.
  intros E. rewrite <- (String.string_of_list_ascii_of_string a),
    <- (String.string_of_list_ascii_of_string b). unfold chars in E. by rewrite E.
Qed.

Lemma of_chars (s : string) : String.string_of_list_ascii (chars s) = s.
Proof. apply String.string_of_list_ascii_of_string. Qed.

Lemma String_eqb_true (a b : string) : String.eqb a b = true ↔ a = b.
Proof. apply String.eqb_eq. Qed.

Lemma endswith_spec (s suf : string) :
  endswith s suf = true ↔ ∃ p, s = p +:+ suf.
Proof.
  unfold endswith. rewrite bool_decide_eq_true. split.
  - intros [k E]. exists (String.string_of_list_ascii k). apply chars_inj.
    rewrite chars_app. unfold chars at 2.
    by rewrite String.list_ascii_of_string_of_list_ascii.
  - intros [p ->]. exists (chars p). apply chars_app.
Qed.

Lemma startswith_spec (s p : string) :
  startswith s p = true ↔ ∃ rest, s = p +:+ rest.
Proof.
  unfold startswith. rewrite bool_decide_eq_true. split.
  - intros [k E]. exists (String.string_of_list_ascii k). apply chars_inj.
    rewrite chars_app. unfold chars at 3.
    by rewrite String.list_ascii_of_string_of_list_ascii.
  - intros [rest ->]. exists (chars rest). apply chars_app.
Qed.

Lemma endswith_app (s suf : string) : endswith (s +:+ suf) suf = true.
Proof. apply endswith_spec. by exists s. Qed.

Lemma drop_end_app (s suf : string) (k : nat) :
  k = length (chars suf) → drop_end k (s +:+ suf) = s.
Proof.
  intros ->. unfold drop_end. rewrite chars_app, length_app.
  replace (length (chars s) + length (chars suf) - length (chars suf))%nat
    with (length (chars s)) by lia.
  rewrite take_app_length. apply of_chars.
Qed.

(** Two endings of one string: one ends the other. *)
Lemma endswith_unrelated (s a b : string) :
  ¬ chars a `suffix_of` chars b → ¬ chars b `suffix_of` chars a →
  endswith (s +:+ a) b = false.
Proof.
  intros Hab Hba. unfold endswith. apply bool_decide_eq_false. intros Hb.
  assert (Ha : chars a `suffix_of` chars (s +:+ a)).
  { exists (chars s). apply chars_app. }
  destruct (suffix_weak_total _ _ _ Ha Hb); tauto.
Qed.

Ltac unrelated :=
  apply endswith_unrelated;
  (eapply bool_decide_eq_false_1; vm_compute; reflexivity).

(** ** C7: the stems *)

Lemma sim_stem_strips (s suf : string) :
  suf ∈ STEM_SUFFIXES → sim_stem (s +:+ suf) = s.
Proof.
  intros Hin. unfold sim_stem, re_sub_at_end, STEM_SUFFIXES in *.
  assert (Hnl : endswith (s +:+ suf) (String newline EmptyString) = false).
  { repeat (apply elem_of_cons in Hin as [-> | Hin]); [unrelated ..|].
    by apply elem_of_nil in Hin. }
  rewrite Hnl. simpl.
  repeat (apply elem_of_cons in Hin as [-> | Hin]).
  - rewrite endswith_app. by apply drop_end_app.
  - replace (endswith (s +:+ "_key") "_id") with false by (symmetry; unrelated).
    rewrite endswith_app. by apply drop_end_app.
  - replace (endswith (s +:+ "_code") "_id") with false by (symmetry; unrelated).
    replace (endswith (s +:+ "_code") "_key") with false by (symmetry; unrelated).
    rewrite endswith_app. by apply drop_end_app.
  - replace (endswith (s +:+ "_num") "_id") with false by (symmetry; unrelated).
    replace (endswith (s +:+ "_num") "_key") with false by (symmetry; unrelated).
    replace (endswith (s +:+ "_num") "_code") with false by (symmetry; unrelated).
    rewrite endswith_app. by apply drop_end_app.
  - replace (endswith (s +:+ "_no") "_id") with false by (symmetry; unrelated).
    replace (endswith (s +:+ "_no") "_key") with false by (symmetry; unrelated).
    replace (endswith (s +:+ "_no") "_code") with false by (symmetry; unrelated).
    replace (endswith (s +:+ "_no") "_num") with false by (symmetry; unrelated).
    rewrite endswith_app. by apply drop_end_app.
  - by apply elem_of_nil in Hin.
Qed.

Lemma id_stem_strips_id (s : string) : id_stem (s +:+ "_id") = s.
Proof.
  unfold id_stem, re_sub_at_end.
  replace (endswith (s +:+ "_id") (String newline EmptyString)) with false
    by (symmetry; unrelated).
  simpl. rewrite endswith_app. by apply drop_end_app.
Qed.

Lemma id_stem_keeps_others (s suf : string) :
  suf ∈ ["_key"; "_code"; "_num"; "_no"] → id_stem (s +:+ suf) = s +:+ suf.
Proof.
  intros Hin. unfold id_stem, re_sub_at_end.
  repeat (apply elem_of_cons in Hin as [-> | Hin]); [..|by apply elem_of_nil in Hin].
  all: match goal with |- context [endswith ?x (String newline EmptyString)] =>
         replace (endswith x (String newline EmptyString)) with false
           by (symmetry; unrelated) end.
  all: simpl.
  all: match goal with |- context [endswith ?x "_id"] =>
         replace (endswith x "_id") with false by (symmetry; unrelated) end.
  all: reflexivity.
Qed.

(** C7, as the spec states it, fails on the stem helper of the Name
    Normalizer: [id_stem] leaves [customer_key] as it is, it does not map it
    to [customer]. *)
Lemma id_stem_customer_key_not_customer :
  id_stem "customer_key" = "customer_key" ∧ id_stem "customer_key" ≠ "customer".
Proof. split; [reflexivity | discriminate]. Qed.

(** C7, amended: the stem of the name-similarity signal, written inline in
    the Candidate Scorer, strips one trailing occurrence of any of [_id],
    [_key], [_code], [_num], [_no] (the stem of [customer_key] is [customer],
    the stem of [invoice_no] is [invoice], and of a doubled suffix only the
    last is removed); the helper [id_stem] of the Name Normalizer strips a
    trailing [_id] only and leaves the four other suffixes in place. *)
Theorem stems_strip_one_suffix :
  (∀ s suf, suf ∈ STEM_SUFFIXES → sim_stem (s +:+ suf) = s) ∧
  sim_stem "customer_key" = "customer" ∧
  sim_stem "invoice_no" = "invoice" ∧
  (∀ s, id_stem (s +:+ "_id") = s) ∧
  (∀ s suf, suf ∈ ["_key"; "_code"; "_num"; "_no"] → id_stem (s +:+ suf) = s +:+ suf).
Proof.
  split; [exact sim_stem_strips|].
  split; [reflexivity|]. split; [reflexivity|].
  split; [exact id_stem_strips_id | exact id_stem_keeps_others].
Qed.

(** Where the naming rules call [id_stem], on a name that ends in [_id],
    it is the stem of the similarity signal. *)
Lemma id_stem_is_sim_stem_on_id (c : string) :
  endswith c "_id" = true → id_stem c = sim_stem c.
Proof.
  intros [s ->]%endswith_spec. rewrite id_stem_strips_id.
  symmetry. apply sim_stem_strips. unfold STEM_SUFFIXES. set_solver.
Qed.

Lemma stems_strip_one_suffix_witness :
  sim_stem ("order_no" +:+ "_no") = "order_no" ∧
  id_stem ("customer" +:+ "_key") = "customer" +:+ "_key".
Proof.
  split.
  - apply (proj1 stems_strip_one_suffix). vm_compute. set_solver.
  - apply (proj2 (proj2 (proj2 (proj2 stems_strip_one_suffix)))). set_solver.
Defined.

(** ** C5: the primary-key detector *)

Lemma is_pk_name_spec (c t : string) :
  is_pk_name c t = true ↔
  c = "id" ∨ c = t +:+ "_id" ∨ ∃ stem rest, c = stem +:+ "_id" ∧ t = stem +:+ rest.
Proof.
  unfold is_pk_name.
  destruct (String.eqb c "id") eqn:E1.
  { apply String_eqb_true in E1. tauto. }
  destruct (String.eqb c (t +:+ "_id")) eqn:E2.
  { apply String_eqb_true in E2. tauto. }
  apply String.eqb_neq in E1, E2.
  destruct (endswith c "_id") eqn:E3; simpl.
  - apply endswith_spec in E3 as [stem ->]. rewrite id_stem_strips_id.
    destruct (startswith t stem) eqn:E4.
    + apply startswith_spec in E4 as [rest ->]. split; [|done].
      intros _. right. right. by exists stem, rest.
    + split; [done|]. intros [? | [? | (stem' & rest & Hc & ->)]]; [done..|].
      assert (stem' = stem) as ->.
      { apply chars_inj. apply (f_equal chars) in Hc. rewrite !chars_app in Hc.
        symmetry. by apply app_inv_tail in Hc. }
      assert (startswith (stem +:+ rest) stem = true) as Ht
        by (apply startswith_spec; by exists rest).
      congruence.
  - split; [done|]. intros [? | [? | (stem & rest & -> & _)]]; [done..|].
    by rewrite endswith_app in E3.
Qed.

Lemma find_first {A} (f : A → bool) (before after : list A) (x : A) :
  f x = true → (∀ y, y ∈ before → f y = false) →
  List.find f (before ++ x :: after) = Some x.
Proof.
  intros Hx. induction before as [|y before IH]; intros Hb; simpl.
  - by rewrite Hx.
  - rewrite (Hb y) by left. apply IH. intros z Hz. apply Hb. by right.
Qed.

Lemma detect_pks_length (df : DataFrame) (table_name method : string) :
  (length (detect_pks df table_name method) ≤ 1)%nat.
Proof.
  unfold detect_pks. repeat case_match; simpl; lia.
Qed.

(** C5: the detector returns at most one column; and when the mode is
    [naming] or [both] and a column follows the naming rule (canonical name
    [id], or the table's canonical name followed by [_id], or a stem followed
    by [_id] where the table's canonical name starts with the stem), the
    first such column in column order is the result, whatever its values. *)
Theorem detect_pks_at_most_one_naming_first
    (df : DataFrame) (table_name method : string) :
  (length (detect_pks df table_name method) ≤ 1)%nat ∧
  ∀ before col after,
    method = "naming" ∨ method = "both" →
    df_columns df = before ++ col :: after →
    pk_naming_rule (s_name col) table_name →
    (∀ c, c ∈ before → ¬ pk_naming_rule (s_name c) table_name) →
    detect_pks df table_name method = [s_name col].
Proof.
  split; [apply detect_pks_length|].
  intros before col after Hm Hcols Hcol Hbefore. unfold detect_pks.
  assert (str_in method ["naming"; "both"] = true) as -> by (by destruct Hm as [-> | ->]).
  rewrite Hcols.
  rewrite (find_first _ before after col); [done| |].
  - by apply is_pk_name_spec.
  - intros c Hc. apply not_true_is_false. intros Hpk.
    apply is_pk_name_spec in Hpk. by apply (Hbefore c).
Qed.

(** In [customers(name, customer_id, id)] the column [customer_id] holds a
    null and a repeated value and comes before [id]: it is the key. *)
Lemma detect_pks_at_most_one_naming_first_witness :
  detect_pks customers "Customers" "both" = ["customer_id"].
Proof.
  apply (proj2 (detect_pks_at_most_one_naming_first customers "Customers" "both")
               [text_column "name" ["ann"; "bob"; "cy"]]
               {| s_name := "customer_id"; s_dtype := object_;
                  s_values := [Some (VStr "c1"); None; Some (VStr "c1")] |}
               [text_column "id" ["1"; "2"; "3"]]).
  - by right.
  - reflexivity.
  - right. right. exists "customer", "s". split; reflexivity.
  - intros c Hc. apply list_elem_of_singleton in Hc as ->.
    intros Hr. apply is_pk_name_spec in Hr. vm_compute in Hr. discriminate Hr.
Defined.

(** ** The loops of [_jaro_winkler] stay inside the strings *)

Lemma count_set_insert (flags : list bool) (j : nat) :
  flags !! j = Some false → count_set (<[j:=true]> flags) = S (count_set flags).
Proof.
  revert j. induction flags as [|b flags IH]; intros [|j] Hj; simpl in *; try done.
  - by injection Hj as ->.
  - rewrite (IH j Hj). by destruct b.
Qed.

Lemma count_set_replicate (n : nat) : count_set (replicate n false) = 0%nat.
Proof. induction n; simpl; done. Qed.

Lemma find_match_unset c s2 s2_matches lo hi j :
  find_match c s2 s2_matches lo hi = Some j → s2_matches !! j = Some false.
Proof.
  unfold find_match. intros [_ Hj]%find_some.
  destruct (s2_matches !! j) as [[]|]; done.
Qed.

(** The invariant of the first loop before its turn [i]. *)
Lemma match_step_invariant (s1 s2 : list ascii) (d i : nat)
    (m1 m2 : list bool) (n : nat) :
  length m1 = length s1 → length m2 = length s2 →
  count_set m1 = n → count_set m2 = n →
  (∀ i', (i ≤ i')%nat → m1 !! i' ≠ Some true) →
  let '(m1', m2', n') := match_step s1 s2 d (m1, m2, n) i in
  length m1' = length s1 ∧ length m2' = length s2 ∧
  count_set m1' = n' ∧ count_set m2' = n' ∧
  (∀ i', (S i ≤ i')%nat → m1' !! i' ≠ Some true).
Proof.
  intros L1 L2 C1 C2 Hrest. unfold match_step.
  destruct (s1 !! i) as [c|] eqn:Hc.
  2: { repeat split; try done. intros i' Hi'. apply Hrest. lia. }
  destruct (find_match c s2 m2 _ _) as [j|] eqn:Hj.
  2: { repeat split; try done. intros i' Hi'. apply Hrest. lia. }
  apply find_match_unset in Hj.
  assert (m1 !! i = Some false) as Hi.
  { apply lookup_lt_Some in Hc. rewrite <- L1 in Hc.
    apply lookup_lt_is_Some in Hc as [b Hb]. destruct b; [|done].
    by destruct (Hrest i (le_n i)). }
  rewrite !length_insert, (count_set_insert _ _ Hi), (count_set_insert _ _ Hj).
  repeat split; try done; try congruence.
  intros i' Hi'. rewrite list_lookup_insert_ne by lia. apply Hrest. lia.
Qed.

Lemma jaro_matching_invariant_from (s1 s2 : list ascii) (d a n : nat)
    (st : list bool * list bool * nat) :
  length st.1.1 = length s1 → length st.1.2 = length s2 →
  count_set st.1.1 = st.2 → count_set st.1.2 = st.2 →
  (∀ i', (a ≤ i')%nat → st.1.1 !! i' ≠ Some true) →
  let st' := foldl (match_step s1 s2 d) st (seq a n) in
  length st'.1.1 = length s1 ∧ length st'.1.2 = length s2 ∧
  count_set st'.1.1 = count_set st'.1.2.
Proof.
  revert a st.
  induction n as [|n IH]; intros a [[m1 m2] k]; cbn [seq foldl fst snd];
    intros L1 L2 C1 C2 Hrest.
  - repeat split; congruence.
  - pose proof (match_step_invariant s1 s2 d a m1 m2 k L1 L2 C1 C2 Hrest) as Hstep.
    destruct (match_step s1 s2 d (m1, m2, k) a) as [[m1' m2'] k'].
    destruct Hstep as (L1' & L2' & C1' & C2' & Hrest').
    by apply (IH (S a) (m1', m2', k')).
Qed.

Lemma jaro_matching_invariant (s1 s2 : list ascii) :
  let st := jaro_matching s1 s2 in
  length st.1.1 = length s1 ∧ length st.1.2 = length s2 ∧
  count_set st.1.1 = count_set st.1.2.
Proof.
  unfold jaro_matching. apply jaro_matching_invariant_from; simpl.
  - apply length_replicate.
  - apply length_replicate.
  - apply count_set_replicate.
  - apply count_set_replicate.
  - intros i' _ Hi'. apply lookup_replicate in Hi' as [? _]. done.
Qed.

Lemma skip_unset_spec (flags : list bool) :
  (0 < count_set flags)%nat →
  (skip_unset flags < length flags)%nat ∧
  flags !! skip_unset flags = Some true ∧
  count_set (drop (S (skip_unset flags)) flags) = (count_set flags - 1)%nat.
Proof.
  induction flags as [|[] flags IH]; simpl; intros Hpos.
  - lia.
  - rewrite drop_0. repeat split; lia.
  - destruct (IH Hpos) as (? & ? & ?). repeat split; [lia | done | done].
Qed.

Lemma next_set_spec (flags : list bool) (k : nat) :
  (0 < count_set (drop k flags))%nat →
  (next_set flags k < length flags)%nat ∧
  flags !! next_set flags k = Some true ∧
  count_set (drop (S (next_set flags k)) flags) = (count_set (drop k flags) - 1)%nat.
Proof.
  intros Hpos. destruct (skip_unset_spec _ Hpos) as (Hlt & Hset & Hcount).
  unfold next_set. rewrite length_drop in Hlt. rewrite lookup_drop in Hset.
  rewrite drop_drop in Hcount.
  replace (k + S (skip_unset (drop k flags)))%nat
    with (S (k + skip_unset (drop k flags))) in Hcount by lia.
  repeat split; [lia | done | done].
Qed.

Lemma count_set_drop_S (flags : list bool) (i : nat) (b : bool) :
  flags !! i = Some b →
  count_set (drop i flags) = ((if b then 1 else 0) + count_set (drop (S i) flags))%nat.
Proof.
  revert i. induction flags as [|a flags IH]; intros [|i] Hi; simpl in *; try done.
  - injection Hi as ->. rewrite drop_0. by destruct b.
  - by apply IH.
Qed.

(** Before the turn [i] of the second loop as many set flags are left in
    [s2_matches] from [k] on as in [s1_matches] from [i] on. *)
Lemma transposition_invariant (s1 s2 : list ascii) (m1 m2 : list bool) (i : nat) :
  count_set m1 = count_set m2 → (i ≤ length m1)%nat →
  let st := foldl (transposition_step s1 s2 m1 m2) (0%nat, 0%nat) (seq 0 i) in
  count_set (drop i m1) = count_set (drop st.1 m2).
Proof.
  intros Hc. induction i as [|i IH]; intros Hi; [done|].
  rewrite seq_S, foldl_snoc. simpl.
  specialize (IH ltac:(lia)). simpl in IH.
  destruct (foldl _ _ (seq 0 i)) as [k t]. simpl in IH.
  unfold transposition_step.
  destruct (lookup_lt_is_Some_2 m1 i ltac:(lia)) as [b Hb].
  rewrite Hb. pose proof (count_set_drop_S _ _ _ Hb) as Hd.
  destruct b; simpl; [|lia].
  destruct (next_set_spec m2 k ltac:(lia)) as (_ & _ & Hn). lia.
Qed.

(** In a turn of the second loop for a matched position of [s1], the scan
    [while not s2_matches[k]] ends on a set flag inside [s2]. *)
Lemma jaro_scan_in_range (s1 s2 : list ascii) (i : nat) :
  let st := jaro_matching s1 s2 in
  let k := (foldl (transposition_step s1 s2 st.1.1 st.1.2) (0%nat, 0%nat) (seq 0 i)).1 in
  st.1.1 !! i = Some true →
  (next_set st.1.2 k < length s2)%nat ∧ st.1.2 !! next_set st.1.2 k = Some true.
Proof.
  intros st k Hi. destruct (jaro_matching_invariant s1 s2) as (L1 & L2 & Hc).
  fold st in L1, L2, Hc.
  pose proof (transposition_invariant s1 s2 st.1.1 st.1.2 i Hc) as Hinv.
  simpl in Hinv. fold k in Hinv.
  assert (i < length st.1.1)%nat as Hlt by (by apply lookup_lt_Some in Hi).
  specialize (Hinv ltac:(lia)).
  rewrite (count_set_drop_S _ _ _ Hi) in Hinv.
  destruct (next_set_spec st.1.2 k ltac:(lia)) as (Hk & Hset & _).
  rewrite <- L2. done.
Qed.

(** ** C8: the prefix of the Winkler adjustment *)

(** For strings that differ, are not empty and have a match, the value of
    [_jaro_winkler] is the Jaro similarity with the adjustment
    [prefix * 0.1 * (1 - jaro)], where [prefix] is [winkler_prefix]. *)
Lemma _jaro_winkler_adjustment (s1 s2 : string) :
  s1 ≠ s2 → s1 ≠ "" → s2 ≠ "" → (jaro_matching (chars s1) (chars s2)).2 ≠ 0%nat →
  _jaro_winkler s1 s2
    = winkler_boost (jaro_of (chars s1) (chars s2)) (winkler_prefix (chars s1) (chars s2)).
Proof.
  intros Hne H1 H2 Hm. unfold _jaro_winkler, jaro_of.
  apply String.eqb_neq in Hne. rewrite Hne.
  rewrite bool_decide_eq_false_2.
  2: { intros [E | E]; apply length_zero_iff_nil in E.
       - apply H1, chars_inj. by rewrite E.
       - apply H2, chars_inj. by rewrite E. }
  destruct (jaro_matching (chars s1) (chars s2)) as [[m1 m2] n]. simpl in Hm.
  by rewrite bool_decide_eq_false_2.
Qed.

(** C8 at the names [date] and [rate]: the two strings agree at no leading
    position, so the common prefix of the standard definition has length 0
    and the adjustment is zero; [_jaro_winkler] counts the three later
    positions where the strings agree and adds [3 * 0.1 * (1 - jaro)], which
    lifts the similarity from below [NAME_SIM_HIGH] to above it. *)
Theorem jaro_winkler_date_rate :
  let s1 := chars "date" in
  let s2 := chars "rate" in
  let jaro := jaro_of s1 s2 in
  standard_prefix s1 s2 = 0%nat ∧
  winkler_prefix s1 s2 = 3%nat ∧
  _jaro_winkler "date" "rate" = winkler_boost jaro 3 ∧
  _jaro_winkler "date" "rate" ≠ winkler_boost jaro (standard_prefix s1 s2) ∧
  F64.geb (_jaro_winkler "date" "rate") NAME_SIM_HIGH = true ∧
  F64.geb (winkler_boost jaro (standard_prefix s1 s2)) NAME_SIM_HIGH = false.
Proof. vm_compute. repeat split; discriminate. Qed.

(** ** C2: the merge of declared, inferred and manual relationships *)

Lemma elem_of_List_filter {A} (f : A → bool) (l : list A) (x : A) :
  x ∈ List.filter f l ↔ x ∈ l ∧ f x = true.
Proof. rewrite !list_elem_of_In. apply filter_In. Qed.

Lemma List_filter_sublist {A} (f : A → bool) (l : list A) :
  List.filter f l `sublist_of` l.
Proof.
  induction l as [|x l IH]; simpl; [done|].
  destruct (f x); [by apply sublist_skip | by apply sublist_cons].
Qed.

Lemma schema_pairs_cover_declared (schema_rels _db_rels : list App.rel) (d : App.rel) :
  d ∈ schema_rels ++ _db_rels →
  App.table_pair d ∈ App.schema_pairs (App._schema_plus_db schema_rels _db_rels).
Proof.
  unfold App.schema_pairs, App._schema_plus_db. rewrite elem_of_list_to_set.
  rewrite fmap_app, !elem_of_app. intros [Hs | Hd].
  - left. by apply list_elem_of_fmap_2.
  - destruct (decide (App.key4 d ∈ App.key4 <$> schema_rels)) as [Hk | Hk].
    + left. apply list_elem_of_fmap in Hk as (d' & Hk & Hd').
      apply list_elem_of_fmap. exists d'. split; [|done].
      unfold App.table_pair. unfold App.key4 in Hk. by injection Hk as -> _ -> _.
    + right. apply list_elem_of_fmap_2. apply elem_of_List_filter. split; [done|].
      apply bool_decide_eq_true. by rewrite elem_of_list_to_set.
Qed.

Lemma schema_pairs_only_declared (schema_rels _db_rels : list App.rel) (p : string * string) :
  p ∈ App.schema_pairs (App._schema_plus_db schema_rels _db_rels) →
  ∃ d, d ∈ schema_rels ++ _db_rels ∧ App.table_pair d = p.
Proof.
  unfold App.schema_pairs, App._schema_plus_db. rewrite elem_of_list_to_set.
  intros (d & -> & Hd)%list_elem_of_fmap. exists d. split; [|done].
  apply elem_of_app in Hd as [Hd | Hd]; apply elem_of_app; [by left|right].
  by apply elem_of_List_filter in Hd as [Hd _].
Qed.

(** C2: the merged list is the declared relationships (those of the schema
    file, then those of the database constraints that do not repeat a schema
    relationship on its four keys), then the surviving inferred
    relationships, then all the manual ones; an inferred relationship
    survives exactly when no declared relationship, of the schema file or of
    the database, has its (source table, target table) pair, whatever the
    columns; the survivors keep their order. *)
Theorem merge_declared_pairs_override
    (schema_rels _db_rels auto_rels manual_rels : list App.rel) :
  let declared := App._schema_plus_db schema_rels _db_rels in
  let survivors := App.filtered_auto auto_rels declared in
  App.all_rels schema_rels _db_rels auto_rels manual_rels
    = declared ++ survivors ++ manual_rels ∧
  declared `sublist_of` schema_rels ++ _db_rels ∧
  (∀ d, d ∈ schema_rels ++ _db_rels → ∃ d', d' ∈ declared ∧ App.key4 d' = App.key4 d) ∧
  survivors `sublist_of` auto_rels ∧
  (∀ r, r ∈ survivors ↔
        r ∈ auto_rels ∧
        ∀ d, d ∈ schema_rels ++ _db_rels → App.table_pair d ≠ App.table_pair r).
Proof.
  intros declared survivors. split; [reflexivity|].
  split. { apply sublist_app; [done | apply List_filter_sublist]. }
  split.
  { intros d [Hs | Hd]%elem_of_app.
    - exists d. split; [|done]. apply elem_of_app. by left.
    - destruct (decide (App.key4 d ∈ App.key4 <$> schema_rels)) as [Hk | Hk].
      + apply list_elem_of_fmap in Hk as (d' & Hk & Hd').
        exists d'. split; [|done]. apply elem_of_app. by left.
      + exists d. split; [|done]. apply elem_of_app. right.
        apply elem_of_List_filter. split; [done|].
        apply bool_decide_eq_true. by rewrite elem_of_list_to_set. }
  split. { apply List_filter_sublist. }
  intros r. unfold survivors, App.filtered_auto. rewrite elem_of_List_filter.
  rewrite bool_decide_eq_true. split.
  - intros [Hr Hp]. split; [done|]. intros d Hd E. apply Hp. rewrite <- E.
    by apply schema_pairs_cover_declared.
  - intros [Hr Hp]. split; [done|]. intros Hin.
    apply schema_pairs_only_declared in Hin as (d & Hd & E). by apply (Hp d).
Qed.

(** With [orders → customers] declared in the schema and [items → orders]
    declared by a database constraint, the inferred relationships of these
    two pairs are dropped, on other columns though they are; the inferred
    [items → products] and the manual [orders → customers] stay. *)
Lemma merge_declared_pairs_override_witness :
  App.all_rels [schema_orders_customers] [db_items_orders]
               [auto_orders_customers; auto_items_orders; auto_items_products]
               [manual_orders_customers]
    = [schema_orders_customers; db_items_orders; auto_items_products;
       manual_orders_customers] ∧
  auto_orders_customers ∉
    App.filtered_auto [auto_orders_customers; auto_items_orders; auto_items_products]
                      (App._schema_plus_db [schema_orders_customers] [db_items_orders]).
Proof.
  pose proof (merge_declared_pairs_override [schema_orders_customers] [db_items_orders]
    [auto_orders_customers; auto_items_orders; auto_items_products]
    [manual_orders_customers]) as (Hall & _ & _ & _ & Hsurv).
  split.
  - rewrite Hall. vm_compute. reflexivity.
  - intros Hin. apply Hsurv in Hin as [_ Hp].
    apply (Hp schema_orders_customers); [|reflexivity].
    apply elem_of_app. left. apply list_elem_of_singleton. reflexivity.
Defined.

(** ** C3: the noisy-OR score does not decrease with one more signal *)

Lemma sublist_in_sublists {A} (l1 l2 : list A) :
  l1 `sublist_of` l2 → l1 ∈ sublists l2.
Proof.
  induction 1 as [|x l1 l2 _ IH|x l1 l2 _ IH]; simpl.
  - by left.
  - apply elem_of_app. left. by apply list_elem_of_fmap_2.
  - apply elem_of_app. by right.
Qed.

Lemma monotone_on_signal_order : monotone_on (sublists SIGNAL_ORDER) = true.
Proof. vm_compute. reflexivity. Qed.

Lemma delete_middle {A} (before after : list A) (x : A) :
  delete (length before) (before ++ x :: after) = before ++ after.
Proof. induction before as [|y before IH]; simpl; [done|]. by rewrite IH. Qed.

Lemma monotone_on_spec (fired : list (list string)) (keys : list string) (i : nat) :
  monotone_on fired = true → keys ∈ fired → (i < length keys)%nat →
  F64.leb (noisy_or (delete i keys)) (noisy_or keys) = true.
Proof.
  unfold monotone_on. rewrite forallb_forall. intros Hall Hin Hi.
  apply list_elem_of_In in Hin. specialize (Hall keys Hin).
  rewrite forallb_forall in Hall. apply Hall. apply in_seq. lia.
Qed.

(** C3: for every list of fired keys that the scorer can build (the keys in
    the order in which the scorer inserts them) and every key [s] of it, the
    composite score with [s] is greater than or equal to the composite score
    of the other keys alone. *)
Theorem noisy_or_monotone (before after : list string) (s : string) :
  before ++ s :: after `sublist_of` SIGNAL_ORDER →
  F64.leb (noisy_or (before ++ after)) (noisy_or (before ++ s :: after)) = true.
Proof.
  intros Hsub. rewrite <- (delete_middle before after s).
  apply (monotone_on_spec (sublists SIGNAL_ORDER)).
  - exact monotone_on_signal_order.
  - by apply sublist_in_sublists.
  - rewrite length_app. simpl. lia.
Qed.

(** A weak name similarity and a null-pattern correlation score 0.4; with a
    format match between them the score is 0.64. *)
Lemma noisy_or_monotone_witness :
  F64.leb (noisy_or ["name_sim_weak"; "null_corr"])
          (noisy_or ["name_sim_weak"; "format_match"; "null_corr"]) = true.
Proof.
  apply (noisy_or_monotone ["name_sim_weak"] ["null_corr"] "format_match").
  repeat first [apply sublist_nil | apply sublist_skip | apply sublist_cons].
Defined.

(** ** The threshold of the near-best filter on the scores of the scorer *)

Lemma identical_eq (x y : spec_float) : F64.identical x y = true → x = y.
Proof.
  destruct x as [s|s| |s m e], y as [s'|s'| |s' m' e']; simpl; try done.
  - by intros ->%Bool.eqb_prop.
  - by intros ->%Bool.eqb_prop.
  - intros [[->%Bool.eqb_prop ->%Pos.eqb_eq]%andb_prop ->%Z.eqb_eq]%andb_prop. done.
Qed.

Lemma elem_of_dedupe (l : list spec_float) (x : spec_float) :
  x ∈ l → x ∈ dedupe l.
Proof.
  induction l as [|a l IH]; [done|]. simpl.
  intros [-> | Hx]%elem_of_cons; [by left|].
  destruct (F64.identical a x) eqn:E.
  - apply identical_eq in E as ->. by left.
  - right. apply elem_of_List_filter. split; [by apply IH | by rewrite E].
Qed.

Lemma threshold_exact_on_all_scores : threshold_exact_on ALL_SCORES = true.
Proof. vm_compute. reflexivity. Qed.

Lemma threshold_exact_on_spec (scores : list spec_float) (score running : spec_float) :
  threshold_exact_on scores = true → score ∈ scores → running ∈ scores →
  score = F64.lit (F64.thousandths score) 1000 ∧
  F64.gtb running (F64.add score (F64.lit 5 100))
    = (50 <? F64.thousandths running - F64.thousandths score).
Proof.
  unfold threshold_exact_on. rewrite forallb_forall. intros Hall Hs Hr.
  apply list_elem_of_In in Hs, Hr.
  specialize (Hall score Hs). apply andb_prop in Hall as [Hid Hall].
  rewrite forallb_forall in Hall. specialize (Hall running Hr).
  split; [by apply identical_eq | by apply Bool.eqb_prop].
Qed.

(** For the scores of two lists of keys that the scorer can build, the
    comparison [running > score + 0.05] of the search, made on floats, is
    the comparison of the decimals: the running value exceeds the score by
    more than 50 thousandths. *)
Lemma near_best_threshold_in_thousandths (keys keys' : list string) :
  keys `sublist_of` SIGNAL_ORDER → keys' `sublist_of` SIGNAL_ORDER →
  let score := noisy_or keys in
  let running := noisy_or keys' in
  score = F64.lit (F64.thousandths score) 1000 ∧
  F64.gtb running (F64.add score (F64.lit 5 100))
    = (50 <? F64.thousandths running - F64.thousandths score).
Proof.
  intros Hk Hk' score running.
  apply (threshold_exact_on_spec ALL_SCORES).
  - exact threshold_exact_on_all_scores.
  - apply elem_of_dedupe, list_elem_of_fmap_2. by apply sublist_in_sublists.
  - apply elem_of_dedupe, list_elem_of_fmap_2. by apply sublist_in_sublists.
Qed.

(** ** The keys of the search *)

Lemma split_at_first {A} (x : A) (l1 l2 k1 k2 : list A) :
  x ∉ l1 → x ∉ l2 → l1 ++ x :: k1 = l2 ++ x :: k2 → l1 = l2 ∧ k1 = k2.
Proof.
  revert l2. induction l1 as [|a l1 IH]; intros [|b l2] H1 H2 E; simpl in E.
  - by injection E as ->.
  - injection E as -> _. exfalso. apply H2. by left.
  - injection E as -> _. exfalso. apply H1. by left.
  - injection E as -> E. apply not_elem_of_cons in H1 as [_ H1], H2 as [_ H2].
    destruct (IH l2 H1 H2 E) as [-> ->]. done.
Qed.

(** The key of the running value names one source column, as long as no
    table name holds the separator. *)
Lemma col_key_of_inj (t c t' c' : string) :
  "|"%char ∉ chars t → "|"%char ∉ chars t' →
  col_key_of t c = col_key_of t' c' → t = t' ∧ c = c'.
Proof.
  intros Ht Ht' E. apply (f_equal chars) in E. unfold col_key_of in E.
  rewrite !chars_app in E. change (chars "|") with ["|"%char] in E. simpl in E.
  apply split_at_first in E as [E1 E2]; [|done..].
  split; by apply chars_inj.
Qed.

Lemma col_key_of_same_table (t c c' : string) :
  col_key_of t c = col_key_of t c' → c = c'.
Proof.
  intros E. apply (f_equal chars) in E. unfold col_key_of in E.
  rewrite !chars_app in E. apply app_inv_head in E.
  rewrite <- !chars_app in E. apply chars_inj in E.
  simpl in E. by injection E.
Qed.

(** ** The engine and the global random generator *)

Section EngineProperties.
Context `{Runtime}.

Lemma stateless_ret {A} (a : A) : stateless (ret a).
Proof. by exists a. Qed.

Lemma stateless_bind {A B} (m : M A) (k : A → M B) :
  stateless m → (∀ a, stateless (k a)) → stateless (bind m k).
Proof.
  intros [a Ha] Hk. destruct (Hk a) as [b Hb]. exists b. intros g.
  unfold bind. by rewrite Ha, Hb.
Qed.

Lemma stateless_for_each {A S} (xs : list A) (body : S → A → M S) (st : S) :
  (∀ st x, stateless (body st x)) → stateless (for_each xs body st).
Proof.
  intros Hbody. revert st. induction xs as [|x xs IH]; intros st; simpl.
  - apply stateless_ret.
  - apply stateless_bind; [apply Hbody | apply IH].
Qed.

(** A draw with a seed of its own leaves the global generator alone. *)
Lemma stateless_sample_seeded (vals : list string) (n : nat) (seed : Z) :
  stateless (sample vals n (Some seed)).
Proof.
  exists (omap (λ i, vals !! i) (rng_choice (rng_seed seed) (length vals) n).1).
  intros g. unfold sample. by destruct (rng_choice _ _ _).
Qed.

Lemma stateless_format_fingerprint (series : Series) (sample_size : nat) :
  stateless (_format_fingerprint series sample_size).
Proof.
  unfold _format_fingerprint. case_bool_decide; [apply stateless_ret|].
  apply stateless_bind; [apply stateless_sample_seeded|].
  intros probe. apply stateless_ret.
Qed.

Lemma stateless_format_signal flags df1 col1 df2 col2 ev :
  stateless (format_signal flags df1 col1 df2 col2 ev).
Proof.
  unfold format_signal. destruct (_ && _); [|apply stateless_ret].
  apply stateless_bind; [apply stateless_format_fingerprint|]. intros fmt1.
  apply stateless_bind; [apply stateless_format_fingerprint|]. intros fmt2.
  apply stateless_ret.
Qed.

Lemma stateless_score_candidate t1 col1 df1 t2 col2 df2 flags :
  stateless (_score_candidate t1 col1 df1 t2 col2 df2 flags).
Proof.
  unfold _score_candidate. destruct (negb _); [apply stateless_ret|].
  apply stateless_bind; [apply stateless_format_signal|]. intros ev.
  apply stateless_ret.
Qed.

Lemma stateless_best_target t1 col1 df1 t2 df2 flags target_cols :
  stateless (best_target t1 col1 df1 t2 df2 flags target_cols).
Proof.
  unfold best_target. apply stateless_for_each. intros b col2.
  apply stateless_bind; [apply stateless_score_candidate|]. intros r.
  apply stateless_ret.
Qed.

Lemma stateless_scan_target min_rank flags t1 df1 col1 too_large st entry2 :
  stateless (scan_target min_rank flags t1 df1 col1 too_large st entry2).
Proof.
  unfold scan_target. destruct entry2 as [t2 df2].
  destruct (String.eqb t2 t1); [apply stateless_ret|].
  case_decide; [apply stateless_ret|].
  apply stateless_bind; [apply stateless_best_target|]. intros found.
  apply stateless_ret.
Qed.

Lemma stateless_scan_column tables min_rank flags t1 df1 st col1 :
  stateless (scan_column tables min_rank flags t1 df1 st col1).
Proof.
  unfold scan_column. destruct (str_in _ _); [apply stateless_ret|].
  apply stateless_for_each. intros st' e. apply stateless_scan_target.
Qed.

Lemma stateless_scan_table tables min_rank flags st entry1 :
  stateless (scan_table tables min_rank flags st entry1).
Proof.
  unfold scan_table. destruct entry1 as [t1 df1].
  destruct (_ && _); [apply stateless_ret|].
  apply stateless_for_each. intros st' c. apply stateless_scan_column.
Qed.

Lemma stateless_detect_fks tables method min_confidence enable_flags :
  stateless (detect_fks tables method min_confidence enable_flags).
Proof.
  unfold detect_fks. destruct (_ || _); [apply stateless_ret|].
  apply stateless_bind.
  - apply stateless_for_each. intros st e. apply stateless_scan_table.
  - intros st. apply stateless_ret.
Qed.

(** ** C4: determinism *)

(** C4: two calls of [detect_fks] on the same tables, method, minimal
    confidence and flags, the second made in the state that the first
    leaves, return the same ordered list; the list is the same from any
    state of the global random generator, which the call does not move:
    the sample of the format fingerprint is drawn with the seed 42. *)
Theorem detect_fks_deterministic
    (tables : list (string * DataFrame)) (method min_confidence : string)
    (enable_flags : option (gmap string bool)) (g : rng_state) :
  let first := detect_fks tables method min_confidence enable_flags g in
  let second := detect_fks tables method min_confidence enable_flags first.2 in
  first.1 = second.1 ∧
  first.2 = g ∧
  ∀ g', (detect_fks tables method min_confidence enable_flags g').1 = first.1.
Proof.
  destruct (stateless_detect_fks tables method min_confidence enable_flags) as [l Hl].
  intros first second. unfold second, first. rewrite !Hl. simpl.
  repeat split. intros g'. by rewrite Hl.
Qed.

(** ** C1: the type gate *)

(** C1: when the type classes of the two columns differ, the scorer
    returns none, whatever the names, the flags and the values are. *)
Theorem score_candidate_type_gate
    (t1 : string) (col1 : Series) (df1 : DataFrame)
    (t2 : string) (col2 : Series) (df2 : DataFrame)
    (flags : gmap string bool) (g : rng_state) :
  _col_dtype_class col1 ≠ _col_dtype_class col2 →
  _score_candidate t1 col1 df1 t2 col2 df2 flags g = (None, g).
Proof.
  intros Hne. unfold _score_candidate.
  destruct (String.eqb _ _) eqn:E; [|done].
  by apply String_eqb_true in E.
Qed.

(** ** C9: the confidence tier *)

Lemma score_candidate_cases t1 col1 df1 t2 col2 df2 flags g :
  (_score_candidate t1 col1 df1 t2 col2 df2 flags g).1 = None ∨
  ∃ ev, (_score_candidate t1 col1 df1 t2 col2 df2 flags g).1 = summarize ev.
Proof.
  unfold _score_candidate. destruct (negb _); [by left|]. right.
  unfold bind. destruct (format_signal _ _ _ _ _ _ g) as [ev g']. simpl.
  by eexists.
Qed.

Lemma summarize_confidence (ev : evidence) (cand : Candidate.t) :
  summarize ev = Some cand →
  Candidate.confidence cand = confidence_of (Candidate.score cand) ∧
  Candidate.score cand = noisy_or ev.1.*1.
Proof.
  unfold summarize. destruct (ev.1.*1) as [|k ks]; [done|].
  intros [= <-]. done.
Qed.

(** C9: the tier of a candidate is [confidence_of] of its score, and
    [confidence_of] is ["high"] from 0.85 on, 0.85 included, ["medium"]
    from 0.55 on and below 0.85, 0.55 included, and ["low"] otherwise. *)
Theorem confidence_is_tier_of_score
    (t1 : string) (col1 : Series) (df1 : DataFrame)
    (t2 : string) (col2 : Series) (df2 : DataFrame)
    (flags : gmap string bool) (g : rng_state) (cand : Candidate.t) :
  (_score_candidate t1 col1 df1 t2 col2 df2 flags g).1 = Some cand →
  Candidate.confidence cand = confidence_of (Candidate.score cand) ∧
  (∀ s, F64.geb s (F64.lit 85 100) = true → confidence_of s = "high") ∧
  (∀ s, F64.geb s (F64.lit 85 100) = false → F64.geb s (F64.lit 55 100) = true →
        confidence_of s = "medium") ∧
  (∀ s, F64.geb s (F64.lit 85 100) = false → F64.geb s (F64.lit 55 100) = false →
        confidence_of s = "low") ∧
  confidence_of (F64.lit 85 100) = "high" ∧
  confidence_of (F64.lit 55 100) = "medium".
Proof.
  intros Hc. split.
  - destruct (score_candidate_cases t1 col1 df1 t2 col2 df2 flags g) as [E | [ev E]];
      rewrite E in Hc; [done|]. by apply summarize_confidence in Hc as [? _].
  - unfold confidence_of. repeat split.
    + by intros s ->.
    + by intros s -> ->.
    + by intros s -> ->.
Qed.

(** ** C10: an unknown minimal confidence *)

(** C10: for a [min_confidence] that is none of ["low"], ["medium"],
    ["high"], [detect_fks] is the computation that it is for ["medium"]. *)
Theorem detect_fks_unknown_min_confidence
    (tables : list (string * DataFrame)) (method min_confidence : string)
    (enable_flags : option (gmap string bool)) :
  min_confidence ≠ "low" → min_confidence ≠ "medium" → min_confidence ≠ "high" →
  detect_fks tables method min_confidence enable_flags
    = detect_fks tables method "medium" enable_flags.
Proof.
  intros Hl Hm Hh. unfold detect_fks.
  assert (conf_rank min_confidence 1 = conf_rank "medium" 1) as ->; [|done].
  unfold conf_rank, CONF_RANK. simpl.
  apply String.eqb_neq in Hl, Hm, Hh. by rewrite Hl, Hm, Hh.
Qed.

(** ** The keys that the scorer fires *)

Lemma fire_keys (k : string) (v : spec_float) (reason : string) (ev : evidence) :
  (fire k v reason ev).1.*1 = ev.1.*1 ++ [k].
Proof. unfold fire. simpl. by rewrite fmap_app. Qed.

Ltac fired_keys :=
  repeat case_match; rewrite ?fire_keys;
  first [ eexists; split; [reflexivity|];
          repeat first [apply sublist_nil | apply sublist_skip | apply sublist_cons]
        | exists []; split; [by rewrite app_nil_r | apply sublist_nil_l] ].

Lemma naming_signal_keys flags col1 t2 col2 ev :
  ∃ ks, (naming_signal flags col1 t2 col2 ev).1.*1 = ev.1.*1 ++ ks ∧
        ks `sublist_of` ["naming_exact"; "name_sim"; "name_sim_weak"].
Proof. unfold naming_signal. fired_keys. Qed.

Lemma overlap_signal_keys flags df1 col1 df2 col2 ev :
  ∃ ks, (overlap_signal flags df1 col1 df2 col2 ev).1.*1 = ev.1.*1 ++ ks ∧
        ks `sublist_of` ["overlap_high"; "overlap_medium"].
Proof. unfold overlap_signal. fired_keys. Qed.

Lemma cardinality_signal_keys flags df1 col1 df2 col2 ev :
  ∃ ks, (cardinality_signal flags df1 col1 df2 col2 ev).1.*1 = ev.1.*1 ++ ks ∧
        ks `sublist_of` ["cardinality_match"].
Proof. unfold cardinality_signal. fired_keys. Qed.

Lemma format_signal_keys flags df1 col1 df2 col2 ev g :
  ∃ ks, (format_signal flags df1 col1 df2 col2 ev g).1.1.*1 = ev.1.*1 ++ ks ∧
        ks `sublist_of` ["format_match"].
Proof.
  unfold format_signal, bind, ret.
  destruct (_ && _); simpl; [|fired_keys].
  destruct (_format_fingerprint col1 200 g) as [fmt1 g1].
  destruct (_format_fingerprint col2 200 g1) as [fmt2 g2]. simpl.
  fired_keys.
Qed.

Lemma distribution_signal_keys flags df1 col1 df2 col2 ev :
  ∃ ks, (distribution_signal flags df1 col1 df2 col2 ev).1.*1 = ev.1.*1 ++ ks ∧
        ks `sublist_of` ["dist_high"; "dist_med"].
Proof. unfold distribution_signal. fired_keys. Qed.

Lemma null_signal_keys flags df1 col1 df2 col2 ev :
  ∃ ks, (null_signal flags df1 col1 df2 col2 ev).1.*1 = ev.1.*1 ++ ks ∧
        ks `sublist_of` ["null_corr"].
Proof. unfold null_signal. fired_keys. Qed.

(** The keys of a candidate are keys of [SIGNAL_ORDER], in that order, and
    its score is their composite score. *)
Lemma score_candidate_keys_in_order t1 col1 df1 t2 col2 df2 flags g cand :
  (_score_candidate t1 col1 df1 t2 col2 df2 flags g).1 = Some cand →
  (Candidate.signals cand).*1 `sublist_of` SIGNAL_ORDER ∧
  Candidate.score cand = noisy_or (Candidate.signals cand).*1.
Proof.
  unfold _score_candidate. destruct (negb _); [done|].
  unfold bind, ret.
  destruct (naming_signal_keys flags (s_name col1) t2 (s_name col2) ([], []))
    as (k1 & E1 & S1).
  set (ev1 := naming_signal _ _ _ _ _) in *.
  destruct (overlap_signal_keys flags df1 col1 df2 col2 ev1) as (k2 & E2 & S2).
  set (ev2 := overlap_signal _ _ _ _ _ _) in *.
  destruct (cardinality_signal_keys flags df1 col1 df2 col2 ev2) as (k3 & E3 & S3).
  set (ev3 := cardinality_signal _ _ _ _ _ _) in *.
  destruct (format_signal_keys flags df1 col1 df2 col2 ev3 g) as (k4 & E4 & S4).
  destruct (format_signal _ _ _ _ _ ev3 g) as [ev4 g4]. simpl in E4. simpl.
  destruct (distribution_signal_keys flags df1 col1 df2 col2 ev4) as (k5 & E5 & S5).
  set (ev5 := distribution_signal _ _ _ _ _ _) in *.
  destruct (null_signal_keys flags df1 col1 df2 col2 ev5) as (k6 & E6 & S6).
  set (ev6 := null_signal _ _ _ _ _ _) in *.
  intros Hs. assert (Candidate.signals cand = ev6.1) as Hsig.
  { unfold summarize in Hs. destruct (ev6.1.*1); [done|]. by injection Hs as <-. }
  split.
  - rewrite Hsig, E6, E5, E4, E3, E2, E1. simpl.
    change SIGNAL_ORDER with
      (((((["naming_exact"; "name_sim"; "name_sim_weak"] ++ ["overlap_high"; "overlap_medium"])
          ++ ["cardinality_match"]) ++ ["format_match"]) ++ ["dist_high"; "dist_med"])
       ++ ["null_corr"]).
    repeat apply sublist_app; done.
  - apply summarize_confidence in Hs as [_ ->]. by rewrite Hsig.
Qed.

(** ** C6: the near-best filter *)

(** One turn of the filter.  For a target table that reaches the filter (it
    is not the source table, its triple is not yet seen, it has a best
    candidate and the tier of the candidate passes the minimal confidence),
    with the running value kept under the key [f"{t1}|{col1}"]: either the
    running value exists and is greater than the score of the candidate
    plus 0.05, and the target is skipped, the state of the search staying
    as it was; or it is not, the relationship is appended and the running
    value under the key becomes the score of the candidate, also when the
    value before was greater. *)
Lemma near_best_filter_tracks_last_accepted
    (min_rank : Z) (flags : gmap string bool) (t1 : string) (df1 : DataFrame)
    (col1 : Series) (too_large : bool) (st : search_state)
    (t2 : string) (df2 : DataFrame) (g : rng_state)
    (best_result : Candidate.t) (best_to_col : string) :
  t2 ≠ t1 →
  rel_key_of t1 (s_name col1) t2 ∉ seen st →
  (best_target t1 col1 df1 t2 df2 flags (target_columns too_large df2) g).1
    = Some (best_result, best_to_col) →
  min_rank ≤ conf_rank (Candidate.confidence best_result) 0 →
  let key := col_key_of t1 (s_name col1) in
  let new_score := Candidate.score best_result in
  let st' := (scan_target min_rank flags t1 df1 col1 too_large st (t2, df2) g).1 in
  ((∃ running, best st !! key = Some running ∧
               F64.gtb running (F64.add new_score (F64.lit 5 100)) = true) ∧
   st' = st)
  ∨
  ((∀ running, best st !! key = Some running →
               F64.gtb running (F64.add new_score (F64.lit 5 100)) = false) ∧
   results st' =
     results st ++ [relationship_of t1 (s_name col1) t2 best_to_col best_result] ∧
   best st' = <[key := new_score]> (best st)).
Proof.
  intros Hne Hseen Hfound Hrank key new_score st'. subst st'.
  unfold scan_target. apply String.eqb_neq in Hne. rewrite Hne.
  rewrite decide_False by done. unfold bind.
  destruct (best_target _ _ _ _ _ _ _ g) as [found g'] eqn:E.
  simpl in Hfound. subst found. simpl. unfold consider.
  apply Z.ltb_ge in Hrank. rewrite Hrank. fold key. fold new_score.
  destruct (best st !! key) as [running|] eqn:Hb.
  - destruct (F64.gtb running _) eqn:Hgt.
    + left. split; [by exists running | done].
    + right. simpl. split; [|done]. by intros ? [= <-].
  - right. simpl. split; [|done]. by intros.
Qed.

End EngineProperties.

(** ** Examples on the example runtime *)

(** A draw without a seed moves the global generator: [stateless] is not
    true of every computation. *)
Example sample_unseeded_moves :
  @sample example_runtime ["a"; "b"] 1 None 0%nat = (["a"], 1%nat).
Proof. reflexivity. Qed.

(** The near-best filter follows the order of the tables.  The targets of
    [orders.customer_id] score 1.0 ([customer], exact naming), 0.96
    ([clients], same stem and full overlap) and 0.925 ([buyers], weak
    similarity and full overlap).  With [buyers] last its candidate is
    accepted against the running value 0.96, although 1.0 was seen; with
    [buyers] before [clients] it is skipped against the running value 1.0. *)
Example near_best_follows_table_order :
  (λ r, (to_table r, score r)) <$>
    (@detect_fks example_runtime
       [("orders", orders); ("customer", customer); ("clients", clients); ("buyers", buyers)]
       "both" "low" (Some naming_and_overlap) 0%nat).1
  = [("customer", F64.one); ("clients", F64.lit 96 100); ("buyers", F64.lit 925 1000)]
  ∧
  (λ r, (to_table r, score r)) <$>
    (@detect_fks example_runtime
       [("orders", orders); ("customer", customer); ("buyers", buyers); ("clients", clients)]
       "both" "low" (Some naming_and_overlap) 0%nat).1
  = [("customer", F64.one); ("clients", F64.lit 96 100)].
Proof. vm_compute. split; reflexivity. Qed.

(** Scenario A of the spec: [orders.customer_id] is found to refer to
    [customer.customer_id] by naming, with confidence high. *)
Example detect_fks_orders_customer :
  (@detect_fks example_runtime [("orders", orders); ("customer", customer)]
               "both" "medium" (Some naming_only) 0%nat).1
  = [ {| from_table := "orders"; from_col := "customer_id";
         to_table := "customer"; to_col := "customer_id";
         detected_by := "naming"; confidence := "high"; score := F64.one;
         reasons := ["exact FK naming"];
         signals := [("naming_exact", F64.one)] |} ].
Proof. vm_compute. reflexivity. Qed.

(** The string column [customer_id] of [orders] names the table [customers]
    exactly, the naming signal fires, and the scorer returns none against
    the timestamp column [customer_id] of that table. *)
Lemma score_candidate_type_gate_witness :
  naming_signal (H := example_runtime) naming_only "customer_id" "customers" "customer_id" ([], [])
    = ([("naming_exact", F64.one)], ["exact FK naming"]) ∧
  _score_candidate (H := example_runtime) "orders" (text_column "customer_id" ["c1"; "c2"; "c1"]) orders
                   "customers" stamped_customer_id customers_by_time naming_only 0%nat
    = (None, 0%nat).
Proof.
  split; [vm_compute; reflexivity|].
  apply (score_candidate_type_gate (H := example_runtime)).
  vm_compute. discriminate.
Defined.

Lemma confidence_is_tier_of_score_witness :
  let cand := {| Candidate.signals := [("naming_exact", F64.one)];
                 Candidate.reasons := ["exact FK naming"];
                 Candidate.score := F64.one;
                 Candidate.confidence := "high";
                 Candidate.detected_by := "naming" |} in
  Candidate.confidence cand = confidence_of (Candidate.score cand).
Proof.
  intros cand.
  apply (confidence_is_tier_of_score (H := example_runtime)
           "orders" (text_column "customer_id" ["c1"; "c2"; "c1"]) orders
           "customer" (text_column "customer_id" ["c1"; "c2"]) customer
           naming_only 0%nat cand).
  vm_compute. reflexivity.
Defined.

Lemma detect_fks_unknown_min_confidence_witness :
  detect_fks (H := example_runtime) [("orders", orders); ("customer", customer)]
             "both" "certain" (Some naming_only)
  = detect_fks (H := example_runtime) [("orders", orders); ("customer", customer)]
               "both" "medium" (Some naming_only).
Proof. apply detect_fks_unknown_min_confidence; discriminate. Defined.

(** The running value of [orders.customer_id] is 1.0; the candidate of the
    table [customer] scores 0.95 by cardinality: it is accepted and the
    running value goes down to 0.95. *)
Lemma near_best_filter_tracks_last_accepted_witness :
  let st := {| results := []; seen := ∅;
               best := {[ "orders|customer_id" := F64.one ]} |} in
  best (scan_target (H := example_runtime) 1 {[ "cardinality" := true ]} "orders" orders
          (text_column "customer_id" ["c1"; "c2"; "c1"]) false st
          ("customer", customer) 0%nat).1
    !! "orders|customer_id" = Some (F64.lit 95 100).
Proof.
  intros st.
  destruct (near_best_filter_tracks_last_accepted (H := example_runtime)
              1 {[ "cardinality" := true ]} "orders" orders
              (text_column "customer_id" ["c1"; "c2"; "c1"]) false st
              "customer" customer 0%nat
              {| Candidate.signals := [("cardinality_match", F64.one)];
                 Candidate.reasons := ["identical value sets"];
                 Candidate.score := F64.lit 95 100;
                 Candidate.confidence := "high";
                 Candidate.detected_by := "cardinality" |}
              "customer_id")
    as [[(running & Hrun & Hgt) _] | (_ & _ & Hbest)].
  - discriminate.
  - vm_compute. set_solver.
  - vm_compute. reflexivity.
  - vm_compute. discriminate.
  - vm_compute in Hrun. injection Hrun as <-. vm_compute in Hgt. discriminate Hgt.
  - rewrite Hbest. apply lookup_insert_eq.
Defined.

(** ** The key of the running value *)

Section NearBestKeys.
Context `{Runtime}.

(** A turn for one source column leaves the running value of every other
    source column as it is, as long as the names of the two tables do not
    hold the separator. *)
Lemma running_value_of_other_column
    (min_rank : Z) (flags : gmap string bool) (t1 : string) (df1 : DataFrame)
    (col1 : Series) (too_large : bool) (st : search_state)
    (entry2 : string * DataFrame) (g : rng_state) (t c : string) :
  "|"%char ∉ chars t → "|"%char ∉ chars t1 →
  (t1, s_name col1) ≠ (t, c) →
  best (scan_target min_rank flags t1 df1 col1 too_large st entry2 g).1 !! col_key_of t c
    = best st !! col_key_of t c.
Proof.
  intros Ht Ht1 Hne. unfold scan_target. destruct entry2 as [t2 df2].
  destruct (String.eqb t2 t1); [reflexivity|].
  case_decide; [reflexivity|]. unfold bind, ret.
  destruct (best_target _ _ _ _ _ _ _ g) as [found g']. cbn [fst].
  unfold consider. destruct found as [[best_result best_to_col]|]; [|reflexivity].
  destruct (_ <? _); [reflexivity|].
  destruct (match best st !! _ with Some _ => _ | None => _ end); [reflexivity|].
  cbn [best]. apply lookup_insert_ne.
  intros E. apply col_key_of_inj in E as [E1 E2]; [|assumption..].
  apply Hne. by rewrite E1, E2.
Qed.

End NearBestKeys.


(* ================================================================== *)
(** * Further properties *)

(** ** The canonical form that [clean_name] gives *)

Ltac by_ascii_cases c :=
  destruct c as [[] [] [] [] [] [] [] []]; vm_compute;
  first [reflexivity | discriminate | (intros; congruence)].

Lemma chars_str_map (f : ascii → ascii) (s : string) :
  chars (str_map f s) = f <$> chars s.
Proof. induction s as [|c s IH]; [done|]. unfold chars in *. simpl. by rewrite IH. Qed.

Lemma chars_String (c : ascii) (s : string) : chars (String c s) = c :: chars s.
Proof. done. Qed.

Lemma replaced_char_canonical (c : ascii) :
  let r := if is_lower_alnum (lower_char c) then lower_char c else underscore in
  is_lower_alnum r || Ascii.eqb r underscore = true.
Proof. by_ascii_cases c. Qed.

Lemma squeeze_cons (c : ascii) (s : string) :
  squeeze_underscores (String c s) =
    if Ascii.eqb c underscore && bool_decide (head (chars s) = Some underscore)
    then squeeze_underscores s
    else String c (squeeze_underscores s).
Proof.
  destruct s as [|c' s]; cbn [squeeze_underscores].
  - destruct (Ascii.eqb c underscore); done.
  - destruct (Ascii.eqb c underscore); [|done]. simpl.
    destruct (Ascii.eqb c' underscore) eqn:E.
    + apply Ascii.eqb_eq in E as ->. by rewrite bool_decide_eq_true_2.
    + apply Ascii.eqb_neq in E. rewrite bool_decide_eq_false_2; [done|]. by intros [= ->].
Qed.

Lemma squeeze_head (s : string) :
  head (chars (squeeze_underscores s)) = head (chars s).
Proof.
  induction s as [|c s IH]; [done|]. rewrite squeeze_cons.
  destruct (Ascii.eqb c underscore) eqn:Ec; simpl; [|done].
  case_bool_decide as Hh; [|done].
  apply Ascii.eqb_eq in Ec as ->. by rewrite IH, Hh.
Qed.

Lemma squeeze_chars (P : ascii → Prop) (s : string) :
  Forall P (chars s) → Forall P (chars (squeeze_underscores s)).
Proof.
  induction s as [|c s IH]; [done|]. rewrite chars_String, squeeze_cons.
  intros [Hc Hs]%Forall_cons. destruct (_ && _); [by apply IH|].
  rewrite chars_String. apply Forall_cons. split; [done | by apply IH].
Qed.

Lemma no_adjacent_cons (c : ascii) (l : list ascii) :
  no_adjacent_underscores (c :: l) =
    negb (Ascii.eqb c underscore && bool_decide (head l = Some underscore)) &&
    no_adjacent_underscores l.
Proof.
  destruct l as [|c' l]; simpl.
  - by rewrite andb_false_r.
  - destruct (Ascii.eqb c' underscore) eqn:E.
    + apply Ascii.eqb_eq in E as ->. by rewrite bool_decide_eq_true_2.
    + apply Ascii.eqb_neq in E. rewrite bool_decide_eq_false_2; [done|]. by intros [= ->].
Qed.

Lemma squeeze_no_adjacent (s : string) :
  no_adjacent_underscores (chars (squeeze_underscores s)) = true.
Proof.
  induction s as [|c s IH]; [done|]. rewrite squeeze_cons.
  destruct (_ && _) eqn:E; [done|].
  rewrite chars_String, no_adjacent_cons, squeeze_head, E, IH. done.
Qed.

Lemma lstrip_spec (s : string) :
  ∃ k, chars s = replicate k underscore ++ chars (lstrip_underscores s) ∧
       head (chars (lstrip_underscores s)) ≠ Some underscore.
Proof.
  induction s as [|c s (k & E & Hh)]; [by exists 0%nat|].
  cbn [lstrip_underscores]. destruct (Ascii.eqb c underscore) eqn:Ec.
  - apply Ascii.eqb_eq in Ec as ->. exists (S k). rewrite chars_String, E. done.
  - exists 0%nat. split; [done|]. apply Ascii.eqb_neq in Ec. by intros [= ->].
Qed.

Lemma rstrip_spec (s : string) :
  ∃ k, chars s = chars (rstrip_underscores s) ++ replicate k underscore ∧
       last (chars (rstrip_underscores s)) ≠ Some underscore.
Proof.
  induction s as [|c s (k & E & Hl)]; [by exists 0%nat|].
  cbn [rstrip_underscores]. destruct (rstrip_underscores s) as [|d r] eqn:Hr.
  - destruct (Ascii.eqb c underscore) eqn:Ec.
    + apply Ascii.eqb_eq in Ec as ->. exists (S k). rewrite chars_String, E. done.
    + exists k. rewrite !chars_String, E. split; [done|].
      apply Ascii.eqb_neq in Ec. by intros [= ->].
  - exists k. rewrite !chars_String, E. split; [done|].
    rewrite chars_String in Hl. by rewrite last_cons_cons.
Qed.

Lemma no_adjacent_app (l1 l2 : list ascii) :
  no_adjacent_underscores (l1 ++ l2) = true →
  no_adjacent_underscores l1 = true ∧ no_adjacent_underscores l2 = true.
Proof.
  induction l1 as [|c l1 IH]; [done|]. rewrite <- app_comm_cons, !no_adjacent_cons.
  intros [H1 H2]%andb_prop. destruct (IH H2) as [? ?]. split; [|done].
  apply andb_true_intro. split; [|done].
  destruct l1; [by rewrite bool_decide_eq_false_2, andb_false_r | done].
Qed.

Lemma clean_name_spec (name : string) :
  ∃ n j k,
    Forall (λ c, is_lower_alnum c || Ascii.eqb c underscore = true) (chars n) ∧
    no_adjacent_underscores (chars n) = true ∧
    chars n = replicate j underscore ++ chars (clean_name name) ++ replicate k underscore ∧
    head (chars (clean_name name) ++ replicate k underscore) ≠ Some underscore ∧
    last (chars (clean_name name)) ≠ Some underscore.
Proof.
  unfold clean_name.
  set (n0 := str_map _ (str_map lower_char name)).
  exists (squeeze_underscores n0).
  destruct (lstrip_spec (squeeze_underscores n0)) as (j & Ej & Hj).
  destruct (rstrip_spec (lstrip_underscores (squeeze_underscores n0))) as (k & Ek & Hk).
  exists j, k. split; [|split; [|split; [|split]]].
  - apply squeeze_chars. unfold n0. rewrite !chars_str_map.
    apply Forall_fmap, Forall_fmap, Forall_true. intros c. apply replaced_char_canonical.
  - apply squeeze_no_adjacent.
  - by rewrite Ej, Ek.
  - by rewrite <- Ek.
  - done.
Qed.

Lemma clean_name_canonical_form (name : string) :
  is_canonical (clean_name name) = true.
Proof.
  destruct (clean_name_spec name) as (n & j & k & Hchars & Hadj & E & Hhead & Hlast).
  rewrite E in Hchars, Hadj.
  apply Forall_app in Hchars as [_ [Hchars _]%Forall_app].
  apply no_adjacent_app in Hadj as [_ [Hadj _]%no_adjacent_app].
  unfold is_canonical. rewrite Hadj.
  rewrite (proj2 (forallb_forall _ _)).
  2: { intros c Hc%list_elem_of_In. by apply (proj1 (Forall_forall _ _) Hchars). }
  rewrite !bool_decide_eq_false_2; [done | done |].
  intros Hh. apply Hhead. by destruct (chars (clean_name name)).
Qed.

(** X1: the name that [clean_name] returns is in canonical form, for every
    input: lower-case letters, digits and underscores only, no two
    underscores in a row, no underscore at either end. *)
Theorem clean_name_is_canonical (name : string) :
  is_canonical (clean_name name) = true.
Proof. apply clean_name_canonical_form. Qed.

Lemma canonical_char_fixed (c : ascii) :
  is_lower_alnum c || Ascii.eqb c underscore = true →
  (if is_lower_alnum (lower_char c) then lower_char c else underscore) = c.
Proof. by_ascii_cases c. Qed.

Lemma str_map_fixed (f : ascii → ascii) (s : string) :
  Forall (λ c, f c = c) (chars s) → str_map f s = s.
Proof.
  induction s as [|c s IH]; [done|]. rewrite chars_String.
  intros [Hc Hs]%Forall_cons. simpl. by rewrite Hc, IH.
Qed.

Lemma str_map_compose (f g : ascii → ascii) (s : string) :
  str_map f (str_map g s) = str_map (λ c, f (g c)) s.
Proof. induction s as [|c s IH]; [done|]. simpl. by rewrite IH. Qed.

Lemma squeeze_fixed (s : string) :
  no_adjacent_underscores (chars s) = true → squeeze_underscores s = s.
Proof.
  induction s as [|c s IH]; [done|]. rewrite chars_String, no_adjacent_cons, squeeze_cons.
  intros [H1 H2]%andb_prop. apply negb_true_iff in H1. by rewrite H1, IH.
Qed.

Lemma lstrip_fixed (s : string) :
  head (chars s) ≠ Some underscore → lstrip_underscores s = s.
Proof.
  destruct s as [|c s]; [done|]. simpl. intros Hh.
  destruct (Ascii.eqb c underscore) eqn:E; [|done].
  apply Ascii.eqb_eq in E as ->. done.
Qed.

Lemma rstrip_fixed (s : string) :
  last (chars s) ≠ Some underscore → rstrip_underscores s = s.
Proof.
  induction s as [|c s IH]; [done|]. rewrite chars_String. intros Hl.
  cbn [rstrip_underscores]. destruct s as [|d s].
  - simpl. destruct (Ascii.eqb c underscore) eqn:E; [|done].
    apply Ascii.eqb_eq in E as ->. done.
  - rewrite chars_String, last_cons_cons in Hl. rewrite <- chars_String in Hl.
    rewrite (IH Hl). done.
Qed.

(** X2: [clean_name] leaves a name in canonical form as it is; so cleaning
    a cleaned name changes nothing. *)
Theorem clean_name_fixes_canonical (name : string) :
  (is_canonical name = true → clean_name name = name) ∧
  clean_name (clean_name name) = clean_name name.
Proof.
  assert (∀ s, is_canonical s = true → clean_name s = s) as Hfix.
  { intros s. unfold is_canonical.
    intros [[[Hc Ha]%andb_prop Hh%negb_true_iff]%andb_prop Hl%negb_true_iff]%andb_prop.
    apply bool_decide_eq_false in Hh, Hl. unfold clean_name.
    rewrite str_map_compose, str_map_fixed.
    - by rewrite (squeeze_fixed _ Ha), (lstrip_fixed _ Hh), (rstrip_fixed _ Hl).
    - apply Forall_forall. intros c Hin%list_elem_of_In.
      apply canonical_char_fixed. by apply (proj1 (forallb_forall _ _) Hc). }
  split; [apply Hfix|]. apply Hfix, clean_name_canonical_form.
Qed.

Lemma clean_name_fixes_canonical_witness : clean_name "order_no_2" = "order_no_2".
Proof. apply (proj1 (clean_name_fixes_canonical "order_no_2")). reflexivity. Defined.

(** ** Sanitized column names *)

Lemma sanitized_char_cleans (c : ascii) :
  let s := if is_identifier_char c then c else underscore in
  (if is_lower_alnum (lower_char s) then lower_char s else underscore) =
  (if is_lower_alnum (lower_char c) then lower_char c else underscore).
Proof. by_ascii_cases c. Qed.

Lemma str_map_ext (f g : ascii → ascii) (s : string) :
  (∀ c, f c = g c) → str_map f s = str_map g s.
Proof. intros E. induction s as [|c s IH]; [done|]. simpl. by rewrite E, IH. Qed.

Lemma clean_name_sanitize_name (c : string) :
  clean_name (sanitize_name c) = clean_name c.
Proof.
  unfold clean_name, sanitize_name. rewrite !str_map_compose.
  by rewrite (str_map_ext _ _ c sanitized_char_cleans).
Qed.

Lemma List_find_fmap {A B} (f : B → bool) (g : A → B) (l : list A) :
  List.find f (g <$> l) = g <$> List.find (λ x, f (g x)) l.
Proof.
  induction l as [|x l IH]; [done|]. rewrite fmap_cons. cbn [List.find].
  destruct (f (g x)); [done | apply IH].
Qed.

Lemma List_filter_fmap {A B} (f : B → bool) (g : A → B) (l : list A) :
  List.filter f (g <$> l) = g <$> List.filter (λ x, f (g x)) l.
Proof.
  induction l as [|x l IH]; [done|]. rewrite fmap_cons. cbn [List.filter].
  destruct (f (g x)); rewrite IH; done.
Qed.

Lemma List_find_ext {A} (f g : A → bool) (l : list A) :
  (∀ x, f x = g x) → List.find f l = List.find g l.
Proof. intros E. induction l as [|x l IH]; [done|]. simpl. by rewrite E, IH. Qed.

Lemma List_filter_ext {A} (f g : A → bool) (l : list A) :
  (∀ x, f x = g x) → List.filter f l = List.filter g l.
Proof. intros E. induction l as [|x l IH]; [done|]. simpl. by rewrite E, IH. Qed.

(** X3: for a table whose column names are ASCII and stay different from
    one another when they are sanitized, sanitizing the column names does
    not change their canonical names, so the primary-key detector picks
    the same column before and after, under its sanitized name. *)
Theorem detect_pks_after_sanitize_columns
    (df : DataFrame) (table_name method : string) :
  (∀ col, col ∈ df_columns df → is_ascii_name (s_name col) = true) →
  NoDup (sanitize_name <$> (s_name <$> df_columns df)) →
  (∀ col, col ∈ df_columns df →
          clean_name (sanitize_name (s_name col)) = clean_name (s_name col)) ∧
  detect_pks (sanitize_columns df) table_name method
    = sanitize_name <$> detect_pks df table_name method.
Proof.
  intros _ _. split; [intros col _; apply clean_name_sanitize_name|].
  unfold detect_pks, sanitize_columns. cbn [df_len df_columns].
  set (rename := λ col, {| s_name := sanitize_name (s_name col);
                           s_dtype := s_dtype col; s_values := s_values col |}).
  assert (∀ l : list Series,
    List.filter (unique_not_null (df_len df)) (rename <$> l)
      = rename <$> List.filter (unique_not_null (df_len df)) l) as Hu.
  { intros l. by rewrite List_filter_fmap. }
  assert (∀ l : list Series,
    List.filter (λ c, re_search_at_end ["_id"; "_key"; "_no"; "_num"; "_code"]
                                       (clean_name (s_name c))) (rename <$> l)
      = rename <$> List.filter
          (λ c, re_search_at_end ["_id"; "_key"; "_no"; "_num"; "_code"]
                                 (clean_name (s_name c))) l) as Hi.
  { intros l. rewrite List_filter_fmap. f_equal. apply List_filter_ext.
    intros col. cbn [s_name rename]. by rewrite clean_name_sanitize_name. }
  assert (List.find (λ col, is_pk_name (clean_name (s_name col)) (clean_name table_name))
                    (rename <$> df_columns df)
          = rename <$> List.find
              (λ col, is_pk_name (clean_name (s_name col)) (clean_name table_name))
              (df_columns df)) as Hf.
  { rewrite List_find_fmap. f_equal. apply List_find_ext.
    intros col. cbn [s_name rename]. by rewrite clean_name_sanitize_name. }
  rewrite Hf, Hu, Hi.
  destruct (str_in method ["naming"; "both"]).
  - destruct (List.find _ (df_columns df)) as [col|]; [done|]. simpl.
    destruct (_ && _); [|done].
    destruct (List.filter _ (List.filter _ _)); [|done].
    destruct (List.filter _ _); done.
  - destruct (_ && _); [|done].
    destruct (List.filter _ (List.filter _ _)); [|done].
    destruct (List.filter _ _); done.
Qed.

Lemma detect_pks_after_sanitize_columns_witness :
  detect_pks (sanitize_columns exported_customers) "customer" "both" = ["customer_id"].
Proof.
  destruct (detect_pks_after_sanitize_columns exported_customers "customer" "both")
    as [_ ->].
  - intros col Hcol.
    repeat (apply elem_of_cons in Hcol as [-> | Hcol]; [vm_compute; reflexivity|]).
    by apply elem_of_nil in Hcol.
  - apply (bool_decide_unpack _). vm_compute. exact I.
  - vm_compute. reflexivity.
Defined.

(** ** The naming rule of foreign keys *)

Lemma is_fk_for_spec (c t : string) : is_fk_for c t = true ↔ fk_naming_rule c t.
Proof.
  unfold is_fk_for, fk_naming_rule.
  destruct (String.eqb c (t +:+ "_id")) eqn:E2.
  { apply String_eqb_true in E2. tauto. }
  apply String.eqb_neq in E2.
  destruct (endswith c "_id") eqn:E3; simpl.
  - apply endswith_spec in E3 as [stem ->]. rewrite id_stem_strips_id.
    destruct (startswith t stem) eqn:E4.
    + apply startswith_spec in E4 as [rest ->]. split; [|done].
      intros _. right. by exists stem, rest.
    + split; [done|]. intros [? | (stem' & rest & Hc & ->)]; [done|].
      assert (stem' = stem) as ->.
      { apply chars_inj. apply (f_equal chars) in Hc. rewrite !chars_app in Hc.
        symmetry. by apply app_inv_tail in Hc. }
      assert (startswith (stem +:+ rest) stem = true) as Ht
        by (apply startswith_spec; by exists rest).
      congruence.
  - split; [done|]. intros [? | (stem & rest & -> & _)]; [done|].
    by rewrite endswith_app in E3.
Qed.

(** X4: [is_fk_for] holds exactly when the column's canonical name is the
    table's canonical name followed by [_id], or is a stem followed by
    [_id] of which the table's canonical name is an extension (so
    [cust_id] is a foreign key for [customers]); and [is_pk_name] holds
    exactly for the name [id] and for the names that [is_fk_for] accepts. *)
Theorem naming_rules_by_stem (col_clean tname_clean : string) :
  (is_fk_for col_clean tname_clean = true ↔ fk_naming_rule col_clean tname_clean) ∧
  (is_pk_name col_clean tname_clean = true ↔
     col_clean = "id" ∨ is_fk_for col_clean tname_clean = true).
Proof.
  split; [apply is_fk_for_spec|].
  rewrite is_fk_for_spec, is_pk_name_spec. unfold fk_naming_rule. tauto.
Qed.

(** ** The prefix that [_jaro_winkler] counts *)

Lemma common_prefix_agrees (s1 s2 : list ascii) (i : nat) :
  (i < common_prefix_length s1 s2)%nat →
  s1 !! i = s2 !! i ∧ (i < length s1)%nat ∧ (i < length s2)%nat.
Proof.
  revert s2 i. induction s1 as [|c1 s1 IH]; intros [|c2 s2] i; simpl; try lia.
  destruct (Ascii.eqb c1 c2) eqn:E; [|lia]. apply Ascii.eqb_eq in E as ->.
  destruct i as [|i]; simpl; [intros _; repeat split; lia|].
  intros Hi. destruct (IH s2 i ltac:(lia)) as (? & ? & ?). repeat split; [done | lia | lia].
Qed.

Lemma length_filter_seq_all (P : nat → Prop) `{!∀ i, Decision (P i)} (n : nat) :
  (∀ i, (i < n)%nat → P i) → length (filter P (seq 0 n)) = n.
Proof.
  intros HP. assert (∀ l, Forall P l → filter P l = l) as Hall.
  { induction 1 as [|x l Hx _ IH]; [done|]. by rewrite filter_cons_True, IH. }
  rewrite Hall; [apply length_seq|].
  apply Forall_forall. intros i Hi%elem_of_seq. apply HP. lia.
Qed.

(** X5: the count that [_jaro_winkler] uses as the prefix is never below
    the length of the common prefix capped at 4, and never above 4: the
    function gives a similarity that is at least the one of the standard
    adjustment's prefix. *)
Theorem winkler_prefix_bounds (s1 s2 : list ascii) :
  (standard_prefix s1 s2 ≤ winkler_prefix s1 s2)%nat ∧ (winkler_prefix s1 s2 ≤ 4)%nat.
Proof.
  unfold standard_prefix, winkler_prefix.
  set (m := Nat.min 4 (Nat.min (length s1) (length s2))).
  set (p := Nat.min 4 (common_prefix_length s1 s2)).
  assert (∀ i, (i < p)%nat → s1 !! i = s2 !! i ∧ (i < m)%nat) as Hp.
  { intros i Hi. destruct (common_prefix_agrees s1 s2 i ltac:(lia)) as (? & ? & ?).
    split; [done | lia]. }
  assert (p ≤ m)%nat as Hpm.
  { destruct p as [|p']; [lia|]. destruct (Hp p' ltac:(lia)) as [_ ?]. lia. }
  split.
  - replace m with (p + (m - p))%nat by lia. rewrite seq_app, filter_app, length_app.
    rewrite (length_filter_seq_all _ p); [lia|]. intros i Hi. by apply Hp.
  - etransitivity; [apply length_filter|]. rewrite length_seq. lia.
Qed.

Lemma naming_rules_by_stem_witness : is_fk_for "cust_id" "customers" = true.
Proof.
  apply (proj1 (naming_rules_by_stem "cust_id" "customers")).
  right. exists "cust", "omers". split; reflexivity.
Defined.

(** ** The two loops of [_jaro_winkler] *)

Lemma count_set_le_length (flags : list bool) : (count_set flags ≤ length flags)%nat.
Proof. induction flags as [|[] flags IH]; simpl; lia. Qed.

Lemma jaro_matching_counts_from (s1 s2 : list ascii) (d a n : nat)
    (st : list bool * list bool * nat) :
  length st.1.1 = length s1 → length st.1.2 = length s2 →
  count_set st.1.1 = st.2 → count_set st.1.2 = st.2 →
  (∀ i', (a ≤ i')%nat → st.1.1 !! i' ≠ Some true) →
  let st' := foldl (match_step s1 s2 d) st (seq a n) in
  count_set st'.1.1 = st'.2 ∧ count_set st'.1.2 = st'.2.
Proof.
  revert a st.
  induction n as [|n IH]; intros a [[m1 m2] k]; cbn [seq foldl fst snd];
    intros L1 L2 C1 C2 Hrest.
  - done.
  - pose proof (match_step_invariant s1 s2 d a m1 m2 k L1 L2 C1 C2 Hrest) as Hstep.
    destruct (match_step s1 s2 d (m1, m2, k) a) as [[m1' m2'] k'].
    destruct Hstep as (L1' & L2' & C1' & C2' & Hrest').
    by apply (IH (S a) (m1', m2', k')).
Qed.

(** X6: after the matching loop of [_jaro_winkler] the two lists of flags
    have the lengths of the two strings and each has exactly [matches] flags
    set, so [matches] is at most the length of the shorter string; and in
    every turn of the transposition loop that stands on a matched position
    of [s1], the scan [while not s2_matches[k]] stops on a set flag at an
    index inside [s2]: the function never reads past the end of a list. *)
Theorem jaro_loops_stay_in_range (s1 s2 : list ascii) (i : nat) :
  let '(s1_matches, s2_matches, matches) := jaro_matching s1 s2 in
  let k := (foldl (transposition_step s1 s2 s1_matches s2_matches)
                  (0%nat, 0%nat) (seq 0 i)).1 in
  length s1_matches = length s1 ∧ length s2_matches = length s2 ∧
  count_set s1_matches = matches ∧ count_set s2_matches = matches ∧
  (matches ≤ Nat.min (length s1) (length s2))%nat ∧
  (s1_matches !! i = Some true →
   (next_set s2_matches k < length s2)%nat ∧
   s2_matches !! next_set s2_matches k = Some true).
Proof.
  pose proof (jaro_matching_invariant s1 s2) as (L1 & L2 & _).
  pose proof (jaro_scan_in_range s1 s2 i) as Hscan.
  assert (count_set (jaro_matching s1 s2).1.1 = (jaro_matching s1 s2).2 ∧
          count_set (jaro_matching s1 s2).1.2 = (jaro_matching s1 s2).2) as [C1 C2].
  { unfold jaro_matching. apply jaro_matching_counts_from; simpl.
    - apply length_replicate.
    - apply length_replicate.
    - apply count_set_replicate.
    - apply count_set_replicate.
    - intros i' _ Hi'. apply lookup_replicate in Hi' as [? _]. done. }
  destruct (jaro_matching s1 s2) as [[m1 m2] n]. simpl in *.
  repeat split; try done.
  - pose proof (count_set_le_length m1). pose proof (count_set_le_length m2). lia.
  - by apply Hscan.
  - by apply Hscan.
Qed.

(** In [martha] against [marhta] the position 3 of [s1] is matched, the
    three positions before it have moved [k] to 3, and the scan of the
    fourth turn stops inside [s2]. *)
Lemma jaro_loops_stay_in_range_witness :
  (next_set (jaro_matching (chars "martha") (chars "marhta")).1.2 3 < 6)%nat.
Proof.
  pose proof (jaro_loops_stay_in_range (chars "martha") (chars "marhta") 3) as Hj.
  vm_compute in Hj. destruct Hj as (_ & _ & _ & _ & _ & Hscan).
  destruct (Hscan eq_refl) as [Hlt _]. exact Hlt.
Defined.

(** ** The scores, the top signal and exact naming, checked on every list of
    keys *)

Lemma score_range_on_signal_order : score_range_on (sublists SIGNAL_ORDER) = true.
Proof. vm_compute. reflexivity. Qed.

Lemma top_signal_on_signal_order : top_signal_on (sublists SIGNAL_ORDER) = true.
Proof. vm_compute. reflexivity. Qed.

Lemma exact_naming_decides_on_content_order :
  exact_naming_decides_on (sublists CONTENT_ORDER) = true.
Proof. vm_compute. reflexivity. Qed.

Lemma score_range_on_spec (fired : list (list string)) (keys : list string) :
  score_range_on fired = true → keys ∈ fired → keys ≠ [] →
  F64.leb (F64.lit 2 10) (noisy_or keys) = true ∧ F64.leb (noisy_or keys) F64.one = true.
Proof.
  unfold score_range_on. rewrite forallb_forall. intros Hall Hin Hne.
  specialize (Hall keys (proj1 (list_elem_of_In _ _) Hin)).
  destruct keys; [done|]. by apply andb_prop in Hall.
Qed.

Lemma top_signal_on_spec (fired : list (list string)) (first : string) (others : list string) :
  top_signal_on fired = true → first :: others ∈ fired →
  let top := top_signal first others in
  top ∈ first :: others ∧
  (∀ k, k ∈ first :: others → k ≠ top → F64.ltb (weight k) (weight top) = true) ∧
  dict_get LABEL_MAP top "content" ≠ "content" ∧
  dict_get LABEL_MAP top "content" ∈ LABEL_MAP.*2.
Proof.
  unfold top_signal_on. rewrite forallb_forall. intros Hall Hin.
  specialize (Hall _ (proj1 (list_elem_of_In _ _) Hin)). cbn beta iota zeta in Hall.
  cbv zeta. set (top := top_signal first others) in *.
  apply andb_prop in Hall as [[[Htop Hmax]%andb_prop Hne]%andb_prop Hlabel].
  unfold str_in in Htop, Hlabel. rewrite existsb_exists in Htop, Hlabel.
  destruct Htop as (x & Hx%list_elem_of_In & ->%String.eqb_eq).
  destruct Hlabel as (y & Hy%list_elem_of_In & Ey%String.eqb_eq).
  rewrite forallb_forall in Hmax.
  split; [done|]. split; [|split; [|by rewrite Ey]].
  - intros k Hk Hkt. specialize (Hmax k (proj1 (list_elem_of_In _ _) Hk)).
    apply orb_prop in Hmax as [E%String.eqb_eq | Hlt]; done.
  - apply negb_true_iff in Hne. by apply String.eqb_neq in Hne.
Qed.

Lemma exact_naming_decides_on_spec (fired : list (list string)) (keys : list string) :
  exact_naming_decides_on fired = true → keys ∈ fired →
  noisy_or ("naming_exact" :: keys) = F64.one ∧
  top_signal "naming_exact" keys = "naming_exact".
Proof.
  unfold exact_naming_decides_on. rewrite forallb_forall. intros Hall Hin.
  specialize (Hall _ (proj1 (list_elem_of_In _ _) Hin)).
  apply andb_prop in Hall as [Hs Ht]. split; [by apply identical_eq | by apply String.eqb_eq].
Qed.

Lemma str_in_spec (s : string) (l : list string) : str_in s l = true ↔ s ∈ l.
Proof.
  unfold str_in. rewrite existsb_exists. split.
  - intros (x & Hx%list_elem_of_In & ->%String.eqb_eq). done.
  - intros Hs. exists s. split; [by apply list_elem_of_In | apply String.eqb_refl].
Qed.

Section MoreEngineProperties.
Context `{Runtime}.

Lemma summarize_keys (ev : evidence) (cand : Candidate.t) :
  summarize ev = Some cand →
  ∃ first others,
    ev.1.*1 = first :: others ∧ Candidate.signals cand = ev.1 ∧
    Candidate.reasons cand = ev.2 ∧
    Candidate.score cand = noisy_or (first :: others) ∧
    Candidate.confidence cand = confidence_of (noisy_or (first :: others)) ∧
    Candidate.detected_by cand = dict_get LABEL_MAP (top_signal first others) "content".
Proof.
  unfold summarize. destruct (ev.1.*1) as [|first others]; [done|].
  intros [= <-]. by exists first, others.
Qed.

Lemma score_candidate_summarizes t1 col1 df1 t2 col2 df2 flags g cand :
  (_score_candidate t1 col1 df1 t2 col2 df2 flags g).1 = Some cand →
  _col_dtype_class col1 = _col_dtype_class col2 ∧
  ∃ ev, summarize ev = Some cand.
Proof.
  unfold _score_candidate. destruct (String.eqb _ _) eqn:E; simpl; [|done].
  apply String.eqb_eq in E. unfold bind, ret.
  destruct (format_signal _ _ _ _ _ _ g) as [ev g']. simpl.
  intros Hs. split; [done|]. by eexists.
Qed.

(** X7: a candidate that the scorer returns has at least one signal, its
    keys are keys of the scorer in the order of the scorer, its score is the
    composite score of its keys, and the score is at least 0.2, at most 1.0
    and a whole number of thousandths. *)
Theorem candidate_score_range
    (t1 : string) (col1 : Series) (df1 : DataFrame)
    (t2 : string) (col2 : Series) (df2 : DataFrame)
    (flags : gmap string bool) (g : rng_state) (cand : Candidate.t) :
  (_score_candidate t1 col1 df1 t2 col2 df2 flags g).1 = Some cand →
  let keys := (Candidate.signals cand).*1 in
  keys ≠ [] ∧ keys `sublist_of` SIGNAL_ORDER ∧
  Candidate.score cand = noisy_or keys ∧
  F64.leb (F64.lit 2 10) (Candidate.score cand) = true ∧
  F64.leb (Candidate.score cand) F64.one = true ∧
  Candidate.score cand = F64.lit (F64.thousandths (Candidate.score cand)) 1000.
Proof.
  intros Hc keys.
  destruct (score_candidate_keys_in_order _ _ _ _ _ _ _ _ _ Hc) as [Hsub Hscore].
  destruct (score_candidate_summarizes _ _ _ _ _ _ _ _ _ Hc) as (_ & ev & Hs).
  destruct (summarize_keys _ _ Hs) as (first & others & Hk & Hsig & _).
  fold keys in Hsub, Hscore.
  assert (keys = first :: others) as Hkeys by (unfold keys; by rewrite Hsig).
  split; [by rewrite Hkeys|]. split; [done|]. split; [done|].
  assert (keys ≠ []) as Hne by (by rewrite Hkeys).
  destruct (score_range_on_spec (sublists SIGNAL_ORDER) keys
              score_range_on_signal_order (sublist_in_sublists _ _ Hsub) Hne) as [Hlo Hhi].
  rewrite Hscore. split; [done|]. split; [done|].
  by apply (near_best_threshold_in_thousandths keys keys).
Qed.

(** X8: the label [detected_by] of a candidate is the label that
    [LABEL_MAP] gives to one of its fired keys, the one whose weight is
    greater than the weight of every other fired key; it is never the
    default label ["content"]. *)
Theorem candidate_detected_by_top_weight
    (t1 : string) (col1 : Series) (df1 : DataFrame)
    (t2 : string) (col2 : Series) (df2 : DataFrame)
    (flags : gmap string bool) (g : rng_state) (cand : Candidate.t) :
  (_score_candidate t1 col1 df1 t2 col2 df2 flags g).1 = Some cand →
  ∃ top,
    top ∈ (Candidate.signals cand).*1 ∧
    (∀ k, k ∈ (Candidate.signals cand).*1 → k ≠ top →
          F64.ltb (weight k) (weight top) = true) ∧
    Candidate.detected_by cand = dict_get LABEL_MAP top "content" ∧
    Candidate.detected_by cand ∈ LABEL_MAP.*2 ∧
    Candidate.detected_by cand ≠ "content".
Proof.
  intros Hc.
  destruct (score_candidate_keys_in_order _ _ _ _ _ _ _ _ _ Hc) as [Hsub _].
  destruct (score_candidate_summarizes _ _ _ _ _ _ _ _ _ Hc) as (_ & ev & Hs).
  destruct (summarize_keys _ _ Hs) as (first & others & Hk & Hsig & _ & _ & _ & Hby).
  rewrite Hsig, Hk in *.
  destruct (top_signal_on_spec (sublists SIGNAL_ORDER) first others
              top_signal_on_signal_order (sublist_in_sublists _ _ Hsub))
    as (Htop & Hmax & Hne & Hlabel).
  exists (top_signal first others). rewrite Hby. done.
Qed.

(** ** Exact naming *)

Lemma sublist_app_keys (k2 k3 k4 k5 k6 : list string) :
  k2 `sublist_of` ["overlap_high"; "overlap_medium"] →
  k3 `sublist_of` ["cardinality_match"] →
  k4 `sublist_of` ["format_match"] →
  k5 `sublist_of` ["dist_high"; "dist_med"] →
  k6 `sublist_of` ["null_corr"] →
  (((k2 ++ k3) ++ k4) ++ k5) ++ k6 `sublist_of` CONTENT_ORDER.
Proof.
  intros. change CONTENT_ORDER with
    ((((["overlap_high"; "overlap_medium"] ++ ["cardinality_match"]) ++ ["format_match"])
      ++ ["dist_high"; "dist_med"]) ++ ["null_corr"]).
  repeat apply sublist_app; done.
Qed.

(** X9: when the naming flag is set, the source column is named for the
    target table ([is_fk_for]) and the two columns have the same type
    class, the scorer returns a candidate of score 1.0, confidence
    ["high"] and label ["naming"], whatever the name of the target column
    and whatever the values of the two columns are. *)
Theorem exact_naming_decides
    (t1 : string) (col1 : Series) (df1 : DataFrame)
    (t2 : string) (col2 : Series) (df2 : DataFrame)
    (flags : gmap string bool) (g : rng_state) :
  flag flags "naming" = true →
  is_fk_for (clean_name (s_name col1)) (clean_name t2) = true →
  _col_dtype_class col1 = _col_dtype_class col2 →
  ∃ cand,
    (_score_candidate t1 col1 df1 t2 col2 df2 flags g).1 = Some cand ∧
    Candidate.score cand = F64.one ∧
    Candidate.confidence cand = "high" ∧
    Candidate.detected_by cand = "naming" ∧
    (Candidate.signals cand).*1 !! 0%nat = Some "naming_exact".
Proof.
  intros Hflag Hfk Hclass. unfold _score_candidate.
  rewrite Hclass, String.eqb_refl. cbn [negb]. unfold bind, ret.
  assert (naming_signal flags (s_name col1) t2 (s_name col2) ([], [])
          = fire "naming_exact" F64.one "exact FK naming" ([], [])) as ->.
  { unfold naming_signal. by rewrite Hflag, Hfk. }
  set (ev1 := fire _ _ _ _).
  assert (ev1.1.*1 = ["naming_exact"]) as E1 by done.
  destruct (overlap_signal_keys flags df1 col1 df2 col2 ev1) as (k2 & E2 & S2).
  set (ev2 := overlap_signal _ _ _ _ _ _) in *.
  destruct (cardinality_signal_keys flags df1 col1 df2 col2 ev2) as (k3 & E3 & S3).
  set (ev3 := cardinality_signal _ _ _ _ _ _) in *.
  destruct (format_signal_keys flags df1 col1 df2 col2 ev3 g) as (k4 & E4 & S4).
  destruct (format_signal _ _ _ _ _ ev3 g) as [ev4 g4]. simpl in E4. simpl.
  destruct (distribution_signal_keys flags df1 col1 df2 col2 ev4) as (k5 & E5 & S5).
  set (ev5 := distribution_signal _ _ _ _ _ _) in *.
  destruct (null_signal_keys flags df1 col1 df2 col2 ev5) as (k6 & E6 & S6).
  set (ev6 := null_signal _ _ _ _ _ _) in *.
  assert (ev6.1.*1 = "naming_exact" :: ((((k2 ++ k3) ++ k4) ++ k5) ++ k6)) as Hkeys.
  { by rewrite E6, E5, E4, E3, E2, E1. }
  pose proof (sublist_app_keys k2 k3 k4 k5 k6 S2 S3 S4 S5 S6) as Hsub.
  destruct (exact_naming_decides_on_spec (sublists CONTENT_ORDER) _
              exact_naming_decides_on_content_order (sublist_in_sublists _ _ Hsub))
    as [Hscore Htop].
  unfold summarize. rewrite Hkeys. eexists. split; [reflexivity|]. cbn.
  rewrite Hscore, Htop, Hkeys. repeat split; reflexivity.
Qed.

End MoreEngineProperties.

Lemma candidate_score_range_witness :
  let cand := {| Candidate.signals := [("naming_exact", F64.one)];
                 Candidate.reasons := ["exact FK naming"];
                 Candidate.score := F64.one;
                 Candidate.confidence := "high";
                 Candidate.detected_by := "naming" |} in
  let keys := (Candidate.signals cand).*1 in
  keys ≠ [] ∧ keys `sublist_of` SIGNAL_ORDER ∧
  Candidate.score cand = noisy_or keys ∧
  F64.leb (F64.lit 2 10) (Candidate.score cand) = true ∧
  F64.leb (Candidate.score cand) F64.one = true ∧
  Candidate.score cand = F64.lit (F64.thousandths (Candidate.score cand)) 1000.
Proof.
  intros cand.
  apply (candidate_score_range (H := example_runtime)
           "orders" (text_column "customer_id" ["c1"; "c2"; "c1"]) orders
           "customer" (text_column "customer_id" ["c1"; "c2"]) customer
           naming_only 0%nat cand).
  vm_compute. reflexivity.
Defined.

Lemma candidate_detected_by_top_weight_witness :
  ∃ top, top ∈ ["naming_exact"] ∧
    dict_get LABEL_MAP top "content" = "naming".
Proof.
  destruct (candidate_detected_by_top_weight (H := example_runtime)
              "orders" (text_column "customer_id" ["c1"; "c2"; "c1"]) orders
              "customer" (text_column "customer_id" ["c1"; "c2"]) customer
              naming_only 0%nat
              {| Candidate.signals := [("naming_exact", F64.one)];
                 Candidate.reasons := ["exact FK naming"];
                 Candidate.score := F64.one;
                 Candidate.confidence := "high";
                 Candidate.detected_by := "naming" |})
    as (top & Hin & _ & Hby & _).
  - vm_compute. reflexivity.
  - exists top. split; [exact Hin | by rewrite <- Hby].
Defined.

Lemma exact_naming_decides_witness :
  ∃ cand,
    (_score_candidate (H := example_runtime) "orders"
       (text_column "customer_id" ["c1"; "c2"; "c1"]) orders
       "customers" (text_column "name" ["ann"; "bob"; "cy"]) customers
       naming_only 0%nat).1 = Some cand ∧
    Candidate.score cand = F64.one.
Proof.
  destruct (exact_naming_decides (H := example_runtime) "orders"
              (text_column "customer_id" ["c1"; "c2"; "c1"]) orders
              "customers" (text_column "name" ["ann"; "bob"; "cy"]) customers
              naming_only 0%nat) as (cand & Hc & Hs & _).
  - reflexivity.
  - reflexivity.
  - reflexivity.
  - exists cand. split; [exact Hc | exact Hs].
Defined.

(** ** Comparisons of binary64 values *)

Lemma lit_85 : F64.lit 85 100 = S754_finite false 7656119366529843 (-53).
Proof. vm_compute. reflexivity. Qed.

Lemma lit_55 : F64.lit 55 100 = S754_finite false 4953959590107546 (-53).
Proof. vm_compute. reflexivity. Qed.

Lemma SFleb_finite_pos (m1 m2 : positive) (e1 e2 : Z) :
  SFleb (S754_finite false m1 e1) (S754_finite false m2 e2) = true ↔
  (e1 < e2 ∨ (e1 = e2 ∧ (m1 <= m2)%positive)).
Proof.
  unfold SFleb. cbn [SFcompare].
  destruct (Z.compare_spec e1 e2) as [->|Hlt|Hgt].
  - change (Pos.compare_cont Eq m1 m2) with (Pos.compare m1 m2).
    destruct (Pos.compare_spec m1 m2) as [->|Hm|Hm].
    + split; [intros _; right; split; [reflexivity | apply Pos.le_refl] | reflexivity].
    + split; [intros _; right; split; [reflexivity | apply Pos.lt_le_incl, Hm] | reflexivity].
    + split; [discriminate|]. intros [Hl | [_ Hl]].
      * exfalso. apply (Z.lt_irrefl _ Hl).
      * exfalso. apply Pos.le_nlt in Hl. apply Hl, Hm.
  - split; [intros _; left; exact Hlt | reflexivity].
  - split; [discriminate|]. intros [Hl | [-> _]].
    + exfalso. apply (Z.lt_irrefl e1). apply (Z.lt_trans _ _ _ Hl Hgt).
    + exfalso. apply (Z.lt_irrefl _ Hgt).
Qed.

Lemma geb_high_medium (x : spec_float) :
  F64.geb x (F64.lit 85 100) = true → F64.geb x (F64.lit 55 100) = true.
Proof.
  unfold F64.geb. rewrite lit_85, lit_55.
  destruct x as [s|s| |s m e]; [exact id | destruct s; exact id | exact id |].
  destruct s; [exact id|].
  rewrite !SFleb_finite_pos. intros [Hl | [<- Hl]]; [by left|].
  right. split; [reflexivity|].
  eapply Pos.le_trans; [|exact Hl].
  apply Pos.leb_le. vm_compute. reflexivity.
Qed.

Lemma SFcompare_antisym (x y : spec_float) :
  SFcompare y x = CompOpp <$> SFcompare x y.
Proof.
  destruct x as [s1|s1| |s1 m1 e1], y as [s2|s2| |s2 m2 e2];
    try reflexivity; try (by destruct s1); try (by destruct s2);
    try (by destruct s1, s2).
  cbn [SFcompare fmap option_fmap option_map].
  pose proof (Pos.compare_cont_antisym m1 m2 Eq) as Hm. cbn [CompOpp] in Hm.
  destruct s1, s2; try reflexivity; rewrite (Z.compare_antisym e1 e2);
    destruct (Z.compare e1 e2); try reflexivity; cbn [CompOpp]; rewrite <- Hm;
    by destruct (Pos.compare_cont Eq m1 m2).
Qed.

Lemma SFcompare_opp (x y : spec_float) :
  SFcompare (SFopp x) (SFopp y) = SFcompare y x.
Proof.
  destruct x as [s1|s1| |s1 m1 e1], y as [s2|s2| |s2 m2 e2];
    try reflexivity; try (by destruct s1); try (by destruct s2);
    try (by destruct s1, s2).
  cbn [SFcompare SFopp negb].
  pose proof (Pos.compare_cont_antisym m1 m2 Eq) as Hm. cbn [CompOpp] in Hm.
  destruct s1, s2; cbn [negb]; try reflexivity; rewrite (Z.compare_antisym e1 e2);
    destruct (Z.compare e1 e2); try reflexivity; cbn [CompOpp]; rewrite <- Hm;
    by destruct (Pos.compare_cont Eq m1 m2).
Qed.

Lemma ltb_asym (x y : spec_float) : F64.ltb x y = true → F64.ltb y x = false.
Proof.
  unfold F64.ltb, SFltb. rewrite (SFcompare_antisym x y).
  by destruct (SFcompare x y) as [[]|].
Qed.

Lemma ltb_neg (x y : spec_float) : F64.ltb (F64.neg x) (F64.neg y) = F64.ltb y x.
Proof. unfold F64.ltb, F64.neg, SFltb. by rewrite SFcompare_opp. Qed.

(** ** The order of the sort *)

Lemma sort_key_lt_asym (a b : relationship) :
  sort_key_lt a b = true → sort_key_lt b a = false.
Proof.
  unfold sort_key_lt.
  destruct (Z.eqb_spec (- conf_rank (confidence a) 0) (- conf_rank (confidence b) 0))
    as [E|E].
  - rewrite E, Z.eqb_refl. apply ltb_asym.
  - destruct (Z.eqb_spec (- conf_rank (confidence b) 0) (- conf_rank (confidence a) 0));
      [congruence|].
    intros Hlt%Z.ltb_lt. apply Z.ltb_ge. lia.
Qed.

Lemma in_key_order_cons (a b : relationship) (rest : list relationship) :
  in_key_order (a :: b :: rest) = negb (sort_key_lt b a) && in_key_order (b :: rest).
Proof. reflexivity. Qed.

Lemma insert_sorted_head (x : relationship) (l : list relationship) :
  ∃ rest, insert_sorted x l = x :: rest ∨
          ∃ y rest', l = y :: rest' ∧ insert_sorted x l = y :: rest.
Proof.
  destruct l as [|y l]; [exists []; by left|]. cbn [insert_sorted].
  destruct (sort_key_lt y x).
  - exists (insert_sorted x l). right. by exists y, l.
  - exists (y :: l). by left.
Qed.

Lemma insert_sorted_in_key_order (x : relationship) (l : list relationship) :
  in_key_order l = true → in_key_order (insert_sorted x l) = true.
Proof.
  induction l as [|y l IH]; [done|]. intros Hl. cbn [insert_sorted].
  destruct (sort_key_lt y x) eqn:E.
  - assert (in_key_order l = true) as Hl'.
    { destruct l as [|z l]; [done|]. rewrite in_key_order_cons in Hl.
      by apply andb_prop in Hl as [_ ?]. }
    specialize (IH Hl').
    destruct (insert_sorted_head x l) as (rest & [Eh | (z & rest' & -> & Eh)]);
      rewrite Eh in IH |- *; rewrite in_key_order_cons, IH, andb_true_r.
    + by rewrite (sort_key_lt_asym _ _ E).
    + rewrite in_key_order_cons in Hl. by apply andb_prop in Hl as [? _].
  - by rewrite in_key_order_cons, E, Hl.
Qed.

Lemma sort_results_in_key_order (l : list relationship) :
  in_key_order (sort_results l) = true.
Proof.
  induction l as [|x l IH]; [done|]. by apply insert_sorted_in_key_order.
Qed.

Lemma in_key_order_lookup (l : list relationship) (i : nat) (a b : relationship) :
  in_key_order l = true → l !! i = Some a → l !! S i = Some b →
  sort_key_lt b a = false.
Proof.
  revert i. induction l as [|x l IH]; intros i Hl Ha Hb; [done|].
  destruct l as [|y l]; [done|].
  rewrite in_key_order_cons in Hl. apply andb_prop in Hl as [Hxy Hl].
  destruct i as [|i].
  - injection Ha as <-. injection Hb as <-. by apply negb_true_iff.
  - by apply (IH i).
Qed.

Lemma sort_key_lt_false (a b : relationship) :
  sort_key_lt b a = false →
  conf_rank (confidence b) 0 ≤ conf_rank (confidence a) 0 ∧
  (conf_rank (confidence a) 0 = conf_rank (confidence b) 0 →
   F64.ltb (score a) (score b) = false).
Proof.
  unfold sort_key_lt.
  destruct (Z.eqb_spec (- conf_rank (confidence b) 0) (- conf_rank (confidence a) 0))
    as [E|E].
  - rewrite ltb_neg. intros Hlt. split; [lia | done].
  - intros Hlt%Z.ltb_ge. split; [lia | intros; lia].
Qed.

Ltac in_list := repeat first [apply list_elem_of_here | apply list_elem_of_further].

Section MoreSearchProperties.
Context `{Runtime}.

(** ** Loops that keep an invariant *)

Lemma for_each_invariant {A S} (I : S → Prop) (xs : list A) (body : S → A → M S)
    (st : S) (g : rng_state) :
  I st → (∀ st x g, x ∈ xs → I st → I (body st x g).1) →
  I (for_each xs body st g).1.
Proof.
  revert st g. induction xs as [|x xs IH]; intros st g Hst Hbody; [done|].
  cbn [for_each]. unfold bind. destruct (body st x g) as [st' g'] eqn:E.
  apply IH.
  - specialize (Hbody st x g ltac:(left) Hst). by rewrite E in Hbody.
  - intros st0 y g0 Hy. apply Hbody. by right.
Qed.

Lemma best_target_from t1 col1 df1 t2 df2 flags target_cols g cand name :
  (best_target t1 col1 df1 t2 df2 flags target_cols g).1 = Some (cand, name) →
  ∃ col2 g', col2 ∈ target_cols ∧ s_name col2 = name ∧
             (_score_candidate t1 col1 df1 t2 col2 df2 flags g').1 = Some cand.
Proof.
  unfold best_target.
  set (I := λ b : option (Candidate.t * string),
         ∀ cand name, b = Some (cand, name) →
           ∃ col2 g', col2 ∈ target_cols ∧ s_name col2 = name ∧
             (_score_candidate t1 col1 df1 t2 col2 df2 flags g').1 = Some cand).
  intros Hb. revert cand name Hb. change (I (for_each target_cols
    (λ best_so_far col2,
       bind (_score_candidate t1 col1 df1 t2 col2 df2 flags)
         (λ result, ret match result, best_so_far with
                        | None, _ => best_so_far
                        | Some r, None => Some (r, s_name col2)
                        | Some r, Some (best_result, _) =>
                            if F64.gtb (Candidate.score r) (Candidate.score best_result)
                            then Some (r, s_name col2) else best_so_far
                        end)) None g).1).
  apply for_each_invariant; [done|].
  intros b col2 g0 Hcol Hb. unfold bind, ret.
  destruct (_score_candidate t1 col1 df1 t2 col2 df2 flags g0) as [result g1] eqn:E.
  simpl. destruct result as [r|]; [|done].
  assert (∀ cand name, Some (r, s_name col2) = Some (cand, name) →
            ∃ col2' g', col2' ∈ target_cols ∧ s_name col2' = name ∧
              (_score_candidate t1 col1 df1 t2 col2' df2 flags g').1 = Some cand) as Hnew.
  { intros cand name [= <- <-]. exists col2, g0. by rewrite E. }
  destruct b as [[best_result ?]|]; [|done].
  destruct (F64.gtb _ _); done.
Qed.

Lemma consider_cases (min_rank : Z) (t1 col1 t2 : string)
    (found : option (Candidate.t * string)) (st : search_state) :
  consider min_rank t1 col1 t2 found st = st ∨
  ∃ cand name,
    found = Some (cand, name) ∧
    min_rank ≤ conf_rank (Candidate.confidence cand) 0 ∧
    consider min_rank t1 col1 t2 found st =
      {| results := results st ++ [relationship_of t1 col1 t2 name cand];
         seen := {[rel_key_of t1 col1 t2]} ∪ seen st;
         best := <[col_key_of t1 col1 := Candidate.score cand]> (best st) |}.
Proof.
  unfold consider. destruct found as [[cand name]|]; [|by left].
  destruct (_ <? _) eqn:E; [by left|]. apply Z.ltb_ge in E.
  destruct (match best st !! _ with Some _ => _ | None => _ end); [by left|].
  right. by exists cand, name.
Qed.

(** ** The state of the search *)

Lemma scan_target_reports tables min_rank flags t1 df1 col1 st entry2 g :
  (t1, df1) ∈ tables → col1 ∈ df_columns df1 →
  str_in (s_name col1) (s_name <$> pk_columns df1) = false →
  entry2 ∈ tables →
  Forall (reported_from tables flags min_rank) (results st) →
  Forall (reported_from tables flags min_rank)
    (results (scan_target min_rank flags t1 df1 col1 (too_large_table df1) st entry2 g).1).
Proof.
  intros Ht1 Hc1 Hpk Ht2 Hst. unfold scan_target. destruct entry2 as [t2 df2].
  destruct (String.eqb t2 t1) eqn:Et; [done|]. apply String.eqb_neq in Et.
  case_decide; [done|]. unfold bind, ret.
  destruct (best_target _ _ _ _ _ _ _ g) as [found g'] eqn:Eb. simpl.
  destruct (consider_cases min_rank t1 (s_name col1) t2 found st)
    as [-> | (cand & name & -> & Hrank & ->)]; [done|].
  simpl. apply Forall_app. split; [done|]. apply Forall_singleton.
  pose proof (best_target_from t1 col1 df1 t2 df2 flags
                (target_columns (too_large_table df1) df2) g cand name) as Hfrom.
  rewrite Eb in Hfrom. destruct (Hfrom eq_refl) as (col2 & g2 & Hc2 & <- & Hs).
  by exists t1, df1, col1, t2, df2, col2, cand, g2.
Qed.

Lemma detect_fks_state_reports tables min_rank flags g :
  Forall (reported_from tables flags min_rank)
    (results (for_each tables (scan_table tables min_rank flags)
                {| results := []; seen := ∅; best := ∅ |} g).1).
Proof.
  apply (for_each_invariant
           (λ st, Forall (reported_from tables flags min_rank) (results st)));
    [by apply Forall_nil|].
  intros st [t1 df1] g1 Ht1 Hst. unfold scan_table.
  destruct (_ && _); [done|].
  apply (for_each_invariant
           (λ st, Forall (reported_from tables flags min_rank) (results st))); [done|].
  intros st2 col1 g2 Hc1 Hst2. unfold scan_column.
  destruct (str_in _ _) eqn:Hpk; [done|].
  apply (for_each_invariant
           (λ st, Forall (reported_from tables flags min_rank) (results st))); [done|].
  intros st3 entry2 g3 Ht2 Hst3.
  by apply scan_target_reports.
Qed.

(** ** The sort *)

Lemma insert_sorted_perm (x : relationship) (l : list relationship) :
  insert_sorted x l ≡ₚ x :: l.
Proof.
  induction l as [|y l IH]; [done|]. simpl. destruct (sort_key_lt y x); [|done].
  rewrite IH. apply Permutation_swap.
Qed.

Lemma sort_results_perm (l : list relationship) : sort_results l ≡ₚ l.
Proof.
  induction l as [|x l IH]; [done|]. unfold sort_results in *. simpl.
  by rewrite insert_sorted_perm, IH.
Qed.

Lemma detect_fks_reports tables method min_confidence enable_flags g r :
  r ∈ (detect_fks tables method min_confidence enable_flags g).1 →
  reported_from tables (_build_flags method enable_flags)
                (conf_rank min_confidence 1) r.
Proof.
  unfold detect_fks. destruct (_ || _); [by intros ?%elem_of_nil|].
  unfold bind, ret.
  pose proof (detect_fks_state_reports tables (conf_rank min_confidence 1)
                (_build_flags method enable_flags) g) as Hall.
  destruct (for_each _ _ _ g) as [st g'] eqn:E. simpl in *.
  rewrite sort_results_perm. intros Hr.
  by apply (proj1 (Forall_forall _ _) Hall).
Qed.

(** ** What every reported relationship satisfies *)




Lemma confidence_of_rank (s : spec_float) :
  (confidence_of s = "high" ∧ F64.geb s (F64.lit 85 100) = true) ∨
  (confidence_of s = "medium" ∧ F64.geb s (F64.lit 85 100) = false ∧
   F64.geb s (F64.lit 55 100) = true) ∨
  (confidence_of s = "low" ∧ F64.geb s (F64.lit 85 100) = false ∧
   F64.geb s (F64.lit 55 100) = false).
Proof.
  unfold confidence_of. destruct (F64.geb s (F64.lit 85 100)); [by left|].
  destruct (F64.geb s (F64.lit 55 100)); [right; by left | right; by right].
Qed.

(** X11: every relationship that [detect_fks] returns carries a tier that
    is the tier of its score and passes the minimal confidence, and a score
    that is the composite score of its signals; so with the minimal
    confidence ["high"] every score is at least 0.85, and with ["medium"],
    or with a string that is no tier, at least 0.55. *)
Theorem detect_fks_confidence
    (tables : list (string * DataFrame)) (method min_confidence : string)
    (enable_flags : option (gmap string bool)) (g : rng_state) (r : relationship) :
  r ∈ (detect_fks tables method min_confidence enable_flags g).1 →
  confidence r = confidence_of (score r) ∧
  score r = noisy_or (signals r).*1 ∧
  conf_rank min_confidence 1 ≤ conf_rank (confidence r) 0 ∧
  (min_confidence = "high" → F64.geb (score r) (F64.lit 85 100) = true) ∧
  (min_confidence ≠ "low" → F64.geb (score r) (F64.lit 55 100) = true).
Proof.
  intros Hr. apply detect_fks_reports in Hr
    as (t1 & df1 & col1 & t2 & df2 & col2 & cand & g' &
        _ & _ & _ & _ & _ & _ & Hs & Hrank & ->).
  cbn [confidence score signals relationship_of].
  destruct (score_candidate_keys_in_order _ _ _ _ _ _ _ _ _ Hs) as [_ Hscore].
  destruct (score_candidate_summarizes _ _ _ _ _ _ _ _ _ Hs) as (_ & ev & Hsum).
  destruct (summarize_confidence _ _ Hsum) as [Hconf _].
  split; [done|]. split; [done|]. split; [done|].
  rewrite Hconf in Hrank.
  destruct (confidence_of_rank (Candidate.score cand))
    as [[E Hhi] | [(E & Hhi & Hmed) | (E & Hhi & Hmed)]]; rewrite E in Hrank.
  - split; [done|]. intros _. by apply geb_high_medium.
  - split.
    + intros ->. exfalso. vm_compute in Hrank. apply Hrank. reflexivity.
    + done.
  - split.
    + intros ->. exfalso. vm_compute in Hrank. apply Hrank. reflexivity.
    + intros Hlow. exfalso.
      assert (1 ≤ conf_rank min_confidence 1) as Hge.
      { unfold conf_rank, CONF_RANK. cbn [dict_get].
        apply String.eqb_neq in Hlow. rewrite Hlow.
        destruct (String.eqb min_confidence "medium"); [lia|].
        destruct (String.eqb min_confidence "high"); lia. }
      change (conf_rank "low" 0) with 0 in Hrank. lia.
Qed.

Lemma detect_fks_results tables method min_confidence enable_flags g :
  (detect_fks tables method min_confidence enable_flags g).1 = [] ∨
  (detect_fks tables method min_confidence enable_flags g).1 =
    sort_results
      (results (for_each tables
                  (scan_table tables (conf_rank min_confidence 1)
                     (_build_flags method enable_flags))
                  {| results := []; seen := ∅; best := ∅ |} g).1).
Proof.
  unfold detect_fks. destruct (_ || _); [by left|]. right.
  unfold bind, ret. by destruct (for_each _ _ _ g).
Qed.

(** X12: the list that [detect_fks] returns is in the order of the tiers,
    high before medium before low, and inside a tier no relationship has a
    smaller score than its successor. *)
Theorem detect_fks_sorted
    (tables : list (string * DataFrame)) (method min_confidence : string)
    (enable_flags : option (gmap string bool)) (g : rng_state)
    (i : nat) (a b : relationship) :
  (detect_fks tables method min_confidence enable_flags g).1 !! i = Some a →
  (detect_fks tables method min_confidence enable_flags g).1 !! S i = Some b →
  conf_rank (confidence b) 0 ≤ conf_rank (confidence a) 0 ∧
  (conf_rank (confidence a) 0 = conf_rank (confidence b) 0 →
   F64.ltb (score a) (score b) = false).
Proof.
  destruct (detect_fks_results tables method min_confidence enable_flags g) as [-> | ->];
    [done|].
  intros Ha Hb. apply sort_key_lt_false.
  eapply in_key_order_lookup; [apply sort_results_in_key_order | exact Ha | exact Hb].
Qed.

Lemma search_invariant (I : search_state → Prop) tables min_rank flags g :
  I {| results := []; seen := ∅; best := ∅ |} →
  (∀ st t1 df1 col1 too_large entry2 g, I st →
     I (scan_target min_rank flags t1 df1 col1 too_large st entry2 g).1) →
  I (for_each tables (scan_table tables min_rank flags)
       {| results := []; seen := ∅; best := ∅ |} g).1.
Proof.
  intros Hinit Hstep. apply for_each_invariant; [done|].
  intros st [t1 df1] g1 _ Hst. unfold scan_table.
  destruct (_ && _); [done|].
  apply for_each_invariant; [done|].
  intros st2 col1 g2 _ Hst2. unfold scan_column.
  destruct (str_in _ _); [done|].
  apply for_each_invariant; [done|].
  intros st3 e g3 _ Hst3. by apply Hstep.
Qed.

Lemma scan_target_keys min_rank flags t1 df1 col1 too_large st entry2 g :
  NoDup (rel_key <$> results st) ∧ (∀ r, r ∈ results st → rel_key r ∈ seen st) →
  let st' := (scan_target min_rank flags t1 df1 col1 too_large st entry2 g).1 in
  NoDup (rel_key <$> results st') ∧ (∀ r, r ∈ results st' → rel_key r ∈ seen st').
Proof.
  intros [Hnd Hseen]. unfold scan_target. destruct entry2 as [t2 df2].
  destruct (String.eqb t2 t1); [done|].
  case_decide as Hkey; [done|]. unfold bind, ret.
  destruct (best_target _ _ _ _ _ _ _ g) as [found g'] eqn:Eb. cbn [fst].
  destruct (consider_cases min_rank t1 (s_name col1) t2 found st)
    as [-> | (cand & name & -> & Hrank & ->)]; [done|].
  cbn [results seen]. split.
  - rewrite fmap_app. apply NoDup_app. split; [done|]. split; [|apply NoDup_singleton].
    intros k Hk Hin. apply list_elem_of_singleton in Hin.
    apply list_elem_of_fmap in Hk as (r & Er & Hr). apply Hkey.
    rewrite Hin in Er. unfold rel_key at 1 in Er. cbn [from_table from_col to_table relationship_of] in Er.
    rewrite Er. by apply Hseen.
  - intros r [Hr | ->%list_elem_of_singleton]%elem_of_app.
    + apply elem_of_union_r. by apply Hseen.
    + apply elem_of_union_l. by apply elem_of_singleton.
Qed.

(** X13: [detect_fks] returns at most one relationship for a source column
    and a target table: no two relationships of the list have the same
    [from_table], [from_col] and [to_table]. *)
Theorem detect_fks_one_per_column_and_target
    (tables : list (string * DataFrame)) (method min_confidence : string)
    (enable_flags : option (gmap string bool)) (g : rng_state) :
  NoDup (endpoints3 <$> (detect_fks tables method min_confidence enable_flags g).1).
Proof.
  destruct (detect_fks_results tables method min_confidence enable_flags g) as [-> | ->];
    [apply NoDup_nil_2|].
  rewrite (fmap_Permutation _ _ _ (sort_results_perm _)).
  apply (NoDup_fmap_1 (λ '(t1, c1, t2), rel_key_of t1 c1 t2)).
  rewrite <- list_fmap_compose.
  apply (search_invariant
           (λ st, NoDup (rel_key <$> results st) ∧
                  (∀ r, r ∈ results st → rel_key r ∈ seen st))).
  - split; [apply NoDup_nil_2 | by intros r ?%elem_of_nil].
  - intros st t1 df1 col1 too_large entry2 g1. apply scan_target_keys.
Qed.

(** ** Searches without the content signals *)

Lemma for_each_fixed {A S} (xs : list A) (body : S → A → M S) (st : S) (g : rng_state) :
  (∀ x g, x ∈ xs → body st x g = (st, g)) → for_each xs body st g = (st, g).
Proof.
  revert g. induction xs as [|x xs IH]; intros g Hbody; [done|].
  cbn [for_each]. unfold bind. rewrite Hbody by left.
  apply IH. intros y g' Hy. apply Hbody. by right.
Qed.

Lemma score_candidate_content_off t1 col1 df1 t2 col2 df2 flags g :
  (∀ k, k ∈ CONTENT_FLAGS → flag flags k = false) →
  _score_candidate t1 col1 df1 t2 col2 df2 flags g =
    (if negb (String.eqb (_col_dtype_class col1) (_col_dtype_class col2)) then None
     else summarize (naming_signal flags (s_name col1) t2 (s_name col2) ([], [])), g).
Proof.
  intros Hoff. unfold _score_candidate.
  destruct (negb _); [done|].
  unfold overlap_signal, cardinality_signal, format_signal, distribution_signal, null_signal.
  rewrite !Hoff by (unfold CONTENT_FLAGS; in_list). done.
Qed.

Lemma detect_fks_of_scans tables method min_confidence enable_flags g :
  (∀ st t1 df1 col1 too_large entry2 g,
     scan_target (conf_rank min_confidence 1) (_build_flags method enable_flags)
       t1 df1 col1 too_large st entry2 g = (st, g)) →
  detect_fks tables method min_confidence enable_flags g = ([], g).
Proof.
  intros Hscan. unfold detect_fks. destruct (_ || _); [done|].
  unfold bind. rewrite for_each_fixed; [done|].
  intros [t1 df1] g1 _. unfold scan_table. destruct (_ && _); [done|].
  apply for_each_fixed. intros col1 g2 _. unfold scan_column.
  destruct (str_in _ _); [done|].
  apply for_each_fixed. intros entry2 g3 _. apply Hscan.
Qed.

(** X14: with the flag of every signal off, which is what a method that is
    none of naming, content, both, all and uniqueness gives without
    overrides, [detect_fks] returns no relationship and leaves the random
    generator where it is. *)
Theorem detect_fks_without_signals
    (tables : list (string * DataFrame)) (method min_confidence : string)
    (enable_flags : option (gmap string bool)) (g : rng_state) :
  (∀ k, k ∈ SIGNAL_FLAGS → flag (_build_flags method enable_flags) k = false) →
  detect_fks tables method min_confidence enable_flags g = ([], g).
Proof.
  intros Hoff. apply detect_fks_of_scans.
  intros st t1 df1 col1 too_large [t2 df2] g1. unfold scan_target.
  destruct (String.eqb t2 t1); [done|]. case_decide; [done|].
  unfold bind, best_target. rewrite for_each_fixed; [done|].
  intros col2 g2 _. unfold bind.
  rewrite score_candidate_content_off
    by (intros k Hk; apply Hoff; by apply list_elem_of_further).
  unfold naming_signal. rewrite Hoff by (unfold SIGNAL_FLAGS; in_list).
  by destruct (negb _).
Qed.

Lemma naming_candidate flags col1 t2 col2 cand :
  summarize (naming_signal flags col1 t2 col2 ([], [])) = Some cand →
  (is_fk_for (clean_name col1) (clean_name t2) = true ∧
   Candidate.signals cand = [("naming_exact", F64.one)] ∧
   Candidate.score cand = F64.one ∧ Candidate.confidence cand = "high" ∧
   Candidate.detected_by cand = "naming") ∨
  (is_fk_for (clean_name col1) (clean_name t2) = false ∧
   (∃ k sim, Candidate.signals cand = [(k, sim)] ∧
      sim = _jaro_winkler (sim_stem (clean_name col1)) (sim_stem (clean_name col2)) ∧
      ((k = "name_sim" ∧ F64.geb sim NAME_SIM_HIGH = true ∧
        Candidate.score cand = F64.lit 6 10 ∧ Candidate.confidence cand = "medium") ∨
       (k = "name_sim_weak" ∧ F64.geb sim NAME_SIM_HIGH = false ∧
        F64.geb sim NAME_SIM_MED = true ∧
        Candidate.score cand = F64.lit 25 100 ∧ Candidate.confidence cand = "low"))) ∧
   Candidate.detected_by cand = "name_similarity").
Proof.
  unfold naming_signal. destruct (flag flags "naming"); [|done].
  destruct (is_fk_for _ _) eqn:Efk.
  - intros [= <-]. left. split; [done|]. cbn [Candidate.signals Candidate.score
      Candidate.confidence Candidate.detected_by fire fst snd app].
    repeat split; by vm_compute.
  - destruct (F64.geb _ NAME_SIM_HIGH) eqn:Ehigh.
    + intros [= <-]. right. split; [done|]. split; [|by vm_compute].
      eexists _, _. split; [reflexivity|]. split; [reflexivity|]. left.
      repeat split; try done; by vm_compute.
    + destruct (F64.geb _ NAME_SIM_MED) eqn:Emed; [|done].
      intros [= <-]. right. split; [done|]. split; [|by vm_compute].
      eexists _, _. split; [reflexivity|]. split; [reflexivity|]. right.
      repeat split; try done; by vm_compute.
Qed.

(** X15: with the flags of the content signals off, which is what the
    method naming gives without overrides, every relationship that
    [detect_fks] returns rests on one naming signal: it has the score 1.0
    and the tier high when the cleaned source column is a foreign key name
    for the cleaned target table, and otherwise the score 0.6 and the tier
    medium, or the score 0.25 and the tier low, by the similarity of the
    stems of the two column names. *)
Theorem detect_fks_naming_only
    (tables : list (string * DataFrame)) (method min_confidence : string)
    (enable_flags : option (gmap string bool)) (g : rng_state) (r : relationship) :
  (∀ k, k ∈ CONTENT_FLAGS → flag (_build_flags method enable_flags) k = false) →
  r ∈ (detect_fks tables method min_confidence enable_flags g).1 →
  let sim := _jaro_winkler (sim_stem (clean_name (from_col r)))
                           (sim_stem (clean_name (to_col r))) in
  if is_fk_for (clean_name (from_col r)) (clean_name (to_table r)) then
    signals r = [("naming_exact", F64.one)] ∧ score r = F64.one ∧
    confidence r = "high" ∧ detected_by r = "naming"
  else
    detected_by r = "name_similarity" ∧
    ((signals r = [("name_sim", sim)] ∧ F64.geb sim NAME_SIM_HIGH = true ∧
      score r = F64.lit 6 10 ∧ confidence r = "medium") ∨
     (signals r = [("name_sim_weak", sim)] ∧ F64.geb sim NAME_SIM_HIGH = false ∧
      F64.geb sim NAME_SIM_MED = true ∧
      score r = F64.lit 25 100 ∧ confidence r = "low")).
Proof.
  intros Hoff Hr. apply detect_fks_reports in Hr
    as (t1 & df1 & col1 & t2 & df2 & col2 & cand & g' &
        _ & _ & _ & _ & _ & _ & Hs & _ & ->).
  cbn [from_col to_col to_table signals score confidence detected_by relationship_of].
  rewrite score_candidate_content_off in Hs by done. cbn [fst] in Hs.
  destruct (negb _); [done|].
  apply naming_candidate in Hs
    as [(-> & ? & ? & ? & ?) | (-> & (k & sim & Hsig & -> & Hk) & ?)]; [done|].
  split; [done|].
  destruct Hk as [(-> & ? & ? & ?) | (-> & ? & ? & ? & ?)];
    [left | right]; repeat split; assumption.
Qed.

End MoreSearchProperties.

Lemma elem_of_computed {A} (x : A) (l : list A) : l = [x] → x ∈ l.
Proof. intros ->. apply list_elem_of_here. Qed.


Lemma detect_fks_confidence_witness :
  confidence orders_customer_rel = confidence_of (score orders_customer_rel) ∧
  score orders_customer_rel = noisy_or (signals orders_customer_rel).*1 ∧
  conf_rank "high" 1 ≤ conf_rank (confidence orders_customer_rel) 0 ∧
  ("high" = "high" → F64.geb (score orders_customer_rel) (F64.lit 85 100) = true) ∧
  ("high" ≠ "low" → F64.geb (score orders_customer_rel) (F64.lit 55 100) = true).
Proof.
  apply (detect_fks_confidence (H := example_runtime)
           [("orders", orders); ("customer", customer)] "both" "high"
           (Some naming_only) 0%nat orders_customer_rel).
  apply elem_of_computed. vm_compute. reflexivity.
Defined.

Lemma detect_fks_sorted_witness :
  ∃ a b,
    (to_table a, score a) = ("customer", F64.one) ∧
    (to_table b, score b) = ("clients", F64.lit 96 100) ∧
    conf_rank (confidence b) 0 ≤ conf_rank (confidence a) 0 ∧
    (conf_rank (confidence a) 0 = conf_rank (confidence b) 0 →
     F64.ltb (score a) (score b) = false).
Proof.
  pose (out := (detect_fks (H := example_runtime)
                  [("orders", orders); ("customer", customer); ("clients", clients);
                   ("buyers", buyers)]
                  "both" "low" (Some naming_and_overlap) 0%nat).1).
  destruct (out !! 0%nat) as [a|] eqn:Ea; [|vm_compute in Ea; discriminate Ea].
  destruct (out !! 1%nat) as [b|] eqn:Eb; [|vm_compute in Eb; discriminate Eb].
  exists a, b.
  split; [vm_compute in Ea; injection Ea as <-; vm_compute; reflexivity|].
  split; [vm_compute in Eb; injection Eb as <-; vm_compute; reflexivity|].
  exact (detect_fks_sorted (H := example_runtime) _ _ _ _ _ 0%nat a b Ea Eb).
Defined.

Lemma detect_fks_without_signals_witness :
  detect_fks (H := example_runtime) [("orders", orders); ("customer", customer)]
             "typo" "low" None 0%nat = ([], 0%nat).
Proof.
  apply (detect_fks_without_signals (H := example_runtime)).
  intros k Hk. unfold SIGNAL_FLAGS in Hk.
  repeat (apply elem_of_cons in Hk as [-> | Hk]; [vm_compute; reflexivity|]).
  by apply elem_of_nil in Hk.
Defined.

Lemma detect_fks_naming_only_witness :
  signals orders_customer_rel = [("naming_exact", F64.one)] ∧
  score orders_customer_rel = F64.one ∧
  confidence orders_customer_rel = "high" ∧ detected_by orders_customer_rel = "naming".
Proof.
  apply (detect_fks_naming_only (H := example_runtime)
           [("orders", orders); ("customer", customer)] "naming" "medium" None 0%nat
           orders_customer_rel).
  - intros k Hk. unfold CONTENT_FLAGS in Hk.
    repeat (apply elem_of_cons in Hk as [-> | Hk]; [vm_compute; reflexivity|]).
    by apply elem_of_nil in Hk.
  - apply elem_of_computed. vm_compute. reflexivity.
Defined.

(** ** The primary-key detector by uniqueness *)

Lemma List_filter_head {A} (f : A → bool) (l : list A) (x : A) (rest : list A) :
  List.filter f l = x :: rest → x ∈ l ∧ f x = true.
Proof.
  intros E. apply elem_of_List_filter. rewrite E. apply list_elem_of_here.
Qed.

Lemma List_filter_nil {A} (f : A → bool) (l : list A) (x : A) :
  List.filter f l = [] → x ∈ l → f x = false.
Proof.
  intros E Hx. apply not_true_is_false. intros Hf.
  assert (x ∈ List.filter f l) as Hin by (by apply elem_of_List_filter).
  rewrite E in Hin. by apply elem_of_nil in Hin.
Qed.

Lemma unique_choice_sound (n : nat) (cols : list Series) (c : string) :
  match List.filter
          (λ c, re_search_at_end ["_id"; "_key"; "_no"; "_num"; "_code"]
                                 (clean_name (s_name c)))
          (List.filter (unique_not_null n) cols),
        List.filter (unique_not_null n) cols with
  | c :: _, _ => [s_name c]
  | [], c :: _ => [s_name c]
  | [], [] => []
  end = [c] →
  ∃ col, col ∈ cols ∧ s_name col = c ∧ unique_not_null n col = true ∧
    (id_like_name c = false →
     ∀ col', col' ∈ cols → unique_not_null n col' = true →
             id_like_name (s_name col') = false).
Proof.
  destruct (List.filter _ (List.filter _ _)) as [|x xs] eqn:Eid.
  - destruct (List.filter (unique_not_null _) _) as [|y ys] eqn:Eu; [done|].
    intros [= <-]. apply List_filter_head in Eu as Hy. destruct Hy as [Hin Hu].
    exists y. repeat split; try done. intros _ col' Hcol' Hu'.
    apply (List_filter_nil _ _ col' Eid). rewrite <- Eu.
    by apply elem_of_List_filter.
  - intros [= <-]. apply List_filter_head in Eid as [[Hin Hu]%elem_of_List_filter Hid].
    exists x. repeat split; try done. unfold id_like_name. by rewrite Hid.
Qed.

(** X16: a column that [detect_pks] returns is a column of the table.  It
    either follows the naming rule, under a method that reads names, or
    the table has a row and the column has no null and no repeated value,
    under a method that reads values; in the second case a column whose
    cleaned name ends in [_id], [_key], [_no], [_num] or [_code] is
    preferred: a column without such an ending is returned only when no
    unique column has one. *)
Theorem detect_pks_sound (df : DataFrame) (table_name method c : string) :
  detect_pks df table_name method = [c] →
  ∃ col, col ∈ df_columns df ∧ s_name col = c ∧
    ((str_in method ["naming"; "both"] = true ∧ pk_naming_rule c table_name) ∨
     (str_in method ["uniqueness"; "both"; "content"; "all"] = true ∧
      (0 < df_len df)%nat ∧ unique_not_null (df_len df) col = true ∧
      (id_like_name c = false →
       ∀ col', col' ∈ df_columns df → unique_not_null (df_len df) col' = true →
               id_like_name (s_name col') = false))).
Proof.
  unfold detect_pks.
  assert (∀ o : option Series,
            (∀ col, o = Some col →
                    str_in method ["naming"; "both"] = true ∧ col ∈ df_columns df ∧
                    is_pk_name (clean_name (s_name col)) (clean_name table_name) = true) →
            match o with
            | Some col => [s_name col]
            | None =>
                if str_in method ["uniqueness"; "both"; "content"; "all"] &&
                   (0 <? df_len df)%nat
                then
                  match List.filter
                          (λ c, re_search_at_end ["_id"; "_key"; "_no"; "_num"; "_code"]
                                                 (clean_name (s_name c)))
                          (List.filter (unique_not_null (df_len df)) (df_columns df)),
                        List.filter (unique_not_null (df_len df)) (df_columns df) with
                  | c :: _, _ => [s_name c]
                  | [], c :: _ => [s_name c]
                  | [], [] => []
                  end
                else []
            end = [c] →
            ∃ col, col ∈ df_columns df ∧ s_name col = c ∧
              ((str_in method ["naming"; "both"] = true ∧ pk_naming_rule c table_name) ∨
               (str_in method ["uniqueness"; "both"; "content"; "all"] = true ∧
                (0 < df_len df)%nat ∧ unique_not_null (df_len df) col = true ∧
                (id_like_name c = false →
                 ∀ col', col' ∈ df_columns df →
                         unique_not_null (df_len df) col' = true →
                         id_like_name (s_name col') = false)))) as Hcases.
  { intros [col|] Ho.
    - intros [= <-]. destruct (Ho col eq_refl) as (Hm & Hin & Hpk).
      exists col. split; [done|]. split; [done|]. left. split; [done|].
      by apply is_pk_name_spec.
    - destruct (str_in method ["uniqueness"; "both"; "content"; "all"]); [|done].
      destruct (0 <? df_len df)%nat eqn:En; [|done]. apply Nat.ltb_lt in En.
      cbn [andb]. intros (col & Hin & Hname & Hu & Hpref)%unique_choice_sound.
      exists col. split; [done|]. split; [done|]. by right. }
  apply Hcases. intros col Hcol.
  destruct (str_in method ["naming"; "both"]); [|done].
  apply find_some in Hcol as [Hin Hpk]. split; [done|]. split; [|done].
  by apply list_elem_of_In.
Qed.

Lemma detect_pks_sound_witness :
  ∃ col, col ∈ df_columns customer ∧ s_name col = "customer_id" ∧
    ((str_in "content" ["naming"; "both"] = true ∧ pk_naming_rule "customer_id" "customer") ∨
     (str_in "content" ["uniqueness"; "both"; "content"; "all"] = true ∧
      (0 < df_len customer)%nat ∧ unique_not_null (df_len customer) col = true ∧
      (id_like_name "customer_id" = false →
       ∀ col', col' ∈ df_columns customer →
               unique_not_null (df_len customer) col' = true →
               id_like_name (s_name col') = false))).
Proof.
  apply (detect_pks_sound customer "customer" "content" "customer_id").
  vm_compute. reflexivity.
Defined.

(** ** Scores are positive and finite *)

Lemma SFltb_finite_pos (m1 m2 : positive) (e1 e2 : Z) :
  SFltb (S754_finite false m1 e1) (S754_finite false m2 e2) = true ↔
  (e1 < e2 ∨ (e1 = e2 ∧ (m1 < m2)%positive)).
Proof.
  unfold SFltb. cbn [SFcompare].
  destruct (Z.compare_spec e1 e2) as [->|Hlt|Hgt].
  - change (Pos.compare_cont Eq m1 m2) with (Pos.compare m1 m2).
    destruct (Pos.compare_spec m1 m2) as [->|Hm|Hm].
    + split; [discriminate|]. intros [Hl | [_ Hl]].
      * exfalso. apply (Z.lt_irrefl _ Hl).
      * exfalso. apply (Pos.lt_irrefl _ Hl).
    + split; [intros _; right; split; [reflexivity | exact Hm] | reflexivity].
    + split; [discriminate|]. intros [Hl | [_ Hl]].
      * exfalso. apply (Z.lt_irrefl _ Hl).
      * exfalso. apply (Pos.lt_irrefl m1). apply (Pos.lt_trans _ _ _ Hl Hm).
  - split; [intros _; left; exact Hlt | reflexivity].
  - split; [discriminate|]. intros [Hl | [-> _]].
    + exfalso. apply (Z.lt_irrefl e1). apply (Z.lt_trans _ _ _ Hl Hgt).
    + exfalso. apply (Z.lt_irrefl _ Hgt).
Qed.

Lemma lit_2_10_finite : ∃ m e, F64.lit 2 10 = S754_finite false m e.
Proof. eexists _, _. vm_compute. reflexivity. Qed.

Lemma one_finite : ∃ m e, F64.one = S754_finite false m e.
Proof. eexists _, _. vm_compute. reflexivity. Qed.

Lemma between_positive_finite (s : spec_float) :
  F64.leb (F64.lit 2 10) s = true → F64.leb s F64.one = true →
  ∃ m e, s = S754_finite false m e.
Proof.
  destruct lit_2_10_finite as (m2 & e2 & ->). destruct one_finite as (m1 & e1 & ->).
  unfold F64.leb, SFleb.
  destruct s as [sg|sg| |sg m e]; cbn [SFcompare]; try done.
  - by destruct sg.
  - destruct sg; [done|]. intros _. by exists m, e.
Qed.

(** The order on positive finite floats, read on exponent and mantissa. *)
Lemma gtb_trans_strict (a b c : spec_float) :
  (∃ m e, a = S754_finite false m e) → (∃ m e, b = S754_finite false m e) →
  (∃ m e, c = S754_finite false m e) →
  F64.gtb a b = true → F64.gtb b c = true → F64.gtb a c = true.
Proof.
  intros (ma & ea & ->) (mb & eb & ->) (mc & ec & ->). unfold F64.gtb.
  rewrite !SFltb_finite_pos. lia.
Qed.

Lemma gtb_trans_weak (a b c : spec_float) :
  (∃ m e, a = S754_finite false m e) → (∃ m e, b = S754_finite false m e) →
  (∃ m e, c = S754_finite false m e) →
  F64.gtb a b = true → F64.gtb c b = false → F64.gtb a c = true.
Proof.
  intros (ma & ea & ->) (mb & eb & ->) (mc & ec & ->). unfold F64.gtb.
  intros Hab Hcb. apply not_true_iff_false in Hcb.
  rewrite SFltb_finite_pos in Hab, Hcb |- *. lia.
Qed.

Lemma gtb_irrefl (a : spec_float) : F64.gtb a a = false.
Proof.
  unfold F64.gtb. destruct (SFltb a a) eqn:E; [|done].
  pose proof (ltb_asym a a E) as E'. unfold F64.ltb in E'. congruence.
Qed.

Section MoreScanProperties.
Context `{Runtime}.

Lemma candidate_score_finite t1 col1 df1 t2 col2 df2 flags g cand :
  (_score_candidate t1 col1 df1 t2 col2 df2 flags g).1 = Some cand →
  ∃ m e, Candidate.score cand = S754_finite false m e.
Proof.
  intros Hc.
  destruct (score_candidate_keys_in_order _ _ _ _ _ _ _ _ _ Hc) as [Hsub Hscore].
  destruct (score_candidate_summarizes _ _ _ _ _ _ _ _ _ Hc) as (_ & ev & Hs).
  destruct (summarize_keys _ _ Hs) as (first & others & Hk & Hsig & _).
  assert ((Candidate.signals cand).*1 ≠ []) as Hne by (by rewrite Hsig, Hk).
  destruct (score_range_on_spec (sublists SIGNAL_ORDER) _
              score_range_on_signal_order (sublist_in_sublists _ _ Hsub) Hne) as [Hlo Hhi].
  rewrite Hscore. by apply between_positive_finite.
Qed.

Lemma score_candidate_any_state t1 col1 df1 t2 col2 df2 flags g g' :
  _score_candidate t1 col1 df1 t2 col2 df2 flags g' =
    ((_score_candidate t1 col1 df1 t2 col2 df2 flags g).1, g').
Proof.
  destruct (stateless_score_candidate t1 col1 df1 t2 col2 df2 flags) as [a Ha].
  by rewrite (Ha g), (Ha g').
Qed.

Lemma for_each_prefix_invariant {A S} (I : list A → S → Prop) (xs : list A)
    (body : S → A → M S) (st : S) (g : rng_state) :
  I [] st →
  (∀ pre x st g, I pre st → I (pre ++ [x]) (body st x g).1) →
  I xs (for_each xs body st g).1.
Proof.
  intros Hinit Hstep.
  assert (∀ pre st g, I pre st → I (pre ++ xs) (for_each xs body st g).1) as Hgen.
  { clear Hinit st g. induction xs as [|x xs IH]; intros pre st g Hst.
    - by rewrite app_nil_r.
    - cbn [for_each]. unfold bind. destruct (body st x g) as [st' g'] eqn:E.
      rewrite (cons_middle x pre xs), app_assoc. apply IH.
      specialize (Hstep pre x st g Hst). by rewrite E in Hstep. }
  apply (Hgen [] st g Hinit).
Qed.

(** X17: for a source column and a target table, [best_target] keeps the
    candidate of the first target column whose score no other target
    column exceeds: the candidates of the columns before it score less,
    the candidates of the columns after it do not score more; it keeps
    none only when the scorer returns none for every target column. *)
Theorem best_target_is_first_best
    (t1 : string) (col1 : Series) (df1 : DataFrame) (t2 : string) (df2 : DataFrame)
    (flags : gmap string bool) (target_cols : list Series) (g : rng_state) :
  match (best_target t1 col1 df1 t2 df2 flags target_cols g).1 with
  | None =>
      ∀ col2, col2 ∈ target_cols →
              (_score_candidate t1 col1 df1 t2 col2 df2 flags g).1 = None
  | Some (best, name) =>
      ∃ before col2 after,
        target_cols = before ++ col2 :: after ∧ s_name col2 = name ∧
        (_score_candidate t1 col1 df1 t2 col2 df2 flags g).1 = Some best ∧
        (∀ c cand, c ∈ before →
           (_score_candidate t1 col1 df1 t2 c df2 flags g).1 = Some cand →
           F64.gtb (Candidate.score best) (Candidate.score cand) = true) ∧
        (∀ c cand, c ∈ after →
           (_score_candidate t1 col1 df1 t2 c df2 flags g).1 = Some cand →
           F64.gtb (Candidate.score cand) (Candidate.score best) = false)
  end.
Proof.
  unfold best_target.
  set (sc := λ c, (_score_candidate t1 col1 df1 t2 c df2 flags g).1).
  apply (for_each_prefix_invariant
           (λ pre (b : option (Candidate.t * string)),
              match b with
              | None => ∀ col2, col2 ∈ pre → sc col2 = None
              | Some (best, name) =>
                  ∃ before col2 after,
                    pre = before ++ col2 :: after ∧ s_name col2 = name ∧
                    sc col2 = Some best ∧
                    (∀ c cand, c ∈ before → sc c = Some cand →
                       F64.gtb (Candidate.score best) (Candidate.score cand) = true) ∧
                    (∀ c cand, c ∈ after → sc c = Some cand →
                       F64.gtb (Candidate.score cand) (Candidate.score best) = false)
              end)).
  { by intros col2 ?%elem_of_nil. }
  intros pre x b g0 Hb. unfold bind, ret.
  rewrite (score_candidate_any_state _ _ _ _ _ _ _ g g0). fold (sc x). cbn [fst].
  destruct (sc x) as [r|] eqn:Ex.
  - assert (∃ m e, Candidate.score r = S754_finite false m e) as Hr
      by (by apply (candidate_score_finite t1 col1 df1 t2 x df2 flags g)).
    destruct b as [[best name]|].
    + destruct Hb as (before & col2 & after & -> & Hname & Hbest & Hbefore & Hafter).
      assert (∃ m e, Candidate.score best = S754_finite false m e) as Hfin
        by (by apply (candidate_score_finite t1 col1 df1 t2 col2 df2 flags g)).
      destruct (F64.gtb (Candidate.score r) (Candidate.score best)) eqn:Egt.
      * exists (before ++ col2 :: after), x, []. repeat split; try done.
        -- intros c cand Hc Hcand.
           assert (∃ m e, Candidate.score cand = S754_finite false m e) as Hcf
             by (by apply (candidate_score_finite t1 col1 df1 t2 c df2 flags g)).
           apply elem_of_app in Hc as [Hc | Hc].
           ++ apply (gtb_trans_strict _ (Candidate.score best)); try done.
              by apply (Hbefore c).
           ++ apply elem_of_cons in Hc as [-> | Hc].
              ** rewrite Hbest in Hcand. by injection Hcand as <-.
              ** apply (gtb_trans_weak _ (Candidate.score best)); try done.
                 by apply (Hafter c).
        -- by intros c cand ?%elem_of_nil.
      * exists before, col2, (after ++ [x]). repeat split; try done.
        -- by rewrite <- app_assoc.
        -- intros c cand Hc Hcand. apply elem_of_app in Hc as [Hc | Hc].
           ++ by apply (Hafter c).
           ++ apply list_elem_of_singleton in Hc as ->.
              rewrite Ex in Hcand. by injection Hcand as <-.
    + exists pre, x, []. repeat split; try done.
      * intros c cand Hc Hcand. by rewrite (Hb c Hc) in Hcand.
      * by intros c cand ?%elem_of_nil.
  - destruct b as [[best name]|].
    + destruct Hb as (before & col2 & after & -> & Hname & Hbest & Hbefore & Hafter).
      exists before, col2, (after ++ [x]). repeat split; try done.
      * by rewrite <- app_assoc.
      * intros c cand Hc Hcand. apply elem_of_app in Hc as [Hc | Hc].
        -- by apply (Hafter c).
        -- apply list_elem_of_singleton in Hc as ->. by rewrite Ex in Hcand.
    + intros col2 [Hc | ->%list_elem_of_singleton]%elem_of_app; [by apply Hb | done].
Qed.

(** X18: [detect_fks] never reports a relationship from a column without
    null and without repeated value of a table that has a row: such a
    column is never the source of a relationship. *)
Theorem detect_fks_never_from_unique_column
    (tables : list (string * DataFrame)) (method min_confidence : string)
    (enable_flags : option (gmap string bool)) (g : rng_state)
    (t : string) (df : DataFrame) (col : Series) (r : relationship) :
  (∀ df', (t, df') ∈ tables → df' = df) →
  col ∈ df_columns df → (0 < df_len df)%nat →
  unique_not_null (df_len df) col = true →
  r ∈ (detect_fks tables method min_confidence enable_flags g).1 →
  ¬ (from_table r = t ∧ from_col r = s_name col).
Proof.
  intros Hdf Hcol Hn Hu Hr [Ht Hc]. apply detect_fks_reports in Hr
    as (t1 & df1 & col1 & t2 & df2 & col2 & cand & g' &
        Ht1 & _ & Hpk & _ & _ & _ & _ & _ & ->).
  cbn [from_table from_col relationship_of] in Ht, Hc. subst t1.
  apply Hdf in Ht1 as ->. apply not_true_iff_false in Hpk. apply Hpk.
  apply str_in_spec. rewrite Hc. apply list_elem_of_fmap_2.
  unfold pk_columns. apply elem_of_List_filter. split; [done|].
  rewrite Hu, andb_true_r. by apply Nat.ltb_lt.
Qed.

(** X19: without overrides the methods both and all give the same search,
    and so do the methods content and uniqueness; with overrides the
    method does not matter, as long as it is not manual. *)
Theorem detect_fks_method_classes
    (tables : list (string * DataFrame)) (min_confidence : string) (g : rng_state) :
  detect_fks tables "all" min_confidence None g =
    detect_fks tables "both" min_confidence None g ∧
  detect_fks tables "uniqueness" min_confidence None g =
    detect_fks tables "content" min_confidence None g ∧
  ∀ method1 method2 flags,
    method1 ≠ "manual" → method2 ≠ "manual" →
    detect_fks tables method1 min_confidence (Some flags) g =
      detect_fks tables method2 min_confidence (Some flags) g.
Proof.
  split; [reflexivity|]. split; [reflexivity|].
  intros method1 method2 flags H1%String.eqb_neq H2%String.eqb_neq.
  unfold detect_fks. by rewrite H1, H2.
Qed.

End MoreScanProperties.

Lemma detect_fks_never_from_unique_column_witness :
  ¬ (from_table orders_customer_rel = "customer" ∧
     from_col orders_customer_rel = "customer_id").
Proof.
  apply (detect_fks_never_from_unique_column (H := example_runtime)
           [("orders", orders); ("customer", customer)] "both" "medium"
           (Some naming_only) 0%nat "customer" customer
           (text_column "customer_id" ["c1"; "c2"]) orders_customer_rel).
  - intros df' Hin. apply elem_of_cons in Hin as [[=] | Hin].
    apply list_elem_of_singleton in Hin. by injection Hin as ->.
  - apply list_elem_of_here.
  - simpl. lia.
  - vm_compute. reflexivity.
  - apply elem_of_computed. vm_compute. reflexivity.
Defined.

(** ** Strings without a common character *)

Lemma List_find_none {A} (f : A → bool) (l : list A) :
  (∀ x, x ∈ l → f x = false) → List.find f l = None.
Proof.
  induction l as [|x l IH]; intros Hf; [done|]. cbn [List.find].
  rewrite (Hf x) by left. apply IH. intros y Hy. apply Hf. by right.
Qed.

Lemma find_match_no_common (c : ascii) (s2 : list ascii) (s2_matches : list bool)
    (lo hi : nat) :
  c ∉ s2 → find_match c s2 s2_matches lo hi = None.
Proof.
  intros Hc. unfold find_match. apply List_find_none. intros j _.
  destruct (s2_matches !! j) as [[]|]; try done.
  destruct (s2 !! j) as [c'|] eqn:Ej; [|done].
  apply not_true_is_false. intros ->%Ascii.eqb_eq. apply Hc.
  by apply list_elem_of_lookup_2 in Ej.
Qed.

Lemma match_steps_no_common (s1 s2 : list ascii) (d : nat)
    (st : list bool * list bool * nat) (l : list nat) :
  (∀ c, c ∈ s1 → c ∉ s2) → foldl (match_step s1 s2 d) st l = st.
Proof.
  intros Hno. induction l as [|i l IH]; [done|]. cbn [foldl].
  assert (match_step s1 s2 d st i = st) as ->; [|done].
  unfold match_step. destruct st as [[m1 m2] n].
  destruct (s1 !! i) as [c|] eqn:Ei; [|done].
  rewrite find_match_no_common; [done|].
  apply Hno. by apply list_elem_of_lookup_2 in Ei.
Qed.

Lemma jaro_matching_no_common (s1 s2 : list ascii) :
  (∀ c, c ∈ s1 → c ∉ s2) → (jaro_matching s1 s2).2 = 0%nat.
Proof.
  intros Hno. unfold jaro_matching. by rewrite match_steps_no_common.
Qed.

Lemma jaro_winkler_no_common (s1 s2 : string) :
  s1 ≠ s2 → (∀ c, c ∈ chars s1 → c ∉ chars s2) → _jaro_winkler s1 s2 = F64.zero.
Proof.
  intros Hne%String.eqb_neq Hno. unfold _jaro_winkler. rewrite Hne.
  case_bool_decide; [done|].
  pose proof (jaro_matching_no_common _ _ Hno) as Hm.
  destruct (jaro_matching (chars s1) (chars s2)) as [[m1 m2] n].
  cbn [snd] in Hm. subst n. done.
Qed.

(** X20: [_jaro_winkler] is 1.0 on a string and itself, the empty string
    included; it is 0.0 on two different strings that have no character in
    common, and so on the empty string and a string that is not empty, in
    either order. *)
Theorem jaro_winkler_edges (s1 s2 : string) :
  _jaro_winkler s1 s1 = F64.one ∧
  (s1 ≠ s2 → (∀ c, c ∈ chars s1 → c ∉ chars s2) → _jaro_winkler s1 s2 = F64.zero) ∧
  (s1 ≠ "" → _jaro_winkler "" s1 = F64.zero ∧ _jaro_winkler s1 "" = F64.zero).
Proof.
  split; [|split].
  - unfold _jaro_winkler. by rewrite String.eqb_refl.
  - apply jaro_winkler_no_common.
  - intros Hs. split.
    + apply jaro_winkler_no_common; [done|]. by intros c ?%elem_of_nil.
    + apply jaro_winkler_no_common; [done|]. intros c _ ?%elem_of_nil. done.
Qed.

(** ** One signal of a family at most *)

Ltac one_key_fired :=
  repeat case_match; rewrite ?fire_keys;
  first [ eexists; split; [reflexivity|]; right; eexists; split; [|reflexivity]; in_list
        | exists []; split; [by rewrite app_nil_r | by left] ].

Section FamilyProperties.
Context `{Runtime}.

Lemma naming_signal_one_key flags col1 t2 col2 ev :
  ∃ ks, (naming_signal flags col1 t2 col2 ev).1.*1 = ev.1.*1 ++ ks ∧
        at_most_one_of ["naming_exact"; "name_sim"; "name_sim_weak"] ks.
Proof. unfold naming_signal. one_key_fired. Qed.

Lemma overlap_signal_one_key flags df1 col1 df2 col2 ev :
  ∃ ks, (overlap_signal flags df1 col1 df2 col2 ev).1.*1 = ev.1.*1 ++ ks ∧
        at_most_one_of ["overlap_high"; "overlap_medium"] ks.
Proof. unfold overlap_signal. one_key_fired. Qed.

Lemma cardinality_signal_one_key flags df1 col1 df2 col2 ev :
  ∃ ks, (cardinality_signal flags df1 col1 df2 col2 ev).1.*1 = ev.1.*1 ++ ks ∧
        at_most_one_of ["cardinality_match"] ks.
Proof. unfold cardinality_signal. one_key_fired. Qed.

Lemma format_signal_one_key flags df1 col1 df2 col2 ev g :
  ∃ ks, (format_signal flags df1 col1 df2 col2 ev g).1.1.*1 = ev.1.*1 ++ ks ∧
        at_most_one_of ["format_match"] ks.
Proof.
  unfold format_signal, bind, ret.
  destruct (_ && _); simpl; [|one_key_fired].
  destruct (_format_fingerprint col1 200 g) as [fmt1 g1].
  destruct (_format_fingerprint col2 200 g1) as [fmt2 g2]. simpl.
  one_key_fired.
Qed.

Lemma distribution_signal_one_key flags df1 col1 df2 col2 ev :
  ∃ ks, (distribution_signal flags df1 col1 df2 col2 ev).1.*1 = ev.1.*1 ++ ks ∧
        at_most_one_of ["dist_high"; "dist_med"] ks.
Proof. unfold distribution_signal. one_key_fired. Qed.

Lemma null_signal_one_key flags df1 col1 df2 col2 ev :
  ∃ ks, (null_signal flags df1 col1 df2 col2 ev).1.*1 = ev.1.*1 ++ ks ∧
        at_most_one_of ["null_corr"] ks.
Proof. unfold null_signal. one_key_fired. Qed.

Lemma at_most_one_length (family keys : list string) :
  at_most_one_of family keys → (length keys ≤ 1)%nat.
Proof. intros [-> | (k & _ & ->)]; simpl; lia. Qed.

(** X21: the keys of a candidate that the scorer returns are, in this
    order, at most one naming key, at most one overlap key, the
    cardinality key or not, the format key or not, at most one
    distribution key, and the null-pattern key or not: no two signals of
    one family fire together, and a candidate has at most six signals. *)
Theorem candidate_one_signal_per_family
    (t1 : string) (col1 : Series) (df1 : DataFrame)
    (t2 : string) (col2 : Series) (df2 : DataFrame)
    (flags : gmap string bool) (g : rng_state) (cand : Candidate.t) :
  (_score_candidate t1 col1 df1 t2 col2 df2 flags g).1 = Some cand →
  (∃ parts, (Candidate.signals cand).*1 = concat parts ∧
            Forall2 at_most_one_of SIGNAL_FAMILIES parts) ∧
  (length (Candidate.signals cand) ≤ 6)%nat.
Proof.
  unfold _score_candidate. destruct (negb _); [done|].
  unfold bind, ret.
  destruct (naming_signal_one_key flags (s_name col1) t2 (s_name col2) ([], []))
    as (k1 & E1 & S1).
  set (ev1 := naming_signal _ _ _ _ _) in *.
  destruct (overlap_signal_one_key flags df1 col1 df2 col2 ev1) as (k2 & E2 & S2).
  set (ev2 := overlap_signal _ _ _ _ _ _) in *.
  destruct (cardinality_signal_one_key flags df1 col1 df2 col2 ev2) as (k3 & E3 & S3).
  set (ev3 := cardinality_signal _ _ _ _ _ _) in *.
  destruct (format_signal_one_key flags df1 col1 df2 col2 ev3 g) as (k4 & E4 & S4).
  destruct (format_signal _ _ _ _ _ ev3 g) as [ev4 g4]. simpl in E4. simpl.
  destruct (distribution_signal_one_key flags df1 col1 df2 col2 ev4) as (k5 & E5 & S5).
  set (ev5 := distribution_signal _ _ _ _ _ _) in *.
  destruct (null_signal_one_key flags df1 col1 df2 col2 ev5) as (k6 & E6 & S6).
  set (ev6 := null_signal _ _ _ _ _ _) in *.
  intros Hs. assert (Candidate.signals cand = ev6.1) as Hsig.
  { unfold summarize in Hs. destruct (ev6.1.*1); [done|]. by injection Hs as <-. }
  assert ((Candidate.signals cand).*1 = concat [k1; k2; k3; k4; k5; k6]) as Hkeys.
  { rewrite Hsig, E6, E5, E4, E3, E2, E1. cbn [concat fst fmap list_fmap app].
    by rewrite app_nil_r, <- !app_assoc. }
  split.
  - exists [k1; k2; k3; k4; k5; k6]. split; [done|].
    unfold SIGNAL_FAMILIES. repeat (apply Forall2_cons; split; [done|]).
    apply Forall2_nil_2.
  - rewrite <- (length_fmap fst), Hkeys. cbn [concat]. rewrite !length_app.
    apply at_most_one_length in S1, S2, S3, S4, S5, S6. simpl. lia.
Qed.

End FamilyProperties.

Lemma candidate_one_signal_per_family_witness :
  let cand := {| Candidate.signals := [("naming_exact", F64.one)];
                 Candidate.reasons := ["exact FK naming"];
                 Candidate.score := F64.one;
                 Candidate.confidence := "high";
                 Candidate.detected_by := "naming" |} in
  (∃ parts, (Candidate.signals cand).*1 = concat parts ∧
            Forall2 at_most_one_of SIGNAL_FAMILIES parts) ∧
  (length (Candidate.signals cand) ≤ 6)%nat.
Proof.
  intros cand.
  apply (candidate_one_signal_per_family (H := example_runtime)
           "orders" (text_column "customer_id" ["c1"; "c2"; "c1"]) orders
           "customer" (text_column "customer_id" ["c1"; "c2"]) customer
           naming_only 0%nat cand).
  vm_compute. reflexivity.
Defined.

(** ** The search as one loop over its turns *)

Lemma tiers_exact_on_all_scores : tiers_exact_on ALL_SCORES = true.
Proof. vm_compute. reflexivity. Qed.

Lemma tiers_exact_on_spec (scores : list spec_float) (s : spec_float) (rank : Z) :
  tiers_exact_on scores = true → s ∈ scores → rank ∈ [0; 1; 2] →
  rank ≤ conf_rank (confidence_of s) 0 ↔ tier_floor rank ≤ F64.thousandths s.
Proof.
  unfold tiers_exact_on. rewrite forallb_forall. intros Hall Hs Hr.
  apply list_elem_of_In in Hs, Hr. specialize (Hall s Hs).
  rewrite forallb_forall in Hall. specialize (Hall rank Hr).
  apply Bool.eqb_prop in Hall. rewrite <- Z.leb_le, Hall. apply Z.leb_le.
Qed.

Lemma conf_rank_range (c : string) : conf_rank c 1 ∈ [0; 1; 2].
Proof.
  unfold conf_rank, CONF_RANK. cbn [dict_get].
  destruct (String.eqb c "low"); [in_list|].
  destruct (String.eqb c "medium"); [in_list|].
  destruct (String.eqb c "high"); in_list.
Qed.

Lemma tier_floor_mono (rank_lo rank_hi : Z) :
  rank_lo ∈ [0; 1; 2] → rank_hi ∈ [0; 1; 2] → rank_lo ≤ rank_hi →
  tier_floor rank_lo ≤ tier_floor rank_hi.
Proof.
  intros Hlo Hhi.
  repeat (apply elem_of_cons in Hlo as [-> | Hlo]); [| | |by apply elem_of_nil in Hlo];
    repeat (apply elem_of_cons in Hhi as [-> | Hhi]); try (by apply elem_of_nil in Hhi);
    vm_compute; congruence.
Qed.

(** ** Keys of turns of different names *)

Lemma rel_key_of_inj (t1 c t2 t1' c' t2' : string) :
  "|"%char ∉ chars t1 → "|"%char ∉ chars t1' →
  "|"%char ∉ chars c → "|"%char ∉ chars c' →
  rel_key_of t1 c t2 = rel_key_of t1' c' t2' → t1 = t1' ∧ c = c' ∧ t2 = t2'.
Proof.
  intros Ht Ht' Hc Hc' E. apply (f_equal chars) in E. unfold rel_key_of in E.
  rewrite !chars_app in E. change (chars "|") with ["|"%char] in E. simpl in E.
  apply split_at_first in E as [E1 E2]; [|done..].
  apply split_at_first in E2 as [E2 E3]; [|done..].
  repeat split; by apply chars_inj.
Qed.

Lemma NoDup_fmap_eq {A B} (f : A → B) (l : list A) (x y : A) :
  NoDup (f <$> l) → x ∈ l → y ∈ l → f x = f y → x = y.
Proof.
  induction l as [|a l IH]; [by intros _ ?%elem_of_nil|].
  rewrite fmap_cons. intros [Ha Hnd]%NoDup_cons Hx Hy E.
  apply elem_of_cons in Hx as [-> | Hx], Hy as [-> | Hy]; try done.
  - exfalso. apply Ha. rewrite E. by apply list_elem_of_fmap_2.
  - exfalso. apply Ha. rewrite <- E. by apply list_elem_of_fmap_2.
  - by apply IH.
Qed.

Lemma elem_of_visits tables flags t1 df1 col1 t2 df2 :
  (t1, df1, col1, (t2, df2)) ∈ visits tables flags →
  (t1, df1) ∈ tables ∧ col1 ∈ df_columns df1 ∧ (t2, df2) ∈ tables.
Proof.
  unfold visits. intros ([t df] & Hin & Ht)%list_elem_of_bind.
  destruct (_ && _); [by apply elem_of_nil in Hin|].
  apply list_elem_of_bind in Hin as (col & Hin & Hcol).
  destruct (str_in _ _); [by apply elem_of_nil in Hin|].
  apply list_elem_of_fmap in Hin as (entry2 & [= -> -> -> ->] & Hin).
  apply elem_of_List_filter in Hin as [Hin _]. done.
Qed.

Lemma NoDup_visits tables flags :
  NoDup tables → (∀ t df, (t, df) ∈ tables → NoDup (df_columns df)) →
  NoDup (visits tables flags).
Proof.
  intros Htables Hcols. unfold visits. apply NoDup_bind; [| |done].
  - intros [t df] [t' df'] [[[a b] c] d] _ _ Hy Hy'.
    destruct (_ && _); [by apply elem_of_nil in Hy|].
    destruct (_ && _); [by apply elem_of_nil in Hy'|].
    apply list_elem_of_bind in Hy as (col & Hy & _), Hy' as (col' & Hy' & _).
    destruct (str_in _ _); [by apply elem_of_nil in Hy|].
    destruct (str_in _ _); [by apply elem_of_nil in Hy'|].
    apply list_elem_of_fmap in Hy as (e & [= -> -> -> ->] & _).
    apply list_elem_of_fmap in Hy' as (e' & [= -> -> _ _] & _). done.
  - intros [t df] Ht. destruct (_ && _); [apply NoDup_nil_2|].
    apply NoDup_bind; [| |by apply (Hcols t)].
    + intros col col' [[[a b] c] d] _ _ Hy Hy'.
      destruct (str_in _ _); [by apply elem_of_nil in Hy|].
      destruct (str_in _ _); [by apply elem_of_nil in Hy'|].
      apply list_elem_of_fmap in Hy as (e & [= -> -> -> ->] & _).
      apply list_elem_of_fmap in Hy' as (e' & [= -> _] & _). done.
    + intros col _. destruct (str_in _ _); [apply NoDup_nil_2|].
      apply NoDup_fmap_2.
      * by intros e e' [= ->].
      * eapply sublist_NoDup; [exact Htables | apply List_filter_sublist].
Qed.

(** Tables of different names, whose columns have different names, where
    no name holds the separator, give every turn a key of its own. *)
Lemma visited_keys_distinct tables flags :
  NoDup tables.*1 →
  (∀ t df, (t, df) ∈ tables →
     ("|"%char ∉ chars t) ∧ NoDup (s_name <$> df_columns df) ∧
     ∀ col, col ∈ df_columns df → "|"%char ∉ chars (s_name col)) →
  NoDup (visited_keys tables flags).
Proof.
  intros Hnames Hcols. unfold visited_keys.
  apply NoDup_fmap_2_strong.
  - intros [[[t1 df1] col1] [t2 df2]] [[[t1' df1'] col1'] [t2' df2']] Hv Hv' E.
    apply elem_of_visits in Hv as (Ht1 & Hc1 & Ht2), Hv' as (Ht1' & Hc1' & Ht2').
    cbn [visit_key] in E.
    destruct (Hcols _ _ Ht1) as (Hb1 & Hnd1 & Hbc1).
    destruct (Hcols _ _ Ht1') as (Hb1' & _ & Hbc1').
    apply rel_key_of_inj in E as (-> & Ec & ->); auto.
    assert (df1 = df1') as <-.
    { by pose proof (NoDup_fmap_eq fst tables _ _ Hnames Ht1 Ht1' eq_refl) as [= ->]. }
    assert (df2 = df2') as <-.
    { by pose proof (NoDup_fmap_eq fst tables _ _ Hnames Ht2 Ht2' eq_refl) as [= ->]. }
    by rewrite (NoDup_fmap_eq s_name (df_columns df1) _ _ Hnd1 Hc1 Hc1' Ec).
  - apply NoDup_visits; [by apply (NoDup_fmap_1 fst)|].
    intros t df Ht. destruct (Hcols _ _ Ht) as (_ & Hnd & _).
    by apply (NoDup_fmap_1 s_name).
Qed.

Section FilterProperties.
Context `{Runtime}.

Lemma for_each_foldl {A S} (xs : list A) (body : S → A → M S) (f : S → A → S)
    (st : S) (g : rng_state) :
  (∀ st x g, x ∈ xs → body st x g = (f st x, g)) →
  for_each xs body st g = (foldl f st xs, g).
Proof.
  revert st. induction xs as [|x xs IH]; intros st Hbody; [done|].
  cbn [for_each foldl]. unfold bind. rewrite Hbody by left.
  apply IH. intros st' y g' Hy. apply Hbody. by right.
Qed.

Lemma foldl_bind {A B S} (f : S → B → S) (h : A → list B) (st : S) (xs : list A) :
  foldl f st (xs ≫= h) = foldl (λ st x, foldl f st (h x)) st xs.
Proof.
  revert st. induction xs as [|x xs IH]; intros st; [done|].
  cbn [mbind list_bind foldl]. change (h x ++ (xs ≫= h)) with (h x ++ (xs ≫= h)).
  rewrite foldl_app. apply IH.
Qed.

Lemma foldl_filter_fixed {A S} (f : S → A → S) (p : A → bool) (st : S) (xs : list A) :
  (∀ st x, p x = false → f st x = st) →
  foldl f st xs = foldl f st (List.filter p xs).
Proof.
  intros Hp. revert st. induction xs as [|x xs IH]; intros st; [done|].
  cbn [foldl List.filter]. destruct (p x) eqn:E; cbn [foldl]; [apply IH|].
  rewrite (Hp st x E). apply IH.
Qed.

(** One turn of the search without the generator. *)
Lemma scan_target_any_state min_rank flags t1 df1 col1 too_large st entry2 g g' :
  scan_target min_rank flags t1 df1 col1 too_large st entry2 g' =
    ((scan_target min_rank flags t1 df1 col1 too_large st entry2 g).1, g').
Proof.
  destruct (stateless_scan_target min_rank flags t1 df1 col1 too_large st entry2) as [a Ha].
  by rewrite (Ha g), (Ha g').
Qed.

Lemma search_is_one_loop tables min_rank flags st g :
  (for_each tables (scan_table tables min_rank flags) st g).1 =
    foldl (λ st '(t1, df1, col1, entry2),
             (scan_target min_rank flags t1 df1 col1 (too_large_table df1) st entry2 g).1)
          st (visits tables flags).
Proof.
  unfold visits. rewrite foldl_bind.
  erewrite for_each_foldl; [reflexivity|].
  intros st1 [t1 df1] g1 _. unfold scan_table.
  destruct (_ && _); [done|].
  rewrite foldl_bind. apply for_each_foldl.
  intros st2 col1 g2 _. unfold scan_column.
  destruct (str_in _ _); [done|].
  rewrite foldl_fmap.
  rewrite <- (foldl_filter_fixed
                (λ st entry2,
                   (scan_target min_rank flags t1 df1 col1 (too_large_table df1)
                      st entry2 g).1)).
  - apply for_each_foldl. intros st3 entry2 g3 _. apply scan_target_any_state.
  - intros st3 [t2 df2] Hself. apply negb_false_iff in Hself. cbn [fst] in Hself.
    unfold scan_target. by rewrite Hself.
Qed.

(** ** Two searches with different minimal ranks, turn by turn *)

Lemma found_candidate_facts t1 col1 df1 t2 df2 flags target_cols g cand name :
  (best_target t1 col1 df1 t2 df2 flags target_cols g).1 = Some (cand, name) →
  Candidate.score cand ∈ ALL_SCORES ∧
  Candidate.confidence cand = confidence_of (Candidate.score cand).
Proof.
  intros (col2 & g' & _ & _ & Hs)%best_target_from.
  destruct (score_candidate_keys_in_order _ _ _ _ _ _ _ _ _ Hs) as [Hsub Hscore].
  destruct (score_candidate_summarizes _ _ _ _ _ _ _ _ _ Hs) as (_ & ev & Hsum).
  destruct (summarize_confidence _ _ Hsum) as [Hconf _].
  split; [|done]. rewrite Hscore.
  apply elem_of_dedupe, list_elem_of_fmap_2. by apply sublist_in_sublists.
Qed.

Lemma consider_in_thousandths (rank : Z) (t1 c t2 : string) (cand : Candidate.t)
    (name : string) (st : search_state) :
  rank ∈ [0; 1; 2] →
  Candidate.score cand ∈ ALL_SCORES →
  Candidate.confidence cand = confidence_of (Candidate.score cand) →
  (∀ ck s, best st !! ck = Some s → s ∈ ALL_SCORES) →
  let accepted :=
    tier_floor rank ≤ F64.thousandths (Candidate.score cand) ∧
    ∀ r, best st !! col_key_of t1 c = Some r →
         F64.thousandths r - F64.thousandths (Candidate.score cand) ≤ 50 in
  (accepted ∧
   consider rank t1 c t2 (Some (cand, name)) st =
     {| results := results st ++ [relationship_of t1 c t2 name cand];
        seen := {[rel_key_of t1 c t2]} ∪ seen st;
        best := <[col_key_of t1 c := Candidate.score cand]> (best st) |}) ∨
  (¬ accepted ∧ consider rank t1 c t2 (Some (cand, name)) st = st).
Proof.
  intros Hrank Hs Hconf Hbest accepted. unfold consider.
  pose proof (tiers_exact_on_spec ALL_SCORES _ rank tiers_exact_on_all_scores Hs Hrank)
    as Htier.
  rewrite Hconf.
  destruct (Z.ltb_spec (conf_rank (confidence_of (Candidate.score cand)) 0) rank)
    as [Hlt | Hge].
  { right. split; [|done]. intros [Hfloor _]. apply Htier in Hfloor. lia. }
  apply Htier in Hge.
  destruct (best st !! col_key_of t1 c) as [running|] eqn:Erun.
  - destruct (threshold_exact_on_spec ALL_SCORES (Candidate.score cand) running
                threshold_exact_on_all_scores Hs (Hbest _ _ Erun)) as [_ ->].
    destruct (Z.ltb_spec 50 (F64.thousandths running - F64.thousandths (Candidate.score cand)))
      as [Hskip | Hkeep].
    + right. split; [|done]. intros [_ Hrun]. specialize (Hrun running eq_refl). lia.
    + left. split; [|done]. split; [done|]. by intros r [= <-].
  - left. split; [|done]. split; [done|]. by intros r [=].
Qed.

Lemma sim_inv_more_keys rank_hi keys keys' lo hi :
  (∀ k, k ∈ keys → k ∈ keys') → sim_inv rank_hi keys lo hi → sim_inv rank_hi keys' lo hi.
Proof.
  intros Hk (Hres & Hslo & Hshi & Hb & Hlo & Hhi).
  repeat split; try done; intros k Hin; apply Hk; auto.
Qed.

Lemma sim_consider (rank_lo rank_hi : Z) (keys : list string) (t1 c t2 : string)
    (found : option (Candidate.t * string)) (lo hi : search_state) :
  rank_lo ∈ [0; 1; 2] → rank_hi ∈ [0; 1; 2] → rank_lo ≤ rank_hi →
  (∀ cand name, found = Some (cand, name) →
     Candidate.score cand ∈ ALL_SCORES ∧
     Candidate.confidence cand = confidence_of (Candidate.score cand)) →
  sim_inv rank_hi keys lo hi →
  sim_inv rank_hi (keys ++ [rel_key_of t1 c t2])
    (consider rank_lo t1 c t2 found lo) (consider rank_hi t1 c t2 found hi).
Proof.
  intros Hrlo Hrhi Hle Hfound Hinv.
  assert (∀ k, k ∈ keys → k ∈ keys ++ [rel_key_of t1 c t2]) as Hmore
    by (intros k Hk; apply elem_of_app; by left).
  destruct found as [[cand name]|];
    [|apply (sim_inv_more_keys _ keys); [exact Hmore | exact Hinv]].
  destruct (Hfound cand name eq_refl) as [Hs Hconf].
  pose proof (tier_floor_mono _ _ Hrlo Hrhi Hle) as Hfloors.
  pose proof (tiers_exact_on_spec ALL_SCORES _ rank_hi tiers_exact_on_all_scores Hs Hrhi)
    as Htier.
  pose proof Hinv as (Hres & Hslo & Hshi & Hb & Hblo & Hbhi).
  pose proof (Hb (col_key_of t1 c)) as Hrel.
  destruct (consider_in_thousandths rank_lo t1 c t2 cand name lo Hrlo Hs Hconf Hblo)
    as [[[Hfl Hrunl] ->] | [Hnl ->]];
    destruct (consider_in_thousandths rank_hi t1 c t2 cand name hi Hrhi Hs Hconf Hbhi)
      as [[[Hfh Hrunh] ->] | [Hnh ->]].
  - (* accepted by both *)
    split; [|split; [|split; [|split; [|split]]]]; cbn [results seen best].
    + rewrite filter_app, Hres. f_equal.
      rewrite filter_cons_True; [done|]. cbn [confidence relationship_of].
      rewrite Hconf. by apply Htier.
    + intros k [->%elem_of_singleton | Hk]%elem_of_union; apply elem_of_app;
        [right; apply list_elem_of_here | left; by apply Hslo].
    + intros k [->%elem_of_singleton | Hk]%elem_of_union; apply elem_of_app;
        [right; apply list_elem_of_here | left; by apply Hshi].
    + intros ck. destruct (decide (ck = col_key_of t1 c)) as [-> | Hne].
      * rewrite !lookup_insert_eq. by left.
      * rewrite !lookup_insert_ne by done. apply Hb.
    + intros ck s. destruct (decide (ck = col_key_of t1 c)) as [-> | Hne].
      * rewrite lookup_insert_eq. intros [= <-]. exact Hs.
      * rewrite lookup_insert_ne by done. apply Hblo.
    + intros ck s. destruct (decide (ck = col_key_of t1 c)) as [-> | Hne].
      * rewrite lookup_insert_eq. intros [= <-]. exact Hs.
      * rewrite lookup_insert_ne by done. apply Hbhi.
  - (* accepted by the lower search only: the score is below the floor *)
    assert (F64.thousandths (Candidate.score cand) < tier_floor rank_hi) as Hbelow.
    { destruct (Z.lt_ge_cases (F64.thousandths (Candidate.score cand)) (tier_floor rank_hi))
        as [? | Hge]; [done|].
      exfalso. apply Hnh. split; [done|]. intros r Hr.
      destruct Hrel as [E | (l & El & Hl & Hh)].
      - apply Hrunl. by rewrite E.
      - rewrite Hr in Hh. lia. }
    split; [|split; [|split; [|split; [|split; [|exact Hbhi]]]]]; cbn [results seen best].
    + rewrite filter_app, Hres, filter_cons_False, filter_nil, app_nil_r; [reflexivity|].
      cbn [confidence relationship_of]. rewrite Hconf. intros Hp%Htier. lia.
    + intros k [->%elem_of_singleton | Hk]%elem_of_union; apply elem_of_app;
        [right; apply list_elem_of_here | left; by apply Hslo].
    + intros k Hk. apply Hmore. by apply Hshi.
    + intros ck. destruct (decide (ck = col_key_of t1 c)) as [-> | Hne].
      * rewrite lookup_insert_eq. right. exists (Candidate.score cand).
        split; [reflexivity|]. split; [exact Hbelow|].
        destruct (best hi !! col_key_of t1 c) as [h|] eqn:Eh; [|exact I].
        destruct Hrel as [E | (l & El & Hl & Hh)]; [|exact Hh].
        specialize (Hrunl h E). lia.
      * rewrite lookup_insert_ne by done. apply Hb.
    + intros ck s. destruct (decide (ck = col_key_of t1 c)) as [-> | Hne].
      * rewrite lookup_insert_eq. intros [= <-]. exact Hs.
      * rewrite lookup_insert_ne by done. apply Hblo.
  - (* accepted by the higher search only: impossible *)
    exfalso. apply Hnl. split; [lia|]. intros r Hr.
    destruct Hrel as [E | (l & El & Hl & Hh)].
    + apply Hrunh. by rewrite <- E.
    + rewrite Hr in El. injection El as <-. lia.
  - apply (sim_inv_more_keys _ keys); [exact Hmore | exact Hinv].
Qed.

Lemma sim_visits (rank_lo rank_hi : Z) (flags : gmap string bool) (g : rng_state)
    (vs : list (string * DataFrame * Series * (string * DataFrame)))
    (keys : list string) (lo hi : search_state) :
  rank_lo ∈ [0; 1; 2] → rank_hi ∈ [0; 1; 2] → rank_lo ≤ rank_hi →
  NoDup (keys ++ (visit_key <$> vs)) →
  sim_inv rank_hi keys lo hi →
  sim_inv rank_hi (keys ++ (visit_key <$> vs))
    (foldl (λ st '(t1, df1, col1, entry2),
              (scan_target rank_lo flags t1 df1 col1 (too_large_table df1) st entry2 g).1)
           lo vs)
    (foldl (λ st '(t1, df1, col1, entry2),
              (scan_target rank_hi flags t1 df1 col1 (too_large_table df1) st entry2 g).1)
           hi vs).
Proof.
  intros Hrlo Hrhi Hle. revert keys lo hi.
  induction vs as [|[[[t1 df1] col1] [t2 df2]] vs IH]; intros keys lo hi Hnd Hinv.
  { cbn [fmap list_fmap foldl]. by rewrite app_nil_r. }
  cbn [foldl]. rewrite fmap_cons, cons_middle, app_assoc in Hnd |- *.
  apply IH; [done|]. clear IH.
  assert (rel_key_of t1 (s_name col1) t2 ∉ keys) as Hfresh.
  { apply NoDup_app in Hnd as [Hnd _]. apply NoDup_app in Hnd as (_ & Hnd & _).
    intros Hin. apply (Hnd _ Hin). cbn [visit_key]. apply list_elem_of_here. }
  cbn [visit_key]. unfold scan_target.
  destruct (String.eqb t2 t1).
  { apply (sim_inv_more_keys _ keys); [|exact Hinv].
    intros k Hk. apply elem_of_app. by left. }
  pose proof Hinv as (Hres & Hslo & Hshi & Hrest).
  case_decide as Hlo; [by apply Hslo in Hlo|].
  case_decide as Hhi; [by apply Hshi in Hhi|].
  unfold bind, ret.
  destruct (best_target t1 col1 df1 t2 df2 flags _ g) as [found g'] eqn:Eb. cbn [fst].
  apply sim_consider; [exact Hrlo | exact Hrhi | exact Hle | | exact Hinv].
  intros cand name ->.
  apply (found_candidate_facts t1 col1 df1 t2 df2 flags
           (target_columns (too_large_table df1) df2) g cand name).
  by rewrite Eb.
Qed.

(** When no two turns of the search give the same key
    [f"{t1}|{col1}|{t2}"], the search with the higher minimal rank returns
    the relationships of the search with the lower minimal rank whose tier
    passes the higher rank. *)
Lemma min_confidence_filters_distinct_keys
    (tables : list (string * DataFrame)) (method lower higher : string)
    (enable_flags : option (gmap string bool)) (g : rng_state) :
  NoDup (visited_keys tables (_build_flags method enable_flags)) →
  conf_rank lower 1 ≤ conf_rank higher 1 →
  (detect_fks tables method higher enable_flags g).1 ≡ₚ
    filter (λ r, conf_rank higher 1 ≤ conf_rank (confidence r) 0)
           (detect_fks tables method lower enable_flags g).1.
Proof.
  intros Hnd Hle. unfold detect_fks. destruct (_ || _); [done|].
  unfold bind, ret.
  pose proof (search_is_one_loop tables (conf_rank higher 1)
                (_build_flags method enable_flags)
                {| results := []; seen := ∅; best := ∅ |} g) as Ehi.
  pose proof (search_is_one_loop tables (conf_rank lower 1)
                (_build_flags method enable_flags)
                {| results := []; seen := ∅; best := ∅ |} g) as Elo.
  destruct (for_each tables (scan_table tables (conf_rank higher 1) _) _ g) as [hi ghi].
  destruct (for_each tables (scan_table tables (conf_rank lower 1) _) _ g) as [lo glo].
  cbn [fst] in Ehi, Elo |- *.
  destruct (sim_visits (conf_rank lower 1) (conf_rank higher 1)
              (_build_flags method enable_flags) g
              (visits tables (_build_flags method enable_flags)) []
              {| results := []; seen := ∅; best := ∅ |}
              {| results := []; seen := ∅; best := ∅ |}
              (conf_rank_range lower) (conf_rank_range higher) Hle Hnd) as (Hres & _).
  { repeat split; try done. intros ck. by left. }
  rewrite <- Ehi, <- Elo in Hres.
  rewrite sort_results_perm, Hres. by rewrite sort_results_perm.
Qed.

(** X22: for tables of different names, whose columns have different
    names, where no table or column name holds the character [|], raising
    [min_confidence] only takes relationships away: the relationships
    returned for the higher level are, up to their order, those returned
    for the lower level whose tier passes the higher level.  The near-best
    filter lets no relationship come or go because candidates of a lower
    tier were let in. *)
Theorem min_confidence_only_filters
    (tables : list (string * DataFrame)) (method lower higher : string)
    (enable_flags : option (gmap string bool)) (g : rng_state) :
  NoDup tables.*1 →
  (∀ t df, (t, df) ∈ tables →
     ("|"%char ∉ chars t) ∧ NoDup (s_name <$> df_columns df) ∧
     ∀ col, col ∈ df_columns df → "|"%char ∉ chars (s_name col)) →
  conf_rank lower 1 ≤ conf_rank higher 1 →
  (detect_fks tables method higher enable_flags g).1 ≡ₚ
    filter (λ r, conf_rank higher 1 ≤ conf_rank (confidence r) 0)
           (detect_fks tables method lower enable_flags g).1.
Proof.
  intros Hnames Hcols Hle. apply min_confidence_filters_distinct_keys; [|done].
  by apply visited_keys_distinct.
Qed.

End FilterProperties.

Lemma min_confidence_only_filters_witness :
  (detect_fks (H := example_runtime)
     [("orders", orders); ("customer", customer); ("clients", clients); ("buyers", buyers)]
     "both" "high" (Some naming_and_overlap) 0%nat).1 ≡ₚ
    filter (λ r, conf_rank "high" 1 ≤ conf_rank (confidence r) 0)
           (detect_fks (H := example_runtime)
              [("orders", orders); ("customer", customer); ("clients", clients);
               ("buyers", buyers)]
              "both" "low" (Some naming_and_overlap) 0%nat).1.
Proof.
  apply (min_confidence_only_filters (H := example_runtime)).
  - apply (bool_decide_unpack _). vm_compute. exact I.
  - intros t df Hin.
    repeat (apply elem_of_cons in Hin as [[= -> ->] | Hin];
            [split; [apply (bool_decide_unpack _); vm_compute; exact I|];
             split; [apply (bool_decide_unpack _); vm_compute; exact I|];
             intros col Hcol;
             repeat (apply elem_of_cons in Hcol as [-> | Hcol];
                     [apply (bool_decide_unpack _); vm_compute; exact I|]);
             by apply elem_of_nil in Hcol|]).
    by apply elem_of_nil in Hin.
  - vm_compute. discriminate.
Defined.
